(** * linea-bot: a shallow embedding of [src/bot.js]

    The bot watches ERC-20 balances of one account and sweeps them to a
    safe wallet.  This development embeds the parts of [bot.js] that
    carry the bot's guarantees:

    - [updateMetrics] and the [metrics] object,
    - [MultiRpcProvider.selectBestProvider] and
      [MultiRpcProvider.callWithFallback],
    - [TxQueue] ([enqueue], [process], [initNonce]) and [enqueueTransfer],
    - [resetProcessingLocks],
    - [telegramNotify],
    - [transferWithRetry].

    JavaScript runs these functions on one thread; an [async] function
    gives up control only at an [await].  The embedding keeps that shape:
    a computation is a tree ([Res]) whose nodes are the [await]s, every
    segment between two [await]s is a pure function on the global state,
    and the event loop is a transition system ([sys_step]) that
    interleaves the environment's handlers with the resumption of the
    suspended queue worker. *)

From Stdlib Require Import ZArith Ascii String.
From stdpp Require Import base option list gmap strings.

Local Open Scope string_scope.
Local Open Scope Z_scope.

(** ** Strings *)

(** [String.prototype.toLowerCase] on the ASCII range (token addresses are
    hexadecimal text). *)
Definition lower_ascii (c : ascii) : ascii :=
  let n := nat_of_ascii c in
  if (Nat.leb 65 n && Nat.leb n 90)%bool then ascii_of_nat (n + 32) else c.

Fixpoint toLowerCase (s : string) : string :=
  match s with
  | EmptyString => EmptyString
  | String c r => String (lower_ascii c) (toLowerCase r)
  end.

(** [hay.includes(needle)] *)
Definition includes (hay needle : string) : bool :=
  match String.index 0 needle hay with
  | Some _ => true
  | None => false
  end.

(** ** Metrics (bot.js lines 42-78) *)

Record Metrics := mkMetrics {
  startTime : Z;
  totalTransactions : Z;
  successfulTx : Z;
  failedTx : Z;
  lastTxTime : option Z;
  lastHeartbeat : Z;
  rpcFailures : Z;
  wsReconnections : Z;
  consecutiveFailures : Z;
  processingLockResets : Z
}.

(** The [metrics] object literal; [Date.now()] is passed in. *)
Definition metrics0 (now : Z) : Metrics :=
  {| startTime := now;
     totalTransactions := 0;
     successfulTx := 0;
     failedTx := 0;
     lastTxTime := None;
     lastHeartbeat := now;
     rpcFailures := 0;
     wsReconnections := 0;
     consecutiveFailures := 0;
     processingLockResets := 0 |}.

(** [updateMetrics(type, success)]; [now] is the value of [Date.now()]
    read by the ['transaction'] case.  The [switch] has no default case:
    any other [type] leaves the object as it is. *)
Definition updateMetrics (type : string) (success : bool) (now : Z)
    (m : Metrics) : Metrics :=
  if String.eqb type "transaction" then
    let total := totalTransactions m + 1 in
    if success then
      {| startTime := startTime m;
         totalTransactions := total;
         successfulTx := successfulTx m + 1;
         failedTx := failedTx m;
         lastTxTime := Some now;
         lastHeartbeat := lastHeartbeat m;
         rpcFailures := rpcFailures m;
         wsReconnections := wsReconnections m;
         consecutiveFailures := 0;
         processingLockResets := processingLockResets m |}
    else
      {| startTime := startTime m;
         totalTransactions := total;
         successfulTx := successfulTx m;
         failedTx := failedTx m + 1;
         lastTxTime := Some now;
         lastHeartbeat := lastHeartbeat m;
         rpcFailures := rpcFailures m;
         wsReconnections := wsReconnections m;
         consecutiveFailures := consecutiveFailures m + 1;
         processingLockResets := processingLockResets m |}
  else if String.eqb type "rpc_failure" then
    {| startTime := startTime m;
       totalTransactions := totalTransactions m;
       successfulTx := successfulTx m;
       failedTx := failedTx m;
       lastTxTime := lastTxTime m;
       lastHeartbeat := lastHeartbeat m;
       rpcFailures := rpcFailures m + 1;
       wsReconnections := wsReconnections m;
       consecutiveFailures := consecutiveFailures m;
       processingLockResets := processingLockResets m |}
  else if String.eqb type "reconnection" then
    {| startTime := startTime m;
       totalTransactions := totalTransactions m;
       successfulTx := successfulTx m;
       failedTx := failedTx m;
       lastTxTime := lastTxTime m;
       lastHeartbeat := lastHeartbeat m;
       rpcFailures := rpcFailures m;
       wsReconnections := wsReconnections m + 1;
       consecutiveFailures := consecutiveFailures m;
       processingLockResets := processingLockResets m |}
  else if String.eqb type "lock_reset" then
    {| startTime := startTime m;
       totalTransactions := totalTransactions m;
       successfulTx := successfulTx m;
       failedTx := failedTx m;
       lastTxTime := lastTxTime m;
       lastHeartbeat := lastHeartbeat m;
       rpcFailures := rpcFailures m;
       wsReconnections := wsReconnections m;
       consecutiveFailures := consecutiveFailures m;
       processingLockResets := processingLockResets m + 1 |}
  else m.

(** [log] stamps [metrics.lastHeartbeat] (line 89). *)
Definition heartbeat (now : Z) (m : Metrics) : Metrics :=
  {| startTime := startTime m;
     totalTransactions := totalTransactions m;
     successfulTx := successfulTx m;
     failedTx := failedTx m;
     lastTxTime := lastTxTime m;
     lastHeartbeat := now;
     rpcFailures := rpcFailures m;
     wsReconnections := wsReconnections m;
     consecutiveFailures := consecutiveFailures m;
     processingLockResets := processingLockResets m |}.

(** A history of [updateMetrics] calls: type, success flag, time. *)
Definition metricsAfter (calls : list (string * bool * Z)) (m : Metrics) : Metrics :=
  fold_left (fun acc c => updateMetrics (fst (fst c)) (snd (fst c)) (snd c) acc) calls m.

Definition tx_balanced (m : Metrics) : Prop :=
  totalTransactions m = successfulTx m + failedTx m.

(** ** Data model *)

(** An entry of [MultiRpcProvider.latencies]: a measured round trip in
    milliseconds, or [Infinity] (never measured, or the last probe failed). *)
Inductive Latency : Type :=
| Millis (ms : Z)
| Infinity.

(** The part of [MultiRpcProvider] that the modelled functions read and
    write.  [providers] itself only ever has [WS_RPC_URLS.length] entries,
    replaced in place; a provider is named by its index. *)
Record Pool := mkPool {
  latencies : list Latency;
  currentIndex : Z
}.

(** [TxQueue]: [queue] holds the [tokenAddress] of each job;
    [nonce] is [null] or a number. *)
Record TxQueue := mkTxQueue {
  queue : list string;
  processing : bool;
  nonce : option Z
}.

(** A value of [tokenContracts]; the contract handle is the token's key. *)
Record TokenInfo := mkTokenInfo {
  decimals : Z;
  symbol : string
}.

(** The lines written by [log] and [debugLog], without their decoration. *)
Inductive LogLine : Type :=
| L_AllRpcsUnavailable
| L_SelectedRpc (index : Z) (latency : option Latency)
| L_RpcCallFailed (index : nat) (message : string)
| L_CleanedUp
| L_InitializedNonce (n : Z)
| L_Enqueued (addr : string) (queueLength : nat)
| L_Processing (jobs : nat)
| L_QueueFinished
| L_AlreadyProcessing (addr : string)
| L_ResetLocks (resetCount : nat)
| L_TokenNotFound (addr : string)
| L_Balance (sym : string) (balance : Z)
| L_NoBalance (sym : string)
| L_TxSent (sym : string) (hash : Z) (gasPrice : Z)
| L_Confirmed (sym : string) (hash : Z)
| L_AttemptFailed (sym : string) (attempt : nat) (message : string)
| L_InsufficientFunds
| L_FailedAfter (sym : string) (maxRetries : nat)
| L_Unlocked (addr : string)
| L_ProviderSwitched
| L_TelegramFailed (message : string).

(** The texts handed to [telegramNotify]. *)
Inductive Notification : Type :=
| N_Transferred (sym : string) (amount : Z) (decimals : Z) (hash : Z)
| N_InsufficientFunds
| N_Alert (consecutive : Z)
| N_Failed (sym : string) (maxRetries : nat).

(** The mutable globals of the module. *)
Record State := mkState {
  metrics : Metrics;
  tokenContracts : gmap string TokenInfo;
  tokenProcessing : gmap string bool;
  txQueue : TxQueue;
  multiProvider : Pool;
  CHAIN_ID : option Z;
  clock : Z;                         (* what [Date.now()] returns *)
  output : list (Z * LogLine)        (* console and bot.log *)
}.

Definition set_metrics (f : Metrics -> Metrics) (s : State) : State :=
  mkState (f (metrics s)) (tokenContracts s) (tokenProcessing s) (txQueue s)
          (multiProvider s) (CHAIN_ID s) (clock s) (output s).
Definition set_tokenContracts (f : gmap string TokenInfo -> gmap string TokenInfo)
    (s : State) : State :=
  mkState (metrics s) (f (tokenContracts s)) (tokenProcessing s) (txQueue s)
          (multiProvider s) (CHAIN_ID s) (clock s) (output s).
Definition set_tokenProcessing (f : gmap string bool -> gmap string bool)
    (s : State) : State :=
  mkState (metrics s) (tokenContracts s) (f (tokenProcessing s)) (txQueue s)
          (multiProvider s) (CHAIN_ID s) (clock s) (output s).
Definition set_txQueue (f : TxQueue -> TxQueue) (s : State) : State :=
  mkState (metrics s) (tokenContracts s) (tokenProcessing s) (f (txQueue s))
          (multiProvider s) (CHAIN_ID s) (clock s) (output s).
Definition set_multiProvider (f : Pool -> Pool) (s : State) : State :=
  mkState (metrics s) (tokenContracts s) (tokenProcessing s) (txQueue s)
          (f (multiProvider s)) (CHAIN_ID s) (clock s) (output s).
Definition set_clock (now : Z) (s : State) : State :=
  mkState (metrics s) (tokenContracts s) (tokenProcessing s) (txQueue s)
          (multiProvider s) (CHAIN_ID s) now (output s).
Definition set_output (f : list (Z * LogLine) -> list (Z * LogLine))
    (s : State) : State :=
  mkState (metrics s) (tokenContracts s) (tokenProcessing s) (txQueue s)
          (multiProvider s) (CHAIN_ID s) (clock s) (f (output s)).

Definition set_queue (q : list string) (t : TxQueue) : TxQueue :=
  mkTxQueue q (processing t) (nonce t).
Definition set_processing (b : bool) (t : TxQueue) : TxQueue :=
  mkTxQueue (queue t) b (nonce t).
Definition set_nonce (n : option Z) (t : TxQueue) : TxQueue :=
  mkTxQueue (queue t) (processing t) n.

(** [tokenProcessing.get(addr)] used as a condition: [undefined] and
    [false] are both falsy. *)
Definition isProcessing (s : State) (addr : string) : bool :=
  match tokenProcessing s !! addr with
  | Some true => true
  | _ => false
  end.

(** ** External operations *)

(** Which connection a contract call goes through: the contract bound to
    the global [wallet], or a fresh one bound to [providers[i]]. *)
Inductive Via : Type :=
| ViaWallet
| ViaProvider (i : nat).

(** The transaction that is signed and sent (lines 449-453). *)
Record Tx := mkTx {
  tx_token : string;
  tx_amount : Z;
  tx_gasLimit : Z;
  tx_gasPrice : Z;
  tx_nonce : option Z;
  tx_chainId : option Z
}.

(** The operations the bot awaits on the outside world. *)
Inductive NetCall : Type :=
| BalanceOf (via : Via) (token : string)
| GetGasPrice (provider : nat)
| EstimateGas (via : Via) (token : string) (amount gasPrice : Z) (nonce : option Z)
| PopulateTransaction (token : string) (amount : Z)
| SignTransaction (tx : Tx)
| SendTransaction (provider : nat) (tx : Tx)
| WaitConfirmation (hash : Z)
| GetTransactionCount
| TelegramNotify (text : Notification)
| Delay (ms : Z).

(** How an awaited operation settles: resolved with a value (a big
    number, a count, a transaction hash) or rejected with an error whose
    [message] is given. *)
Inductive Reply : Type :=
| Ok (v : Z)
| Err (message : string).

(** ** Computations with suspension points *)

(** The result of running a piece of code from some state until it
    finishes or reaches its next [await].  The continuation of an [await]
    receives the reply and the global state as it is when the code is
    resumed: other handlers may have run in between.

    A suspension is recorded where the code awaits an operation that
    leaves the process (a call to the chain, a timer, the notification)
    and where [process] awaits [transferWithRetry].  An [await] on one of
    the bot's own [async] helpers is resumed in the turn in which the
    helper finishes and is not a node of its own. *)
Inductive Res (A : Type) : Type :=
| Fin (s : State) (a : A)
| Await (s : State) (c : NetCall) (k : Reply -> State -> Res A).
Arguments Fin {A} s a.
Arguments Await {A} s c k.

Definition M (A : Type) : Type := State -> Res A.

Definition stateOf {A} (r : Res A) : State :=
  match r with
  | Fin s _ => s
  | Await s _ _ => s
  end.

Definition ret {A} (a : A) : M A := fun s => Fin s a.

Fixpoint bindR {A B} (r : Res A) (f : A -> M B) : Res B :=
  match r with
  | Fin s a => f a s
  | Await s c k => Await s c (fun rep s' => bindR (k rep s') f)
  end.

Definition bind {A B} (m : M A) (f : A -> M B) : M B :=
  fun s => bindR (m s) f.

Definition await (c : NetCall) : M Reply :=
  fun s => Await s c (fun rep s' => Fin s' rep).

Definition gets {A} (f : State -> A) : M A := fun s => Fin s (f s).
Definition modify (f : State -> State) : M unit := fun s => Fin (f s) tt.

(** A JavaScript exception is its [message]. *)
Definition Exn : Type := string.

(** Code that may throw: the exception is a value, so [try]/[catch] is a
    [match] and [finally] is a step that follows both outcomes. *)
Definition MX (A : Type) : Type := M (Exn + A).

Definition throw {A} (e : Exn) : MX A := ret (inl e).
Definition retX {A} (a : A) : MX A := ret (inr a).
Definition bindX {A B} (m : MX A) (f : A -> MX B) : MX B :=
  bind m (fun r => match r with inl e => ret (inl e) | inr a => f a end).
Definition liftX {A} (m : M A) : MX A := bind m (fun a => ret (inr a)).
Definition tryFinally {A} (body : MX A) (fin : M unit) : MX A :=
  bind body (fun r => bind fin (fun _ => ret r)).

Declare Scope bot_scope.
Delimit Scope bot_scope with bot.
Notation "x <- m ;; k" := (bind m (fun x => k))
  (at level 20, m at level 99, k at level 200, only parsing) : bot_scope.
Notation "x <-? m ;; k" := (bindX m (fun x => k))
  (at level 20, m at level 99, k at level 200, only parsing) : bot_scope.
Local Open Scope bot_scope.

(** An awaited operation as code that may throw. *)
Definition call (c : NetCall) : MX Z :=
  rep <- await c ;;
  match rep with
  | Ok v => retX v
  | Err msg => throw msg
  end.

(** The [TypeError] of a property read on [undefined]. *)
Definition typeError (prop : string) : Exn :=
  "Cannot read properties of undefined (reading '" ++ prop ++ "')".

(** ** The bot *)

Section Bot.

(** Configuration, fixed when the process starts: the number of entries of
    [WS_RPC_URLS] (the length of [multiProvider.providers]), the [DEBUG]
    flag, and whether both [TELEGRAM_BOT_TOKEN] and [TELEGRAM_CHAT_ID] are
    set (the two are optional, line 21 does not ask for them). *)
Variable RPC_COUNT : nat.
Variable DEBUG : bool.
Variable TELEGRAM : bool.

(** *** Logging and metrics on the global state *)

Definition log (line : LogLine) (s : State) : State :=
  set_metrics (heartbeat (clock s))
    (set_output (fun o => (o ++ [(clock s, line)])%list) s).

Definition debugLog (line : LogLine) (s : State) : State :=
  if DEBUG then log line s else s.

(** A call of [updateMetrics] on the global [metrics]. *)
Definition recordMetric (type : string) (success : bool) (s : State) : State :=
  set_metrics (updateMetrics type success (clock s)) s.

(** [telegramNotify(message)] (lines 100-111): without the bot token or
    the chat id it returns at once and no request is made (line 101);
    otherwise it posts the message, catches its own failures (lines
    102-110) and never throws. *)
Definition telegramNotify (text : Notification) : M unit :=
  if TELEGRAM then
    rep <- await (TelegramNotify text) ;;
    match rep with
    | Ok _ => ret tt
    | Err msg => modify (debugLog (L_TelegramFailed msg))
    end
  else ret tt.

(** *** MultiRpcProvider *)

Definition lat_min (a b : Latency) : Latency :=
  match a, b with
  | Millis x, Millis y => Millis (Z.min x y)
  | Millis x, Infinity => Millis x
  | Infinity, _ => b
  end.

(** [Math.min(...latencies)]; [Math.min()] of nothing is [Infinity]. *)
Definition mathMin (l : list Latency) : Latency :=
  fold_right lat_min Infinity l.

Definition lat_eqb (a b : Latency) : bool :=
  match a, b with
  | Millis x, Millis y => x =? y
  | Infinity, Infinity => true
  | _, _ => false
  end.

(** [latencies.indexOf(x)], counting from [i]; [-1] when absent. *)
Fixpoint indexOfFrom (l : list Latency) (x : Latency) (i : Z) : Z :=
  match l with
  | [] => -1
  | y :: r => if lat_eqb y x then i else indexOfFrom r x (i + 1)
  end.

Definition indexOf (l : list Latency) (x : Latency) : Z := indexOfFrom l x 0.

(** [arr[i]] for a JavaScript index [i]. *)
Definition at_index {A} (l : list A) (i : Z) : option A :=
  if 0 <=? i then l !! Z.to_nat i else None.

(** [selectBestProvider()] (lines 183-192).  The boolean tells whether
    ['providerChanged'] was emitted. *)
Definition selectBestProvider (s : State) : State * bool :=
  let minLatency := mathMin (latencies (multiProvider s)) in
  match minLatency with
  | Infinity => (log L_AllRpcsUnavailable s, false)
  | Millis _ =>
      let s1 := set_multiProvider
                  (fun p => mkPool (latencies p) (indexOf (latencies p) minLatency)) s in
      let i := currentIndex (multiProvider s1) in
      (debugLog (L_SelectedRpc i (at_index (latencies (multiProvider s1)) i)) s1, true)
  end.

(** [multiProvider.currentProvider]: [providers[currentIndex]], which is
    [undefined] outside the array. *)
Definition currentProvider (s : State) : option nat :=
  let i := currentIndex (multiProvider s) in
  if ((0 <=? i) && (i <? Z.of_nat RPC_COUNT))%bool then Some (Z.to_nat i) else None.

(** [callWithFallback(fn)] (lines 218-228).  [remaining] is
    [providers.length - i]; when the loop ends without returning the
    function returns [undefined] ([None]). *)
Fixpoint callWithFallbackFrom {A} (fn : nat -> MX A) (i remaining : nat)
    : MX (option A) :=
  match remaining with
  | O => retX None
  | S rem =>
      r <- fn i ;;
      match r with
      | inr v => retX (Some v)
      | inl err =>
          _ <- modify (debugLog (L_RpcCallFailed i err)) ;;
          _ <- modify (recordMetric "rpc_failure" true) ;;
          if Z.of_nat i =? Z.of_nat RPC_COUNT - 1 then throw err
          else callWithFallbackFrom fn (S i) rem
      end
  end.

Definition callWithFallback {A} (fn : nat -> MX A) : MX (option A) :=
  callWithFallbackFrom fn 0 RPC_COUNT.

(** *** TxQueue.initNonce *)

Definition initNonce : MX unit :=
  n <-? call GetTransactionCount ;;
  liftX (modify (fun s => debugLog (L_InitializedNonce n)
                            (set_txQueue (set_nonce (Some n)) s))).

(** *** resetProcessingLocks and the contract tables *)

(** The loop of lines 361-366 over the entries of [tokenProcessing]. *)
Definition resetEntry (address : string) (held : bool)
    (acc : gmap string bool * nat) : gmap string bool * nat :=
  if held then (<[address := false]> (fst acc), S (snd acc)) else acc.

Definition resetProcessingLocks (s : State) : State :=
  let '(locks, resetCount) :=
    map_fold resetEntry (tokenProcessing s, O) (tokenProcessing s) in
  let s1 := set_tokenProcessing (fun _ => locks) s in
  if Nat.ltb 0 resetCount then
    recordMetric "lock_reset" true (log (L_ResetLocks resetCount) s1)
  else s1.

(** [cleanupContracts()] (lines 258-265). *)
Definition cleanupContracts (s : State) : State :=
  debugLog L_CleanedUp
    (set_tokenProcessing (fun _ => ∅) (set_tokenContracts (fun _ => ∅) s)).

(** One turn of the loop of [setupContracts] (lines 277-279). *)
Definition setupToken (address : string) (info : TokenInfo) (s : State) : State :=
  set_tokenProcessing (insert (toLowerCase address) false)
    (set_tokenContracts (insert (toLowerCase address) info) s).

(** *** transferWithRetry *)

Definition maxRetries : nat := 5.

(** [x.mul(num).div(100)] on big numbers; [div] truncates. *)
Definition mulDiv (x num : Z) : Z := Z.quot (x * num) 100.

(** [nonce++] on a variable holding a number or [null] ([null] counts as 0). *)
Definition increment (n : option Z) : option Z :=
  Some (match n with Some v => v + 1 | None => 1 end).

(** [!txQueue.nonce] *)
Definition noNonce (n : option Z) : bool :=
  match n with
  | None => true
  | Some v => v =? 0
  end.

(** Lines 399-409: the balance through the wallet's contract, else through
    every provider in turn.  ([ethers.utils.formatUnits], used to build
    the log lines, is taken not to throw.) *)
Definition readBalance (addr sym : string) : MX (option Z) :=
  r <- call (BalanceOf ViaWallet addr) ;;
  match r with
  | inr bal => _ <- modify (debugLog (L_Balance sym bal)) ;; retX (Some bal)
  | inl _ => callWithFallback (fun p => call (BalanceOf (ViaProvider p) addr))
  end.

(** Lines 429-435: the value assigned to [gasPrice]. *)
Definition fetchGasPrice : MX (option Z) :=
  cur <- gets currentProvider ;;
  r <- match cur with
       | Some p => call (GetGasPrice p)
       | None => throw (typeError "getGasPrice")
       end ;;
  match r with
  | inr g => retX (Some g)
  | inl _ => callWithFallback (fun p => call (GetGasPrice p))
  end.

(** Lines 438-469: estimate, build, sign, send, wait for one
    confirmation.  Returns the transaction that was confirmed and its hash. *)
Definition buildAndSend (addr sym : string) (currentBalance gasPrice : Z)
    (nonce : option Z) : MX (Tx * Z) :=
  e <- call (EstimateGas ViaWallet addr currentBalance gasPrice nonce) ;;
  gasEstimate <-? match e with
                  | inr v => retX (Some v)
                  | inl _ => callWithFallback (fun p =>
                      call (EstimateGas (ViaProvider p) addr currentBalance gasPrice nonce))
                  end ;;
  _ <-? call (PopulateTransaction addr currentBalance) ;;
  match gasEstimate with
  | None => throw (typeError "mul")
  | Some ge =>
      chain <- gets CHAIN_ID ;;
      let unsignedTx := mkTx addr currentBalance (mulDiv ge 120) gasPrice nonce chain in
      _ <-? call (SignTransaction unsignedTx) ;;
      cur <- gets currentProvider ;;
      sent <- match cur with
              | Some p => call (SendTransaction p unsignedTx)
              | None => throw (typeError "sendTransaction")
              end ;;
      txResponse <-? match sent with
                     | inr h => retX (Some h)
                     | inl _ => callWithFallback (fun p => call (SendTransaction p unsignedTx))
                     end ;;
      match txResponse with
      | None => throw (typeError "hash")
      | Some hash =>
          _ <- modify (log (L_TxSent sym hash gasPrice)) ;;
          _ <-? call (WaitConfirmation hash) ;;
          retX (unsignedTx, hash)
      end
  end.

(** Lines 428-469, the [try] block up to the confirmation.  [gasPrice] is
    declared outside the loop, so the function also returns what the
    variable holds when the block is left, normally or by an exception. *)
Definition submitOnce (addr sym : string) (currentBalance : Z)
    (gasPrice nonce : option Z) : M (option Z * (Exn + Tx * Z)) :=
  g <- fetchGasPrice ;;
  match g with
  | inl err => ret (gasPrice, inl err)
  | inr None => ret (None, inl (typeError "mul"))
  | inr (Some estimate) =>
      let gasPrice := mulDiv estimate 120 in
      r <- buildAndSend addr sym currentBalance gasPrice nonce ;;
      ret (Some gasPrice, r)
  end.

(** Lines 471-479: the rest of the [try] block. *)
Definition onConfirmed (info : TokenInfo) (currentBalance hash : Z)
    (nonce : option Z) : MX bool :=
  _ <- modify (log (L_Confirmed (symbol info) hash)) ;;
  _ <- modify (set_txQueue (set_nonce (increment nonce))) ;;
  _ <- modify (recordMetric "transaction" true) ;;
  _ <- telegramNotify (N_Transferred (symbol info) currentBalance (decimals info) hash) ;;
  retX true.

(** What the [catch] block decides: go round the loop again with these
    values of [gasPrice] and [nonce], or return. *)
Inductive LoopCtl : Type :=
| Continue (gasPrice nonce : option Z)
| Stop (result : bool).

(** Lines 495-499. *)
Definition bumpAndDelay (attempt : nat) (gasPrice nonce : option Z) : MX LoopCtl :=
  match gasPrice with
  | None => throw (typeError "mul")
  | Some g =>
      _ <- modify (set_txQueue (set_nonce (increment nonce))) ;;
      _ <- await (Delay (2 ^ Z.of_nat attempt * 1000)) ;;
      retX (Continue (Some (mulDiv g 110)) (increment nonce))
  end.

(** Lines 480-500, the [catch] block. *)
Definition onAttemptError (sym : string) (attempt : nat) (err : Exn)
    (gasPrice nonce : option Z) : MX LoopCtl :=
  _ <- modify (debugLog (L_AttemptFailed sym attempt err)) ;;
  if includes err "nonce too low" then
    n <-? call GetTransactionCount ;;
    _ <- modify (set_txQueue (set_nonce (Some n))) ;;
    bumpAndDelay attempt gasPrice (Some n)
  else if includes err "replacement transaction underpriced" then
    match gasPrice with
    | None => throw (typeError "mul")
    | Some g => bumpAndDelay attempt (Some (mulDiv g 110)) nonce
    end
  else if includes err "insufficient funds" then
    _ <- modify (log L_InsufficientFunds) ;;
    _ <- telegramNotify N_InsufficientFunds ;;
    _ <- modify (recordMetric "transaction" false) ;;
    retX (Stop false)
  else bumpAndDelay attempt gasPrice nonce.

(** Lines 503-511, after the loop. *)
Definition afterRetries (sym : string) : MX bool :=
  _ <- modify (log (L_FailedAfter sym maxRetries)) ;;
  _ <- modify (recordMetric "transaction" false) ;;
  failures <- gets (fun s => consecutiveFailures (metrics s)) ;;
  _ <- (if 5 <=? failures then telegramNotify (N_Alert failures) else ret tt) ;;
  _ <- telegramNotify (N_Failed sym maxRetries) ;;
  retX false.

(** Lines 425-511.  [remaining] is [maxRetries - attempt] at the loop
    test, so the attempt that starts is number [maxRetries - rem]. *)
Fixpoint retryLoop (remaining : nat) (addr : string) (info : TokenInfo)
    (currentBalance : Z) (gasPrice nonce : option Z) : MX bool :=
  match remaining with
  | O => afterRetries (symbol info)
  | S rem =>
      let attempt := (maxRetries - rem)%nat in
      tried <- submitOnce addr (symbol info) currentBalance gasPrice nonce ;;
      match snd tried with
      | inr (_, hash) => onConfirmed info currentBalance hash nonce
      | inl err =>
          ctl <-? onAttemptError (symbol info) attempt err (fst tried) nonce ;;
          match ctl with
          | Stop result => retX result
          | Continue gasPrice' nonce' =>
              retryLoop rem addr info currentBalance gasPrice' nonce'
          end
      end
  end.

(** Lines 391-511, the body of the [try]. [None] is a plain [return;]. *)
Definition transferBody (addr : string) : MX (option bool) :=
  tokenInfo <- gets (fun s => tokenContracts s !! addr) ;;
  match tokenInfo with
  | None => _ <- modify (log (L_TokenNotFound addr)) ;; retX None
  | Some info =>
      balance <-? readBalance addr (symbol info) ;;
      match balance with
      | None => throw (typeError "lte")
      | Some currentBalance =>
          if currentBalance <=? 0 then
            _ <- modify (debugLog (L_NoBalance (symbol info))) ;; retX None
          else
            stored <- gets (fun s => nonce (txQueue s)) ;;
            _ <-? (if noNonce stored then initNonce else retX tt) ;;
            nonce <- gets (fun s => nonce (txQueue s)) ;;
            result <-? retryLoop maxRetries addr info currentBalance None nonce ;;
            retX (Some result)
      end
  end.

(** The [finally] block, lines 513-516. *)
Definition unlock (addr : string) : M unit :=
  modify (fun s => debugLog (L_Unlocked addr)
                     (set_tokenProcessing (insert addr false) s)).

(** [transferWithRetry(tokenAddress)] (lines 380-517). *)
Definition transferWithRetry (tokenAddress : string) : MX (option bool) :=
  let addr := toLowerCase tokenAddress in
  held <- gets (fun s => isProcessing s addr) ;;
  if held then
    _ <- modify (debugLog (L_AlreadyProcessing addr)) ;; retX None
  else
    _ <- modify (set_tokenProcessing (insert addr true)) ;;
    tryFinally (transferBody addr) (unlock addr).

(** *** TxQueue.process, TxQueue.enqueue, enqueueTransfer *)

(** A running call of [TxQueue.process]: it is inside
    [transferWithRetry(job)], suspended at an awaited operation, or that
    call has settled and [process] waits to be resumed after its
    [await transferWithRetry(...)] (line 333). *)
Inductive Worker : Type :=
| Suspended (job : string) (c : NetCall) (k : Reply -> State -> Res (Exn + option bool))
| Settled (job : string) (result : Exn + option bool).

Definition jobOf (w : Worker) : string :=
  match w with
  | Suspended job _ _ => job
  | Settled job _ => job
  end.

Definition toWorker (job : string) (r : Res (Exn + option bool)) : Worker :=
  match r with
  | Fin _ a => Settled job a
  | Await _ c k => Suspended job c k
  end.

(** The loop test of line 331 and, when a job is left, lines 332-333 up to
    the first suspension; lines 336-337 when the queue is empty. *)
Definition processNext (s : State) : State * option Worker :=
  match queue (txQueue s) with
  | [] => (debugLog L_QueueFinished (set_txQueue (set_processing false) s), None)
  | job :: rest =>
      let r := transferWithRetry job (set_txQueue (set_queue rest) s) in
      (stateOf r, Some (toWorker job r))
  end.

(** [process()] from its first line (lines 327-333). *)
Definition process (s : State) : State * option Worker :=
  processNext
    (debugLog (L_Processing (length (queue (txQueue s))))
       (set_txQueue (set_processing true) s)).

(** [enqueue(job)] (lines 319-325): the result carries the call of
    [process] it started, if any. *)
Definition enqueue (job : string) (s : State) : State * option Worker :=
  let s1 := set_txQueue (fun t => set_queue (queue t ++ [job])%list t) s in
  let s2 := debugLog (L_Enqueued job (length (queue (txQueue s1)))) s1 in
  if processing (txQueue s2) then (s2, None) else process s2.

(** [enqueueTransfer(tokenAddress)] (lines 343-353). *)
Definition enqueueTransfer (tokenAddress : string) (s : State) : State * option Worker :=
  let addr := toLowerCase tokenAddress in
  if isProcessing s addr then (debugLog (L_AlreadyProcessing addr) s, None)
  else enqueue addr s.

(** ** The event loop *)

(** What can happen in one turn of the event loop.  Besides the replies
    to the worker, these are the pieces of the other handlers of
    [bot.js] that write the globals modelled here, each as a turn of its
    own.  A handler that does several of them in one go (the
    ['providerChanged'] listener of lines 645-650 runs
    [cleanupContracts] in the turn of the [selectBestProvider] that
    emitted the event, then sets up the tokens, then resets the nonce) is
    a sequence of these events, so the runs of the program are among the
    runs of this model. *)
Inductive Event : Type :=
| E_Transfer (tokenAddress : string)
    (* a Transfer listener (line 296) or the poll (line 542) calls enqueueTransfer *)
| E_ResetLocks
    (* the timer of line 374, or GET /reset-locks *)
| E_Cleanup
    (* cleanupContracts, from setupContracts or a shutdown signal *)
| E_SetupToken (address : string) (info : TokenInfo)
    (* one turn of the loop of setupContracts *)
| E_SetNonce (n : option Z)
    (* initNonce at startup; txQueue.nonce = null after a provider change *)
| E_ChainId (id : Z)
    (* CHAIN_ID cached by setupContracts *)
| E_Measured (index : nat) (l : Latency)
    (* measureLatency stores its result; the index is one of the array's *)
| E_SelectBest
    (* selectBestProvider, from the health check or a websocket event *)
| E_Metric (type : string)
    (* updateMetrics from the provider code *)
| E_Clock (now : Z)
    (* time passes *)
| E_Log (line : LogLine)
    (* another handler writes a line: the heartbeat, the poll, a listener *)
| E_Reply (i : nat) (rep : Reply)
    (* the operation awaited by worker i settles *)
| E_Resume (i : nat).
    (* process() number i continues after its await transferWithRetry *)

Record Sys := mkSys {
  glob : State;
  workers : list Worker
}.

(** The workers after a turn that may have started a call of [process]. *)
Definition spawn (ws : list Worker) (started : option Worker) : list Worker :=
  match started with
  | Some w => (ws ++ [w])%list
  | None => ws
  end.

(** One turn.  The second component is the job taken from the queue in
    this turn, if any. *)
Definition sys_step (e : Event) (σ : Sys) : Sys * option string :=
  match e with
  | E_Transfer a =>
      let '(s, started) := enqueueTransfer a (glob σ) in
      (mkSys s (spawn (workers σ) started), jobOf <$> started)
  | E_ResetLocks => (mkSys (resetProcessingLocks (glob σ)) (workers σ), None)
  | E_Cleanup => (mkSys (cleanupContracts (glob σ)) (workers σ), None)
  | E_SetupToken a info => (mkSys (setupToken a info (glob σ)) (workers σ), None)
  | E_SetNonce n => (mkSys (set_txQueue (set_nonce n) (glob σ)) (workers σ), None)
  | E_ChainId id =>
      (mkSys (mkState (metrics (glob σ)) (tokenContracts (glob σ))
                (tokenProcessing (glob σ)) (txQueue (glob σ)) (multiProvider (glob σ))
                (Some id) (clock (glob σ)) (output (glob σ)))
             (workers σ), None)
  | E_Measured i l =>
      (mkSys (set_multiProvider
                (fun p => mkPool (<[i := l]> (latencies p)) (currentIndex p)) (glob σ))
             (workers σ), None)
  | E_SelectBest => (mkSys (fst (selectBestProvider (glob σ))) (workers σ), None)
  | E_Metric type => (mkSys (recordMetric type true (glob σ)) (workers σ), None)
  | E_Clock now => (mkSys (set_clock now (glob σ)) (workers σ), None)
  | E_Log line => (mkSys (log line (glob σ)) (workers σ), None)
  | E_Reply i rep =>
      match workers σ !! i with
      | Some (Suspended job c k) =>
          let r := k rep (glob σ) in
          (mkSys (stateOf r) (<[i := toWorker job r]> (workers σ)), None)
      | _ => (σ, None)
      end
  | E_Resume i =>
      match workers σ !! i with
      | Some (Settled job (inr _)) =>
          let '(s, next) := processNext (glob σ) in
          (mkSys s
             match next with
             | Some w => <[i := w]> (workers σ)
             | None => delete i (workers σ)
             end,
           jobOf <$> next)
      | Some (Settled job (inl _)) =>
          (* the promise of process() is rejected; line 336 is never reached *)
          (mkSys (glob σ) (delete i (workers σ)), None)
      | _ => (σ, None)
      end
  end.

(** The jobs that a turn adds to the queue: a call of [enqueueTransfer]
    that finds the asset's lock free. *)
Definition accepted (e : Event) (σ : Sys) : list string :=
  match e with
  | E_Transfer a =>
      if isProcessing (glob σ) (toLowerCase a) then [] else [toLowerCase a]
  | _ => []
  end.

(** A run of the event loop with its history: the jobs added to the queue
    and the jobs taken from it, both in order. *)
Record History := mkHistory {
  now_sys : Sys;
  enqueued : list string;
  dequeued : list string
}.

Definition turn (h : History) (e : Event) : History :=
  let '(σ', taken) := sys_step e (now_sys h) in
  mkHistory σ'
    (enqueued h ++ accepted e (now_sys h))%list
    (dequeued h ++ match taken with Some j => [j] | None => [] end)%list.

Definition play (events : list Event) (h : History) : History :=
  fold_left turn events h.

(** The state of the module when it is loaded. *)
Definition state0 (now : Z) : State :=
  {| metrics := metrics0 now;
     tokenContracts := ∅;
     tokenProcessing := ∅;
     txQueue := mkTxQueue [] false None;
     multiProvider := mkPool (replicate RPC_COUNT Infinity) 0;
     CHAIN_ID := None;
     clock := now;
     output := [] |}.

Definition sys0 (now : Z) : Sys := mkSys (state0 now) [].
Definition history0 (now : Z) : History := mkHistory (sys0 now) [] [].

Definition exec (events : list Event) (now : Z) : Sys :=
  now_sys (play events (history0 now)).

(** A worker is in the Submit state when the operation it awaits is
    [sendTransaction]. *)
Definition submitting (w : Worker) : bool :=
  match w with
  | Suspended _ (SendTransaction _ _) _ => true
  | _ => false
  end.

(** A worker is inside [transferWithRetry]. *)
Definition inFlight (w : Worker) : bool :=
  match w with
  | Suspended _ _ _ => true
  | Settled _ _ => false
  end.

(** ** Running a computation alone *)

(** The outside world as a script: the reply to the [t]-th awaited
    operation of a run.  [run] feeds the replies with no other handler in
    between, and returns the final state, the result and the operations
    awaited, in order. *)
Definition Oracle : Type := nat -> NetCall -> Reply.

Fixpoint run {A} (r : Res A) (ω : Oracle) (t : nat) : State * A * list NetCall :=
  match r with
  | Fin s a => (s, a, [])
  | Await s c k =>
      let '(s', a, calls) := run (k (ω t c) s) ω (S t) in
      (s', a, c :: calls)
  end.

(** The transactions handed to [wallet.signTransaction] (line 455), one
    for each attempt that got as far as signing, in order. *)
Definition signedTx (calls : list NetCall) : list Tx :=
  omap (fun c => match c with
                 | SignTransaction tx => Some tx
                 | _ => None
                 end) calls.

(** The order of [Math.min] on latencies. *)
Definition lat_le (a b : Latency) : Prop :=
  match a, b with
  | Millis x, Millis y => x <= y
  | _, Infinity => True
  | Infinity, Millis _ => False
  end.

(** ** Guarantees of a computation under interference *)

(** [Spans G Q s0 r]: [r] is what a piece of code gave when started in
    [s0]; every segment between two suspensions changes the state within
    [G], whatever the replies and whatever the state at each resumption,
    and when the code finishes [Q] holds of the final state and result. *)
Inductive Spans {A} (G : State -> State -> Prop) (Q : State -> A -> Prop)
    : State -> Res A -> Prop :=
| Spans_Fin s0 s a : G s0 s -> Q s a -> Spans G Q s0 (Fin s a)
| Spans_Await s0 s c k :
    G s0 s ->
    (forall rep s', Spans G Q s' (k rep s')) ->
    Spans G Q s0 (Await s c k).

(** What a call of [transferWithRetry] on [addr] may change in one
    segment: not the queue, not the [processing] flag, and no lock but
    that of [addr]. *)
Definition jobFrame (addr : string) (s s' : State) : Prop :=
  queue (txQueue s') = queue (txQueue s) /\
  processing (txQueue s') = processing (txQueue s) /\
  forall b, b <> addr -> tokenProcessing s' !! b = tokenProcessing s !! b.

(** How the [catch] block of the retry loop files an error message. *)
Inductive ErrorClass : Type :=
| NonceTooLow
| Underpriced
| InsufficientFunds
| OtherError.

Definition classify (message : string) : ErrorClass :=
  if includes message "nonce too low" then NonceTooLow
  else if includes message "replacement transaction underpriced" then Underpriced
  else if includes message "insufficient funds" then InsufficientFunds
  else OtherError.

(** [FailedOn fn ω i j s t s' t' calls]: starting in state [s] at
    time [t], [fn] was run on the endpoints [i], [i+1], ..., [j-1] in
    turn and threw on each of them; [s'] and [t'] are the state and time
    after the last of these failures was recorded, [calls] the
    operations awaited meanwhile. *)
Inductive FailedOn {A} (fn : nat -> MX A) (ω : Oracle)
    : nat -> nat -> State -> nat -> State -> nat -> list NetCall -> Prop :=
| FailedOn_nil i s t : FailedOn fn ω i i s t s t []
| FailedOn_cons i j s t s1 err c1 s' t' cs :
    run (fn i s) ω t = (s1, inl err, c1) ->
    FailedOn fn ω (S i) j
      (recordMetric "rpc_failure" true (debugLog (L_RpcCallFailed i err) s1))
      (t + length c1)%nat s' t' cs ->
    FailedOn fn ω i j s t s' t' (c1 ++ cs)%list.

(** Code all of whose segments stay within [G], from any state. *)
Definition Respects {A} (G : State -> State -> Prop) (m : M A) : Prop :=
  forall s, Spans G (fun _ _ => True) s (m s).

(** The number of locks that are held. *)
Definition heldCount (locks : gmap string bool) : nat :=
  size (filter (fun kv => kv.2 = true) locks).

(** The rest of a call of [transferWithRetry] once the loop test of line
    425 is reached with [remaining] attempts left: the loop, what follows
    it, the [finally] block. *)
Definition fromLoop (remaining : nat) (addr : string) (info : TokenInfo)
    (currentBalance : Z) (gasPrice nonce : option Z) : MX (option bool) :=
  tryFinally
    (result <-? retryLoop remaining addr info currentBalance gasPrice nonce ;;
     retX (Some result))
    (unlock addr).




(** The workers the event loop may hold: a suspended call of
    [transferWithRetry(job)] keeps within [jobFrame] and ends with the
    lock of its asset released. *)
Definition workerOk (w : Worker) : Prop :=
  match w with
  | Suspended job c k =>
      forall rep s',
        Spans (jobFrame (toLowerCase job))
              (fun s _ => tokenProcessing s !! toLowerCase job = Some false)
              s' (k rep s')
  | Settled _ _ => True
  end.

(** The invariant of the event loop. *)
Record sysInv (σ : Sys) : Prop := mkSysInv {
  inv_single : (length (workers σ) <= 1)%nat;
  inv_processing : workers σ <> [] -> processing (txQueue (glob σ)) = true;
  inv_idle : processing (txQueue (glob σ)) = false -> queue (txQueue (glob σ)) = [];
  inv_workers : Forall workerOk (workers σ);
  inv_locks : forall a, isProcessing (glob σ) a = true ->
                exists job c k, workers σ = [Suspended job c k] /\ a = toLowerCase job
}.

(** The queue is first in, first out: what was added is what was taken,
    followed by what still waits. *)
Definition fifo (h : History) : Prop :=
  enqueued h = (dequeued h ++ queue (txQueue (glob (now_sys h))))%list.

(** The four transaction counters of [metrics]. *)
Definition txCounters (m : Metrics) : Z * Z * Z * Z :=
  (totalTransactions m, successfulTx m, failedTx m, consecutiveFailures m).

(** Code whose result satisfies [Q] however it is resumed. *)
Definition Returns {A} (Q : A -> Prop) (m : M A) : Prop :=
  forall s, Spans (fun _ _ => True) (fun _ a => Q a) s (m s).

(** The state after [telegramNotify] was resumed with [rep]. *)
Definition notified (rep : Reply) (s : State) : State :=
  match rep with
  | Ok _ => s
  | Err msg => debugLog (L_TelegramFailed msg) s
  end.

(** The requests made by calls of [telegramNotify] with these texts: one
    each when the bot token and the chat id are set, none otherwise. *)
Definition notifications (texts : list Notification) : list NetCall :=
  if TELEGRAM then map TelegramNotify texts else [].

(** The state after a call of [telegramNotify text] made at time [t]. *)
Definition afterNotify (ω : Oracle) (t : nat) (text : Notification) (s : State) : State :=
  if TELEGRAM then notified (ω t (TelegramNotify text)) s else s.

(** A segment that leaves the four transaction counters as they are. *)
Definition countersKept (s s' : State) : Prop :=
  txCounters (metrics s') = txCounters (metrics s).

(** ** Inputs for the examples *)

Definition usdc : TokenInfo := mkTokenInfo 6 "USDC".
Definition dai : TokenInfo := mkTokenInfo 18 "DAI".

(** Two registered assets, two endpoints with the first one selected, the
    given [txQueue.nonce], no lock held, an idle queue. *)
Definition exampleState (n : option Z) : State :=
  {| metrics := metrics0 1000;
     tokenContracts := <["0xaa" := usdc]> (<["0xbb" := dai]> ∅);
     tokenProcessing := <["0xaa" := false]> (<["0xbb" := false]> ∅);
     txQueue := mkTxQueue [] false n;
     multiProvider := mkPool [Millis 45; Millis 120] 0;
     CHAIN_ID := Some 59144;
     clock := 1000;
     output := [] |}.

(** The same with the lock of "0xaa" held. *)
Definition exampleLocked : State :=
  set_tokenProcessing (insert "0xaa" true) (exampleState (Some 7)).

(** A chain that answers every read, and accepts every transaction sent
    at or after time [from]; earlier sends time out.  The balance is
    1000, the gas price 1000, the gas estimate 50000. *)
Definition sendsFailBefore (from : nat) : Oracle := fun t c =>
  match c with
  | BalanceOf _ _ => Ok 1000
  | GetGasPrice _ => Ok 1000
  | EstimateGas _ _ _ _ _ => Ok 50000
  | SendTransaction _ _ => if Nat.ltb t from then Err "timeout" else Ok 777
  | _ => Ok 0
  end.

(** The same chain, whose gas estimation times out before time [from]
    and which accepts every transaction. *)
Definition estimatesFailBefore (from : nat) : Oracle := fun t c =>
  match c with
  | BalanceOf _ _ => Ok 1000
  | GetGasPrice _ => Ok 1000
  | EstimateGas _ _ _ _ _ => if Nat.ltb t from then Err "timeout" else Ok 50000
  | SendTransaction _ _ => Ok 777
  | _ => Ok 0
  end.

(** A chain that rejects every transaction sent before time 8 with
    'nonce too low' and reports 20 pending transactions. *)
Definition nonceTooLowOnce : Oracle := fun t c =>
  match c with
  | BalanceOf _ _ => Ok 1000
  | GetGasPrice _ => Ok 1000
  | EstimateGas _ _ _ _ _ => Ok 50000
  | SendTransaction _ _ => if Nat.ltb t 8 then Err "nonce too low" else Ok 777
  | GetTransactionCount => Ok 20
  | _ => Ok 0
  end.


(** A pool whose first endpoint is down. *)
Definition firstEndpointDown : Oracle := fun t c =>
  match c with
  | GetGasPrice O => Err "socket hang up"
  | _ => Ok 5
  end.

(** A pool whose endpoints are all down. *)
Definition allEndpointsDown : Oracle := fun t c => Err "socket hang up".

(** Both assets are set up, then a transfer to "0xbb" is seen: its job
    starts and is suspended at its balance read. *)
Definition busyWithOther : list Event :=
  [E_SetupToken "0xAA" usdc; E_SetupToken "0xBB" dai; E_SetNonce (Some 7);
   E_Transfer "0xBB"].

(** ** Histories of updateMetrics calls *)

(** The number of calls of a history that carry the given [type]. *)
Definition countOf (type : string) (calls : list (string * bool * Z)) : nat :=
  length (List.filter (fun c => String.eqb c.1.1 type) calls).

(** The ['transaction'] calls of a history, oldest first. *)
Definition transactionsOf (calls : list (string * bool * Z)) : list (string * bool * Z) :=
  List.filter (fun c => String.eqb c.1.1 "transaction") calls.

(** Their [success] flags. *)
Definition outcomes (calls : list (string * bool * Z)) : list bool :=
  map (fun c => c.1.2) (transactionsOf calls).

Fixpoint leadingFailures (l : list bool) : nat :=
  match l with
  | false :: r => S (leadingFailures r)
  | _ => O
  end.

(** The number of failures since the last success. *)
Definition trailingFailures (l : list bool) : nat := leadingFailures (rev l).

(** ** The health endpoint and the heartbeat (lines 564-636) *)

(** The [status] field of [GET /health] (line 570). *)
Definition healthStatus (m : Metrics) : string :=
  if consecutiveFailures m <? 5 then "healthy" else "unhealthy".

(** [Array.from(tokenProcessing.entries()).filter(([_, v]) => v)] (lines
    592 and 628).  A JavaScript [Map] lists its entries in insertion
    order, the finite map in key order: only what does not depend on the
    order is stated of this list. *)
Definition heldEntries (s : State) : list (string * bool) :=
  List.filter (fun kv => kv.2) (map_to_list (tokenProcessing s)).

(** The [processing.locks] field of [GET /health] (line 592). *)
Definition healthLocks (s : State) : list string := map fst (heldEntries s).

(** [activeLocks] of the heartbeat (line 628). *)
Definition activeLocks (s : State) : nat := length (heldEntries s).

(** ** setupContracts and the provider listeners *)

(** The loop of [setupContracts] (lines 276-299) on the two tables: the
    two [set] calls of lines 278-279 for each entry of [tokens.json], an
    address with its decimals and symbol.  (The rest of the loop body
    fills the transfer data cache and installs the listener; it writes
    neither table.) *)
Definition registerTokens (tokens : list (string * TokenInfo)) (s : State) : State :=
  fold_left (fun acc t => setupToken t.1 t.2 acc) tokens s.

(** The ['providerChanged'] listener (lines 645-650) up to its first
    suspension: it writes its line, binds a new wallet and calls
    [setupContracts], which calls [cleanupContracts]; the body of
    [cleanupContracts] awaits nothing, so it has run in full when the
    listener is suspended at [await cleanupContracts()]. *)
Definition onProviderChanged (s : State) : State :=
  cleanupContracts (debugLog L_ProviderSwitched s).

(** [selectBestProvider()] together with the listener that [emit] (line
    191) runs before it returns. *)
Definition selectAndEmit (s : State) : State :=
  let '(s1, emitted) := selectBestProvider s in
  if emitted then onProviderChanged s1 else s1.

(** ** A queue whose worker has gone *)

(** [process()] has ended by an exception: no call of it is running, and
    the [processing] flag it set on entry (line 328) is still set. *)
Definition wedged (σ : Sys) : Prop :=
  workers σ = [] /\ processing (txQueue (glob σ)) = true.

(** ** The end of a call of transferWithRetry *)

(** The state after the [finally] block (lines 513-516). *)
Definition unlocked (addr : string) (s : State) : State :=
  debugLog (L_Unlocked addr) (set_tokenProcessing (insert addr false) s).

(** ** What a job leaves alone *)

(** The most a call of [transferWithRetry] changes, outside the queue, the
    locks, [lastTxTime], [lastHeartbeat] and [consecutiveFailures]: the
    counters only grow and the log is only appended to; the provider
    pool, the contract table, the chain id and the clock are not written. *)
Record jobEffect (s s' : State) : Prop := mkJobEffect {
  eff_pool : multiProvider s' = multiProvider s;
  eff_contracts : tokenContracts s' = tokenContracts s;
  eff_chain : CHAIN_ID s' = CHAIN_ID s;
  eff_clock : clock s' = clock s;
  eff_start : startTime (metrics s') = startTime (metrics s);
  eff_reconnections : wsReconnections (metrics s') = wsReconnections (metrics s);
  eff_resets : processingLockResets (metrics s') = processingLockResets (metrics s);
  eff_total : totalTransactions (metrics s) <= totalTransactions (metrics s');
  eff_successful : successfulTx (metrics s) <= successfulTx (metrics s');
  eff_failed : failedTx (metrics s) <= failedTx (metrics s');
  eff_rpc : rpcFailures (metrics s) <= rpcFailures (metrics s');
  eff_output : output s `prefix_of` output s'
}.

(** A worker all of whose segments stay within [G]. *)
Definition workerKeeps (G : State -> State -> Prop) (w : Worker) : Prop :=
  match w with
  | Suspended _ _ k => forall rep s', Spans G (fun _ _ => True) s' (k rep s')
  | Settled _ _ => True
  end.

(** The provider selection is usable: the latency table has one entry for
    each endpoint and [currentIndex] is the index of one of them. *)
Definition poolOk (s : State) : Prop :=
  length (latencies (multiProvider s)) = RPC_COUNT /\
  0 <= currentIndex (multiProvider s) < Z.of_nat RPC_COUNT.

(** ** The operations of a computation, with their replies *)

(** [Emits r Q]: however [r] is resumed (any reply to each operation it
    awaits, any state at each resumption), the operations it awaits with
    the replies they got, in order, and its result satisfy [Q]. *)
Fixpoint Emits {A} (r : Res A) (Q : list (NetCall * Reply) -> A -> Prop) : Prop :=
  match r with
  | Fin _ a => Q [] a
  | Await _ c k => forall rep s', Emits (k rep s') (fun cs a => Q ((c, rep) :: cs) a)
  end.

(** The operations of a run with the replies of the oracle. *)
Fixpoint answered (ω : Oracle) (t : nat) (calls : list NetCall)
    : list (NetCall * Reply) :=
  match calls with
  | [] => []
  | c :: r => (c, ω t c) :: answered ω (S t) r
  end.

(** The kinds of operation. *)
Inductive Kind : Type :=
| KBalance | KGasPrice | KEstimate | KPopulate | KSign | KSend | KWait
| KCount | KNotify | KDelay.

Definition kindOf (c : NetCall) : Kind :=
  match c with
  | BalanceOf _ _ => KBalance
  | GetGasPrice _ => KGasPrice
  | EstimateGas _ _ _ _ _ => KEstimate
  | PopulateTransaction _ _ => KPopulate
  | SignTransaction _ => KSign
  | SendTransaction _ _ => KSend
  | WaitConfirmation _ => KWait
  | GetTransactionCount => KCount
  | TelegramNotify _ => KNotify
  | Delay _ => KDelay
  end.

(** The operations of a list, each weighted by its kind. *)
Fixpoint weight (u : Kind -> nat) (calls : list NetCall) : nat :=
  match calls with
  | [] => O
  | c :: r => (u (kindOf c) + weight u r)%nat
  end.

(** The weight that counts the operations of one kind. *)
Definition only (k : Kind) (k' : Kind) : nat :=
  match k, k' with
  | KBalance, KBalance | KGasPrice, KGasPrice | KEstimate, KEstimate
  | KPopulate, KPopulate | KSign, KSign | KSend, KSend | KWait, KWait
  | KCount, KCount | KNotify, KNotify | KDelay, KDelay => 1%nat
  | _, _ => O
  end.

(** The most one attempt costs (lines 428-469): a request to the selected
    endpoint and one to each endpoint of the pool for the gas price, the
    estimate and the submission; one request for the transaction data,
    the signature and the confirmation. *)
Definition attemptCost (u : Kind -> nat) : nat :=
  (u KGasPrice * S RPC_COUNT + u KEstimate * S RPC_COUNT + u KPopulate + u KSign
   + u KSend * S RPC_COUNT + u KWait)%nat.

(** The most the loop costs with [remaining] attempts left: an attempt,
    then either a notification and the end, or the [catch] block (a read
    of the pending count, a delay) and the rest of the loop; two
    notifications when the attempts are used up. *)
Fixpoint retryCost (u : Kind -> nat) (remaining : nat) : nat :=
  match remaining with
  | O => (u KNotify * 2)%nat
  | S rem =>
      (attemptCost u + Nat.max (u KNotify) (u KCount + u KDelay + retryCost u rem))%nat
  end.

(** The most a call of [transferWithRetry] costs. *)
Definition jobCost (u : Kind -> nat) : nat :=
  (u KBalance * S RPC_COUNT + u KCount + retryCost u maxRetries)%nat.

(** The delays of a list of operations, in order. *)
Definition delaysOf (calls : list NetCall) : list Z :=
  omap (fun c => match c with Delay ms => Some ms | _ => None end) calls.

(** The delays of line 499 with [remaining] attempts left, if every one
    of them fails. *)
Fixpoint backoff (remaining : nat) : list Z :=
  match remaining with
  | O => []
  | S rem => 2 ^ Z.of_nat (maxRetries - rem) * 1000 :: backoff rem
  end.

(** ** What a call signs, submits and reports *)

(** Every transaction handed to the wallet for signing moves [bal] of the
    token at [addr]. *)
Definition signsOnly (addr : string) (bal : Z) (cs : list (NetCall * Reply)) : Prop :=
  forall tx rep,
    In (SignTransaction tx, rep) cs -> tx_token tx = addr /\ tx_amount tx = bal.

(** Every transaction submitted to an endpoint is one the wallet has
    signed. *)
Definition sendsSigned (cs : list (NetCall * Reply)) : Prop :=
  forall p tx rep,
    In (SendTransaction p tx, rep) cs -> exists sig, In (SignTransaction tx, Ok sig) cs.

(** A transaction that moves [bal] of the token at [addr] was signed,
    accepted by an endpoint and confirmed. *)
Definition confirmed (addr : string) (bal : Z) (cs : list (NetCall * Reply)) : Prop :=
  exists tx sig p hash c,
    In (SignTransaction tx, Ok sig) cs /\
    In (SendTransaction p tx, Ok hash) cs /\
    In (WaitConfirmation hash, Ok c) cs /\
    tx_token tx = addr /\ tx_amount tx = bal.

(** Neither a signature nor a submission is among the operations. *)
Definition signsNothing (cs : list (NetCall * Reply)) : Prop :=
  forall x, In x cs -> kindOf x.1 <> KSign /\ kindOf x.1 <> KSend.

(** ** More inputs for the examples *)

(** A chain on which the account holds nothing. *)
Definition emptyWallet : Oracle := fun t c => Ok 0.


(** One asset is set up and a transfer to it is seen; its balance can be
    read neither through the wallet nor through the one endpoint. *)
Definition throwingJob : list Event :=
  [E_SetupToken "0xAA" usdc; E_Transfer "0xAA";
   E_Reply 0 (Err "socket hang up"); E_Reply 0 (Err "socket hang up")].

(** ** Locks kept while a job is suspended *)

(** A segment that leaves the lock table as it is. *)
Definition locksKept (s s' : State) : Prop :=
  tokenProcessing s' = tokenProcessing s.

(** [Steady G s0 r]: as [Spans], for the segments of [r] that end at a
    suspension; the segment that ends the code is not constrained. *)
Fixpoint Steady {A} (G : State -> State -> Prop) (s0 : State) (r : Res A) : Prop :=
  match r with
  | Fin _ _ => True
  | Await s c k => G s0 s /\ forall rep s', Steady G s' (k rep s')
  end.

(** The turns that clear a lock from outside the call that holds it: the
    sweep (line 363), [cleanupContracts] (line 263), a turn of the loop
    of [setupContracts] (line 279). *)
Definition clearsLocks (e : Event) : bool :=
  match e with
  | E_ResetLocks | E_Cleanup | E_SetupToken _ _ => true
  | _ => false
  end.

(** A suspended call of [transferWithRetry(job)] holds the lock of its
    asset and writes no lock before it ends. *)
Definition holdsLock (s : State) (w : Worker) : Prop :=
  match w with
  | Suspended job c k =>
      isProcessing s (toLowerCase job) = true /\
      forall rep s', Steady locksKept s' (k rep s')
  | Settled _ _ => True
  end.

(** ** The operations answered in a run of the event loop *)

(** The operation that a turn answers: the reply is delivered to a
    suspended call. *)
Definition answeredBy (e : Event) (σ : Sys) : list (NetCall * Reply) :=
  match e with
  | E_Reply i rep =>
      match workers σ !! i with
      | Some (Suspended _ c _) => [(c, rep)]
      | _ => []
      end
  | _ => []
  end.

(** The operations answered in a run, with their replies, in order. *)
Fixpoint answers (events : list Event) (σ : Sys) : list (NetCall * Reply) :=
  match events with
  | [] => []
  | e :: rest => (answeredBy e σ ++ answers rest (sys_step e σ).1)%list
  end.

(** A turn in which code outside the jobs writes a number to
    [txQueue.nonce]: in [bot.js] this is [initNonce] at startup (line
    657).  The reset to [null] after a provider change (line 649) is not
    one of them. *)
Definition writesNonce (e : Event) : bool :=
  match e with
  | E_SetNonce (Some _) => true
  | _ => false
  end.

(** ** The nonce along the operations *)

(** A read of the pending transaction count that succeeded: [initNonce]
    (line 315) or the resync after 'nonce too low' (line 484). *)
Definition countRead (x : NetCall * Reply) : bool :=
  match x with
  | (GetTransactionCount, Ok _) => true
  | _ => false
  end.

(** A confirmation that arrived (line 471). *)
Definition confirmation (x : NetCall * Reply) : bool :=
  match x with
  | (WaitConfirmation _, Ok _) => true
  | _ => false
  end.

(** The operations after which the loop's [nonce] is one higher: a
    confirmation (line 473) and a backoff delay, which ends a [catch]
    block that did [nonce++] (lines 496-499). *)
Definition advances (x : NetCall * Reply) : bool :=
  match x with
  | (WaitConfirmation _, Ok _) => true
  | (Delay _, _) => true
  | _ => false
  end.

(** The nonce of the loop after an operation was answered, from the
    nonce [g] before it. *)
Definition nonceAfter (g : Z) (x : NetCall * Reply) : Z :=
  match x with
  | (GetTransactionCount, Ok c) => c
  | (WaitConfirmation _, Ok _) => g + 1
  | (Delay _, _) => g + 1
  | _ => g
  end.

(** What [txQueue.nonce] holds while an operation is awaited: the [catch]
    block stores [nonce + 1] before it awaits the delay (lines 496-499). *)
Definition pending (g : Z) (c : NetCall) : Z :=
  match c with
  | Delay _ => g + 1
  | _ => g
  end.

(** A transaction handed to the wallet carries nonce [g]. *)
Definition signsWith (g : Z) (c : NetCall) : Prop :=
  forall tx, c = SignTransaction tx -> tx_nonce tx = Some g.

(** [txQueue.nonce] is [g], or was reset to [null]. *)
Definition synced (g : Z) (s : State) : Prop :=
  nonce (txQueue s) = None \/ nonce (txQueue s) = Some g.

(** The operations that neither carry nor move the nonce. *)
Definition quiet (c : NetCall) : bool :=
  match c with
  | SignTransaction _ | WaitConfirmation _ | GetTransactionCount | Delay _ => false
  | _ => true
  end.

(** [Tracks g r Q]: [r] runs with loop nonce [g].  Whatever the replies,
    and whatever the state at each resumption as long as [txQueue.nonce]
    is what [r] left there or [null]: every transaction [r] hands to the
    wallet carries the nonce that [nonceAfter] gives along the
    operations answered so far, [txQueue.nonce] agrees with it at every
    suspension, and [Q] holds of the nonce, the state and the result at
    the end. *)
Fixpoint Tracks {A} (g : Z) (r : Res A) (Q : Z -> State -> A -> Prop) : Prop :=
  match r with
  | Fin s a => Q g s a
  | Await s c k =>
      signsWith g c /\ synced (pending g c) s /\
      forall rep s', synced (pending g c) s' -> Tracks (nonceAfter g (c, rep)) (k rep s') Q
  end.

(** The transactions signed along [cs] carry the nonces that
    [nonceAfter] gives, starting from [g]. *)
Fixpoint follows (g : Z) (cs : list (NetCall * Reply)) : Prop :=
  match cs with
  | [] => True
  | x :: rest => signsWith g x.1 /\ follows (nonceAfter g x) rest
  end.

(** What the event loop keeps about the nonce: a suspended call tracks
    the nonce [g]; when no call is suspended [txQueue.nonce] is [g] or
    [null]. *)
Definition tracksNonce (g : Z) (s : State) (w : Worker) : Prop :=
  match w with
  | Suspended job c k =>
      signsWith g c /\ synced (pending g c) s /\
      forall rep s', synced (pending g c) s' ->
                     Tracks (nonceAfter g (c, rep)) (k rep s') (fun g' s'' _ => synced g' s'')
  | Settled _ _ => synced g s
  end.

Definition nonceInv (g : Z) (σ : Sys) : Prop :=
  Forall (tracksNonce g (glob σ)) (workers σ) /\
  (workers σ = [] -> synced g (glob σ)).


(** The start of the process: one asset is set up, the chain id is
    cached, [initNonce] stores 7. *)
Definition started : list Event :=
  [E_SetupToken "0xAA" usdc; E_ChainId 59144; E_SetNonce (Some 7)].

(** Two jobs on "0xaa", with the replies they get.  The first attempt of
    the first job is confirmed.  The second job is queued while the
    first one has settled and [process] has not yet been resumed; its
    first attempt fails while estimating gas, on the wallet's connection
    and on both endpoints; after the delay its second attempt gets as
    far as signing. *)
Definition twoJobs : list Event :=
  [E_Transfer "0xAA";
   E_Reply 0 (Ok 1000); E_Reply 0 (Ok 1000); E_Reply 0 (Ok 50000); E_Reply 0 (Ok 0);
   E_Reply 0 (Ok 0); E_Reply 0 (Ok 777); E_Reply 0 (Ok 1); E_Reply 0 (Ok 0);
   E_Transfer "0xAA"; E_Resume 0;
   E_Reply 0 (Ok 1000); E_Reply 0 (Ok 1000);
   E_Reply 0 (Err "timeout"); E_Reply 0 (Err "timeout"); E_Reply 0 (Err "timeout");
   E_Reply 0 (Ok 0);
   E_Reply 0 (Ok 1000); E_Reply 0 (Ok 50000); E_Reply 0 (Ok 0); E_Reply 0 (Ok 0)].

(** A job on "0xaa" is started, its balance and the gas price are read,
    the nonce is reset after a provider change, and a line is logged. *)
Definition jobUnderWay : list Event :=
  [E_Transfer "0xAA"; E_Reply 0 (Ok 1000); E_Reply 0 (Ok 1000); E_SetNonce None;
   E_Log L_ProviderSwitched].

(** * Properties *)

(** ** Strings *)

Lemma lower_ascii_idem (c : ascii) : lower_ascii (lower_ascii c) = lower_ascii c.
Proof.
  destruct c as [[] [] [] [] [] [] [] []]; reflexivity.
Qed.

Lemma toLowerCase_idem (a : string) : toLowerCase (toLowerCase a) = toLowerCase a.
Proof.
  induction a as [|c r IH]; simpl; [reflexivity|].
  now rewrite lower_ascii_idem, IH.
Qed.

(** ** Metrics *)

Lemma updateMetrics_balanced type success now m :
  tx_balanced m -> tx_balanced (updateMetrics type success now m).
Proof.
  unfold tx_balanced, updateMetrics. intros H.
  repeat (case String.eqb; [try destruct success; simpl; lia|]).
  exact H.
Qed.

Lemma metricsAfter_balanced calls m :
  tx_balanced m -> tx_balanced (metricsAfter calls m).
Proof.
  unfold metricsAfter. revert m.
  induction calls as [|c calls IH]; intros m H; simpl; [exact H|].
  apply IH, updateMetrics_balanced, H.
Qed.

Lemma updateMetrics_other type success now m :
  type <> "transaction" ->
  totalTransactions (updateMetrics type success now m) = totalTransactions m /\
  successfulTx (updateMetrics type success now m) = successfulTx m /\
  failedTx (updateMetrics type success now m) = failedTx m /\
  consecutiveFailures (updateMetrics type success now m) = consecutiveFailures m.
Proof.
  intros Hne. unfold updateMetrics.
  destruct (String.eqb_spec type "transaction") as [->|_]; [congruence|].
  repeat (case String.eqb; [simpl; auto|]). auto.
Qed.

(** C10.  The transaction counters of [metrics]: after any history of
    [updateMetrics] calls, [totalTransactions = successfulTx + failedTx],
    and every single call keeps that equation; a successful
    ['transaction'] call leaves [consecutiveFailures] at 0, a failed one
    adds exactly 1 to it; a call of any other type changes none of
    [totalTransactions], [successfulTx], [failedTx], [consecutiveFailures]. *)
Theorem updateMetrics_transaction_counters :
  (forall calls now, tx_balanced (metricsAfter calls (metrics0 now))) /\
  (forall m success now,
      tx_balanced m -> tx_balanced (updateMetrics "transaction" success now m)) /\
  (forall m now, consecutiveFailures (updateMetrics "transaction" true now m) = 0) /\
  (forall m now,
      consecutiveFailures (updateMetrics "transaction" false now m)
      = consecutiveFailures m + 1) /\
  (forall type success now m,
      type <> "transaction" ->
      totalTransactions (updateMetrics type success now m) = totalTransactions m /\
      successfulTx (updateMetrics type success now m) = successfulTx m /\
      failedTx (updateMetrics type success now m) = failedTx m /\
      consecutiveFailures (updateMetrics type success now m) = consecutiveFailures m).
Proof.
  split; [|split; [|split; [|split]]].
  - intros calls now. apply metricsAfter_balanced. reflexivity.
  - intros m success now. apply updateMetrics_balanced.
  - reflexivity.
  - reflexivity.
  - intros type success now m Hne. apply updateMetrics_other, Hne.
Qed.

(** ** selectBestProvider *)

Lemma lat_eqb_eq a b : lat_eqb a b = true <-> a = b.
Proof.
  destruct a as [x|], b as [y|]; simpl; split; intros H;
    try congruence; try reflexivity.
  - f_equal. lia.
  - inversion H. lia.
Qed.

Lemma lat_le_min_l a b : lat_le (lat_min a b) a.
Proof. destruct a, b; simpl; lia. Qed.

Lemma lat_le_min_r a b : lat_le (lat_min a b) b.
Proof. destruct a, b; simpl; lia. Qed.

Lemma lat_le_trans a b c : lat_le a b -> lat_le b c -> lat_le a c.
Proof. destruct a, b, c; simpl; lia. Qed.

Lemma mathMin_le (l : list Latency) j x :
  l !! j = Some x -> lat_le (mathMin l) x.
Proof.
  revert j. induction l as [|y l IH]; intros j Hj; [discriminate|].
  destruct j as [|j]; simpl in *.
  - inversion Hj; subst. apply lat_le_min_l.
  - eapply lat_le_trans; [apply lat_le_min_r|]. eapply IH, Hj.
Qed.

Lemma mathMin_attained (l : list Latency) ms :
  mathMin l = Millis ms -> exists j, l !! j = Some (Millis ms).
Proof.
  induction l as [|y l IH]; simpl; [discriminate|].
  intros H. destruct y as [x|], (mathMin l) as [m|] eqn:E; simpl in H.
  - injection H as H. destruct (Z.min_spec x m) as [[_ Hm]|[_ Hm]].
    + exists O. simpl. congruence.
    + assert (Hms : Millis m = Millis ms) by congruence.
      destruct (IH Hms) as [j Hj]. now exists (S j).
  - exists O. simpl. congruence.
  - destruct (IH H) as [j Hj]. now exists (S j).
  - discriminate.
Qed.

Lemma mathMin_Infinity (l : list Latency) :
  mathMin l = Infinity <-> (forall j x, l !! j = Some x -> x = Infinity).
Proof.
  split.
  - intros H j x Hj. pose proof (mathMin_le l j x Hj) as Hle.
    rewrite H in Hle. destruct x; simpl in Hle; [contradiction|reflexivity].
  - intros H. destruct (mathMin l) as [m|] eqn:E; [|reflexivity].
    destruct (mathMin_attained l m E) as [j Hj]. specialize (H j _ Hj). discriminate.
Qed.

Lemma indexOfFrom_first (l : list Latency) x i j :
  l !! j = Some x ->
  exists k, indexOfFrom l x i = i + Z.of_nat k /\ l !! k = Some x /\
            forall k', (k' < k)%nat -> l !! k' <> Some x.
Proof.
  revert i j. induction l as [|y l IH]; intros i j Hj; [discriminate|].
  simpl. destruct (lat_eqb y x) eqn:E.
  - apply lat_eqb_eq in E. subst y. exists O. repeat split.
    + lia.
    + intros k' Hk. lia.
  - assert (Hne : y <> x) by (intros ->; rewrite (proj2 (lat_eqb_eq x x) eq_refl) in E; discriminate).
    destruct j as [|j]; simpl in Hj; [congruence|].
    destruct (IH (i + 1) j Hj) as (k & Hk & Hlk & Hfirst).
    exists (S k). repeat split.
    + lia.
    + exact Hlk.
    + intros [|k'] Hlt; simpl; [congruence|]. apply Hfirst. lia.
Qed.

(** C6.  [selectBestProvider] on any latency table.  When at least one
    endpoint has a finite latency, the new [currentIndex] is the first
    index holding the minimum, that minimum is finite (so the endpoint is
    not an unreachable one), the table itself is unchanged and
    ['providerChanged'] is emitted.  When every entry is [Infinity], the
    selection is unchanged, nothing is emitted and the only effect is the
    log line.  For the table [120, 45, 200] the selection is index 1. *)
Theorem selectBestProvider_selects_minimum (s : State) :
  let lats := latencies (multiProvider s) in
  let s' := fst (selectBestProvider s) in
  ((exists j ms, lats !! j = Some (Millis ms)) ->
   exists i ms,
     currentIndex (multiProvider s') = Z.of_nat i /\
     lats !! i = Some (Millis ms) /\
     (forall j l, lats !! j = Some l -> lat_le (Millis ms) l) /\
     (forall j, (j < i)%nat -> lats !! j <> Some (Millis ms)) /\
     latencies (multiProvider s') = lats /\
     snd (selectBestProvider s) = true) /\
  ((forall j l, lats !! j = Some l -> l = Infinity) ->
   s' = log L_AllRpcsUnavailable s /\
   multiProvider s' = multiProvider s /\
   snd (selectBestProvider s) = false) /\
  (lats = [Millis 120; Millis 45; Millis 200] ->
   currentIndex (multiProvider s') = 1).
Proof.
  intros lats s'. subst lats s'. unfold selectBestProvider.
  split; [|split].
  - intros (j & ms & Hj).
    destruct (mathMin (latencies (multiProvider s))) as [m|] eqn:E.
    + destruct (mathMin_attained _ _ E) as [j' Hj'].
      destruct (indexOfFrom_first _ _ 0 _ Hj') as (k & Hk & Hlk & Hfirst).
      assert (Hmin : forall j0 l, latencies (multiProvider s) !! j0 = Some l ->
                             lat_le (Millis m) l).
      { intros j0 l Hl. rewrite <- E. eapply mathMin_le, Hl. }
      exists k, m. simpl. unfold debugLog, log. destruct DEBUG; simpl.
      all: repeat split; try (unfold indexOf; rewrite Hk; lia); assumption.
    + apply mathMin_Infinity with (j := j) (x := Millis ms) in E; [discriminate|assumption].
  - intros Hall. apply mathMin_Infinity in Hall. rewrite Hall. simpl. auto.
  - intros H. rewrite H. simpl. unfold debugLog, log.
    destruct DEBUG; simpl; rewrite H; reflexivity.
Qed.

(** ** Running computations *)

Lemma run_bindR {A B} (r : Res A) (f : A -> M B) (ω : Oracle) (t : nat) :
  run (bindR r f) ω t =
  let '(s1, a, c1) := run r ω t in
  let '(s2, b, c2) := run (f a s1) ω (t + length c1)%nat in
  (s2, b, (c1 ++ c2)%list).
Proof.
  revert t. induction r as [s a|s c k IH]; intros t; simpl.
  - rewrite Nat.add_0_r. destruct (run (f a s) ω t) as [[s2 b] c2]. reflexivity.
  - rewrite IH. destruct (run (k (ω t c) s) ω (S t)) as [[s1 a] c1].
    cbn [length].
    replace (t + S (length c1))%nat with (S t + length c1)%nat by lia.
    destruct (run (f a s1) ω (S t + length c1)%nat) as [[s2 b] c2]. reflexivity.
Qed.

Lemma run_bind {A B} (m : M A) (f : A -> M B) (ω : Oracle) (t : nat) (s : State) :
  run (bind m f s) ω t =
  let '(s1, a, c1) := run (m s) ω t in
  let '(s2, b, c2) := run (f a s1) ω (t + length c1)%nat in
  (s2, b, (c1 ++ c2)%list).
Proof. apply run_bindR. Qed.

(** ** callWithFallback *)

Lemma FailedOn_le {A} (fn : nat -> MX A) ω i j s t s' t' cs :
  FailedOn fn ω i j s t s' t' cs -> (i <= j)%nat.
Proof. induction 1; lia. Qed.

Lemma callWithFallbackFrom_success {A} (fn : nat -> MX A) ω i j s t s1 t1 cs1 :
  FailedOn fn ω i j s t s1 t1 cs1 ->
  forall s2 v c2 rem,
    (j < RPC_COUNT)%nat -> (i + rem = RPC_COUNT)%nat ->
    run (fn j s1) ω t1 = (s2, inr v, c2) ->
    run (callWithFallbackFrom fn i rem s) ω t = (s2, inr (Some v), (cs1 ++ c2)%list).
Proof.
  induction 1 as [i s t|i j s t s1 err c1 s' t' cs Hrun Hrest IH];
    intros s2 v c2 rem Hj Hrem Hok.
  - destruct rem as [|rem]; [lia|]. simpl.
    rewrite run_bind, Hok. simpl. now rewrite app_nil_r.
  - apply FailedOn_le in Hrest as Hle.
    destruct rem as [|rem]; [lia|]. simpl.
    rewrite run_bind, Hrun. cbn [bind bindR modify].
    destruct (Z.eqb_spec (Z.of_nat i) (Z.of_nat RPC_COUNT - 1)) as [Heq|_]; [lia|].
    rewrite (IH s2 v c2 rem Hj ltac:(lia) Hok). now rewrite app_assoc.
Qed.

Lemma callWithFallbackFrom_throws {A} (fn : nat -> MX A) ω rem :
  forall i s t s' err cs,
    (i + rem = RPC_COUNT)%nat ->
    run (callWithFallbackFrom fn i rem s) ω t = (s', inl err, cs) ->
    (0 < RPC_COUNT)%nat /\
    exists s1 t1 cs1 s2 c2,
      FailedOn fn ω i (RPC_COUNT - 1) s t s1 t1 cs1 /\
      run (fn (RPC_COUNT - 1)%nat s1) ω t1 = (s2, inl err, c2) /\
      s' = recordMetric "rpc_failure" true
             (debugLog (L_RpcCallFailed (RPC_COUNT - 1) err) s2) /\
      cs = (cs1 ++ c2)%list.
Proof.
  induction rem as [|rem IH]; intros i s t s' err cs Hrem Hrun; simpl in Hrun.
  - discriminate.
  - rewrite run_bind in Hrun.
    destruct (run (fn i s) ω t) as [[s1 [e|v]] c1] eqn:Hfn;
      cbn [bind bindR modify retX ret run] in Hrun; [|discriminate].
    destruct (Z.eqb_spec (Z.of_nat i) (Z.of_nat RPC_COUNT - 1)) as [Heq|Hne].
    + assert (i = RPC_COUNT - 1)%nat as -> by lia.
      cbn [throw ret run] in Hrun. injection Hrun as <- <- <-.
      split; [lia|]. exists s, t, [], s1, c1.
      rewrite app_nil_r. repeat split; [constructor|exact Hfn].
    + destruct (run (callWithFallbackFrom fn (S i) rem _) ω (t + length c1)%nat)
        as [[s2 b] c2] eqn:Hrec.
      injection Hrun as <- -> <-.
      assert (Hrem' : (S i + rem = RPC_COUNT)%nat) by lia.
      destruct (IH _ _ _ _ _ _ Hrem' Hrec)
        as (Hpos & s3 & t3 & cs3 & s4 & c4 & Hfail & Hlast & Hs & Hcs).
      split; [exact Hpos|]. exists s3, t3, (c1 ++ cs3)%list, s4, c4.
      repeat split.
      * econstructor; eassumption.
      * exact Hlast.
      * exact Hs.
      * rewrite Hcs. now rewrite app_assoc.
Qed.

(** C3.  [callWithFallback(fn)] for any operation [fn], any pool size
    and any behaviour of the outside world.  If it throws, the pool is not
    empty and [fn] was run on every endpoint 0, 1, ..., in that order,
    and threw on each; the error thrown is the one of the last endpoint.
    If [fn] fails on the endpoints before [j] and succeeds on endpoint
    [j], the call returns that result, and no later endpoint is tried
    (the operations awaited are those of the endpoints up to [j]). *)
Theorem callWithFallback_raises_only_if_all_fail {A} (fn : nat -> MX A)
    (ω : Oracle) (s : State) (t : nat) :
  (forall s' err cs,
      run (callWithFallback fn s) ω t = (s', inl err, cs) ->
      (0 < RPC_COUNT)%nat /\
      exists s1 t1 cs1 s2 c2,
        FailedOn fn ω 0 (RPC_COUNT - 1) s t s1 t1 cs1 /\
        run (fn (RPC_COUNT - 1)%nat s1) ω t1 = (s2, inl err, c2) /\
        cs = (cs1 ++ c2)%list) /\
  (forall j s1 t1 cs1 s2 v c2,
      (j < RPC_COUNT)%nat ->
      FailedOn fn ω 0 j s t s1 t1 cs1 ->
      run (fn j s1) ω t1 = (s2, inr v, c2) ->
      run (callWithFallback fn s) ω t = (s2, inr (Some v), (cs1 ++ c2)%list)).
Proof.
  split.
  - intros s' err cs Hrun.
    destruct (callWithFallbackFrom_throws fn ω RPC_COUNT 0 s t s' err cs eq_refl Hrun)
      as (Hpos & s1 & t1 & cs1 & s2 & c2 & Hfail & Hlast & _ & Hcs).
    split; [exact Hpos|]. now exists s1, t1, cs1, s2, c2.
  - intros j s1 t1 cs1 s2 v c2 Hj Hfail Hok.
    unfold callWithFallback.
    eapply callWithFallbackFrom_success; eauto.
Qed.

(** ** Guarantees under interference *)

Lemma Spans_mono {A} (G : State -> State -> Prop) (Q Q' : State -> A -> Prop) s0 r :
  (forall s a, Q s a -> Q' s a) -> Spans G Q s0 r -> Spans G Q' s0 r.
Proof.
  intros HQ H. induction H as [s0 s a HG Hq|s0 s c k HG Hk IH].
  - apply Spans_Fin; auto.
  - apply Spans_Await; auto.
Qed.

Lemma Spans_start {A} (G : State -> State -> Prop) (Q : State -> A -> Prop) s0 s1 r :
  Transitive G -> G s0 s1 -> Spans G Q s1 r -> Spans G Q s0 r.
Proof.
  intros HT H01 H. destruct H as [s1 s a HG Hq|s1 s c k HG Hk].
  - apply Spans_Fin; [etransitivity; eassumption|assumption].
  - apply Spans_Await; [etransitivity; eassumption|assumption].
Qed.

Lemma Spans_stateOf {A} (G : State -> State -> Prop) (Q : State -> A -> Prop) s0 r :
  Spans G Q s0 r -> G s0 (stateOf r).
Proof. destruct 1; assumption. Qed.

Lemma Spans_bindR {A B} (G : State -> State -> Prop) `{!Transitive G}
    (Q1 : State -> A -> Prop) (Q : State -> B -> Prop) s0 (r : Res A) (f : A -> M B) :
  Spans G Q1 s0 r ->
  (forall s1 a, Q1 s1 a -> Spans G Q s1 (f a s1)) ->
  Spans G Q s0 (bindR r f).
Proof.
  intros H Hf. induction H as [s0 s a HG Hq|s0 s c k HG Hk IH]; simpl.
  - eapply Spans_start; eauto.
  - apply Spans_Await; auto.
Qed.

Section Respecting.
Context (G : State -> State -> Prop) `{!Reflexive G} `{!Transitive G}.

Lemma Respects_ret {A} (a : A) : Respects G (ret a).
Proof. intros s. apply Spans_Fin; [reflexivity|exact I]. Qed.

Lemma Respects_bind {A B} (m : M A) (f : A -> M B) :
  Respects G m -> (forall a, Respects G (f a)) -> Respects G (bind m f).
Proof.
  intros Hm Hf s. unfold bind. eapply Spans_bindR; [exact _|apply Hm|].
  intros s1 a _. apply Hf.
Qed.

Lemma Respects_await c : Respects G (await c).
Proof.
  intros s. apply Spans_Await; [reflexivity|].
  intros rep s'. apply Spans_Fin; [reflexivity|exact I].
Qed.

Lemma Respects_gets {A} (f : State -> A) : Respects G (gets f).
Proof. intros s. apply Spans_Fin; [reflexivity|exact I]. Qed.

Lemma Respects_modify (f : State -> State) :
  (forall s, G s (f s)) -> Respects G (modify f).
Proof. intros Hf s. apply Spans_Fin; [apply Hf|exact I]. Qed.

Lemma Respects_throw {A} (e : Exn) : Respects G (@throw A e).
Proof. apply Respects_ret. Qed.

Lemma Respects_retX {A} (a : A) : Respects G (retX a).
Proof. apply Respects_ret. Qed.

Lemma Respects_bindX {A B} (m : MX A) (f : A -> MX B) :
  Respects G m -> (forall a, Respects G (f a)) -> Respects G (bindX m f).
Proof.
  intros Hm Hf. apply Respects_bind; [exact Hm|].
  intros [e|a]; [apply Respects_ret|apply Hf].
Qed.

Lemma Respects_call c : Respects G (call c).
Proof.
  apply Respects_bind; [apply Respects_await|].
  intros [v|msg]; apply Respects_ret.
Qed.

Lemma Respects_tryFinally {A} (body : MX A) (fin : M unit) :
  Respects G body -> Respects G fin -> Respects G (tryFinally body fin).
Proof.
  intros Hb Hf. apply Respects_bind; [exact Hb|].
  intros r. apply Respects_bind; [exact Hf|]. intros _. apply Respects_ret.
Qed.

End Respecting.

(** ** What a call of transferWithRetry may touch *)

#[local] Instance jobFrame_refl addr : Reflexive (jobFrame addr).
Proof. intros s. repeat split. Qed.

#[local] Instance jobFrame_trans addr : Transitive (jobFrame addr).
Proof.
  intros s1 s2 s3 (Hq1 & Hp1 & Hl1) (Hq2 & Hp2 & Hl2). repeat split.
  - congruence.
  - congruence.
  - intros b Hb. rewrite Hl2, Hl1; auto.
Qed.

Lemma jobFrame_log addr line s : jobFrame addr s (log line s).
Proof. repeat split. Qed.

Lemma jobFrame_debugLog addr line s : jobFrame addr s (debugLog line s).
Proof. unfold debugLog. destruct DEBUG; [apply jobFrame_log|reflexivity]. Qed.

Lemma jobFrame_recordMetric addr type success s :
  jobFrame addr s (recordMetric type success s).
Proof. repeat split. Qed.

Lemma jobFrame_set_nonce addr n s : jobFrame addr s (set_txQueue (set_nonce n) s).
Proof. repeat split. Qed.

Lemma jobFrame_lock addr b s :
  jobFrame addr s (set_tokenProcessing (insert addr b) s).
Proof.
  repeat split. intros a Ha. simpl. now rewrite lookup_insert_ne.
Qed.

Create HintDb respects.
#[local] Hint Resolve jobFrame_log jobFrame_debugLog jobFrame_recordMetric
  jobFrame_set_nonce jobFrame_lock : respects.
#[local] Hint Resolve Respects_ret Respects_retX Respects_throw Respects_await
  Respects_gets Respects_call : respects.
#[local] Hint Extern 1 (Reflexive (jobFrame _)) => apply jobFrame_refl : respects.
#[local] Hint Extern 1 (Transitive (jobFrame _)) => apply jobFrame_trans : respects.

Ltac frame_classes :=
  try match goal with
      | |- Reflexive _ => exact _
      | |- Transitive _ => exact _
      end.

(** Walks through code written with [bind], [bindX], [match] and [if]. *)
Ltac respects_step :=
  lazymatch goal with
  | |- Respects _ (bindX _ _) => apply Respects_bindX; frame_classes; [|intros ?]
  | |- Respects _ (bind _ _) => apply Respects_bind; frame_classes; [|intros ?]
  | |- Respects _ (tryFinally _ _) => apply Respects_tryFinally; frame_classes
  | |- Respects _ (modify _) => apply Respects_modify; frame_classes; intros ?
  | |- Respects _ (liftX _) => unfold liftX
  | |- Respects _ (match ?x with _ => _ end) => destruct x
  | |- jobFrame _ _ (debugLog _ (set_txQueue (set_nonce _) _)) =>
      etransitivity; [apply jobFrame_set_nonce|apply jobFrame_debugLog]
  | |- jobFrame _ _ (debugLog _ (set_tokenProcessing (insert _ _) _)) =>
      etransitivity; [apply jobFrame_lock|apply jobFrame_debugLog]
  | |- _ => solve [auto with respects]
  end.

Ltac respects := repeat respects_step.

Lemma telegramNotify_respects addr text : Respects (jobFrame addr) (telegramNotify text).
Proof. unfold telegramNotify. respects. Qed.
#[local] Hint Resolve telegramNotify_respects : respects.

Lemma callWithFallbackFrom_respects {A} addr (fn : nat -> MX A) :
  (forall i, Respects (jobFrame addr) (fn i)) ->
  forall rem i, Respects (jobFrame addr) (callWithFallbackFrom fn i rem).
Proof.
  intros Hfn. induction rem as [|rem IH]; intros i; simpl.
  - respects.
  - apply Respects_bind; frame_classes; [apply Hfn|]. intros [e|v]; [|respects].
    apply Respects_bind; frame_classes; [respects|]. intros _.
    apply Respects_bind; frame_classes; [respects|]. intros _.
    destruct (_ =? _); [respects|apply IH].
Qed.

Lemma callWithFallback_respects {A} addr (fn : nat -> MX A) :
  (forall i, Respects (jobFrame addr) (fn i)) ->
  Respects (jobFrame addr) (callWithFallback fn).
Proof. intros Hfn. apply callWithFallbackFrom_respects, Hfn. Qed.

Lemma initNonce_respects addr : Respects (jobFrame addr) initNonce.
Proof. unfold initNonce, liftX. respects. Qed.
#[local] Hint Resolve initNonce_respects : respects.

Lemma readBalance_respects addr a sym : Respects (jobFrame addr) (readBalance a sym).
Proof.
  unfold readBalance. respects.
  apply callWithFallback_respects. intros i. respects.
Qed.
#[local] Hint Resolve readBalance_respects : respects.

Lemma fetchGasPrice_respects addr : Respects (jobFrame addr) fetchGasPrice.
Proof.
  unfold fetchGasPrice. respects.
  apply callWithFallback_respects. intros i. respects.
Qed.
#[local] Hint Resolve fetchGasPrice_respects : respects.

Lemma buildAndSend_respects addr a sym bal gp n :
  Respects (jobFrame addr) (buildAndSend a sym bal gp n).
Proof.
  unfold buildAndSend. respects.
  all: apply callWithFallback_respects; intros i; respects.
Qed.
#[local] Hint Resolve buildAndSend_respects : respects.

Lemma submitOnce_respects addr a sym bal gp n :
  Respects (jobFrame addr) (submitOnce a sym bal gp n).
Proof. unfold submitOnce. respects. Qed.
#[local] Hint Resolve submitOnce_respects : respects.

Lemma onConfirmed_respects addr info bal hash n :
  Respects (jobFrame addr) (onConfirmed info bal hash n).
Proof. unfold onConfirmed. respects. Qed.
#[local] Hint Resolve onConfirmed_respects : respects.

Lemma bumpAndDelay_respects addr attempt gp n :
  Respects (jobFrame addr) (bumpAndDelay attempt gp n).
Proof. unfold bumpAndDelay. respects. Qed.
#[local] Hint Resolve bumpAndDelay_respects : respects.

Lemma onAttemptError_respects addr sym attempt err gp n :
  Respects (jobFrame addr) (onAttemptError sym attempt err gp n).
Proof. unfold onAttemptError. respects. Qed.
#[local] Hint Resolve onAttemptError_respects : respects.

Lemma afterRetries_respects addr sym : Respects (jobFrame addr) (afterRetries sym).
Proof. unfold afterRetries. respects. Qed.
#[local] Hint Resolve afterRetries_respects : respects.

Lemma retryLoop_respects addr a info bal :
  forall rem gp n, Respects (jobFrame addr) (retryLoop rem a info bal gp n).
Proof.
  induction rem as [|rem IH]; intros gp n; simpl; [respects|].
  apply Respects_bind; frame_classes; [respects|]. intros [gp1 [err|[tx hash]]]; simpl.
  - apply Respects_bindX; frame_classes; [respects|].
    intros [gp2 n2|result]; [apply IH|respects].
  - respects.
Qed.
#[local] Hint Resolve retryLoop_respects : respects.

Lemma transferBody_respects addr a : Respects (jobFrame addr) (transferBody a).
Proof. unfold transferBody. respects. Qed.

Lemma unlock_respects addr : Respects (jobFrame addr) (unlock addr).
Proof. unfold unlock. respects. Qed.

(** ** resetProcessingLocks *)

Lemma heldCount_insert_true (m : gmap string bool) i :
  m !! i = None -> heldCount (<[i := true]> m) = S (heldCount m).
Proof.
  intros Hi. unfold heldCount.
  rewrite map_filter_insert_True by reflexivity.
  apply map_size_insert_None, map_lookup_filter_None_2. left. exact Hi.
Qed.

Lemma heldCount_insert_false (m : gmap string bool) i :
  m !! i = None -> heldCount (<[i := false]> m) = heldCount m.
Proof.
  intros Hi. unfold heldCount.
  rewrite map_filter_insert_False by (simpl; discriminate).
  now rewrite delete_id.
Qed.

Lemma resetEntry_fold (m base : gmap string bool) (n0 : nat) :
  (forall k, (map_fold resetEntry (base, n0) m).1 !! k =
             match m !! k with
             | Some true => Some false
             | _ => base !! k
             end) /\
  (map_fold resetEntry (base, n0) m).2 = (n0 + heldCount m)%nat.
Proof.
  apply (map_fold_weak_ind
           (fun r m => (forall k, r.1 !! k = match m !! k with
                                              | Some true => Some false
                                              | _ => base !! k
                                              end) /\
                       r.2 = (n0 + heldCount m)%nat)).
  - split.
    + intros k. now rewrite lookup_empty.
    + unfold heldCount. rewrite map_filter_empty, map_size_empty. simpl. lia.
  - intros i x m' r Hi [Hlook Hcount]. destruct x; simpl; split.
    + intros k. destruct (decide (i = k)) as [->|Hne].
      * now rewrite !lookup_insert_eq.
      * rewrite !lookup_insert_ne by assumption. apply Hlook.
    + rewrite heldCount_insert_true by assumption. lia.
    + intros k. destruct (decide (i = k)) as [->|Hne].
      * rewrite lookup_insert_eq. rewrite Hlook, Hi. reflexivity.
      * rewrite lookup_insert_ne by assumption. apply Hlook.
    + rewrite heldCount_insert_false by assumption. exact Hcount.
Qed.

Lemma heldCount_zero (m : gmap string bool) :
  heldCount m = O -> forall k, m !! k <> Some true.
Proof.
  unfold heldCount. intros H k Hk.
  apply map_size_empty_inv in H.
  assert (Hf : filter (fun kv : string * bool => kv.2 = true) m !! k = Some true).
  { apply map_lookup_filter_Some. split; [exact Hk|reflexivity]. }
  rewrite H, lookup_empty in Hf. discriminate.
Qed.

Lemma resetProcessingLocks_lookup (s : State) (a : string) :
  tokenProcessing (resetProcessingLocks s) !! a
  = (fun _ => false) <$> tokenProcessing s !! a.
Proof.
  unfold resetProcessingLocks.
  destruct (resetEntry_fold (tokenProcessing s) (tokenProcessing s) O) as [Hlook _].
  destruct (map_fold resetEntry (tokenProcessing s, O) (tokenProcessing s))
    as [locks resetCount]. simpl in Hlook.
  assert (Hl : locks !! a = (fun _ => false) <$> tokenProcessing s !! a).
  { rewrite Hlook. destruct (tokenProcessing s !! a) as [[|]|]; reflexivity. }
  destruct (Nat.ltb 0 resetCount); simpl; exact Hl.
Qed.

Lemma resetProcessingLocks_txQueue (s : State) :
  txQueue (resetProcessingLocks s) = txQueue s.
Proof.
  unfold resetProcessingLocks.
  destruct (map_fold resetEntry (tokenProcessing s, O) (tokenProcessing s))
    as [locks resetCount].
  destruct (Nat.ltb 0 resetCount); reflexivity.
Qed.

Lemma resetProcessingLocks_free (s : State) (a : string) :
  isProcessing (resetProcessingLocks s) a = false.
Proof.
  unfold isProcessing. rewrite resetProcessingLocks_lookup.
  destruct (tokenProcessing s !! a); reflexivity.
Qed.


(** ** The lock of a call of transferWithRetry *)

Lemma debugLog_tokenProcessing line s :
  tokenProcessing (debugLog line s) = tokenProcessing s.
Proof. unfold debugLog. destruct DEBUG; reflexivity. Qed.

Lemma debugLog_txQueue line s : txQueue (debugLog line s) = txQueue s.
Proof. unfold debugLog. destruct DEBUG; reflexivity. Qed.

Lemma debugLog_tokenContracts line s :
  tokenContracts (debugLog line s) = tokenContracts s.
Proof. unfold debugLog. destruct DEBUG; reflexivity. Qed.

Lemma debugLog_isProcessing line s a :
  isProcessing (debugLog line s) a = isProcessing s a.
Proof. unfold isProcessing. now rewrite debugLog_tokenProcessing. Qed.

Lemma transferWithRetry_respects tokenAddress :
  Respects (jobFrame (toLowerCase tokenAddress)) (transferWithRetry tokenAddress).
Proof.
  unfold transferWithRetry. respects.
  - apply transferBody_respects.
  - apply unlock_respects.
Qed.

(** Every way out of [transferWithRetry] that went past the guard of line
    383 leaves the asset's entry at [false], whatever the replies and
    whatever other handlers did while the call was suspended. *)
Lemma transferWithRetry_releases tokenAddress s :
  isProcessing s (toLowerCase tokenAddress) = false ->
  Spans (jobFrame (toLowerCase tokenAddress))
        (fun s' _ => tokenProcessing s' !! toLowerCase tokenAddress = Some false)
        s (transferWithRetry tokenAddress s).
Proof.
  intros Hfree. unfold transferWithRetry, bind, gets. cbn [bindR].
  rewrite Hfree. unfold modify. cbn [bindR]. unfold tryFinally, bind.
  eapply Spans_start; [exact _|apply jobFrame_lock|].
  eapply Spans_bindR; [exact _|apply transferBody_respects|].
  intros s1 r _. unfold unlock, modify. cbn [bindR]. unfold ret.
  apply Spans_Fin.
  - etransitivity; [apply jobFrame_lock|apply jobFrame_debugLog].
  - rewrite debugLog_tokenProcessing. simpl. apply lookup_insert_eq.
Qed.

Lemma toWorker_job job r : jobOf (toWorker job r) = job.
Proof. destruct r; reflexivity. Qed.

(** Starting a job when no lock is held. *)
Lemma launch_ok job s :
  (forall a, isProcessing s a = false) ->
  workerOk (toWorker job (transferWithRetry job s)) /\
  jobFrame (toLowerCase job) s (stateOf (transferWithRetry job s)) /\
  (forall a, isProcessing (stateOf (transferWithRetry job s)) a = true ->
     a = toLowerCase job /\
     exists c k, toWorker job (transferWithRetry job s) = Suspended job c k).
Proof.
  intros Hfree.
  pose proof (transferWithRetry_releases job s (Hfree _)) as Hspan.
  destruct Hspan as [s0 s1 r HG HQ|s0 s1 c k HG Hk]; simpl.
  - split; [exact I|]. split; [exact HG|].
    intros a Ha. exfalso.
    destruct (decide (a = toLowerCase job)) as [->|Hne].
    + unfold isProcessing in Ha. rewrite HQ in Ha. discriminate.
    + destruct HG as (_ & _ & Hl). unfold isProcessing in Ha.
      rewrite Hl in Ha by assumption. specialize (Hfree a).
      unfold isProcessing in Hfree. congruence.
  - split; [exact Hk|]. split; [exact HG|].
    intros a Ha. split; [|eauto].
    destruct (decide (a = toLowerCase job)) as [->|Hne]; [reflexivity|exfalso].
    destruct HG as (_ & _ & Hl). unfold isProcessing in Ha.
    rewrite Hl in Ha by assumption. specialize (Hfree a).
    unfold isProcessing in Hfree. congruence.
Qed.

(** ** The invariant of the event loop *)

Lemma sysInv_init now : sysInv (sys0 now).
Proof.
  constructor; simpl.
  - lia.
  - intros H. now contradict H.
  - reflexivity.
  - constructor.
  - intros a Ha. unfold isProcessing in Ha. simpl in Ha.
    rewrite lookup_empty in Ha. discriminate.
Qed.

Lemma single_worker (ws : list Worker) i w :
  (length ws <= 1)%nat -> ws !! i = Some w -> ws = [w] /\ i = O.
Proof.
  intros Hlen Hi. destruct ws as [|w0 [|w1 ws]]; simpl in *; try lia.
  - discriminate.
  - destruct i as [|i]; simpl in Hi; [|discriminate]. split; congruence.
Qed.

(** A handler that starts no job, keeps the [processing] flag and sets no
    lock keeps the invariant. *)
Lemma sysInv_env σ s' :
  sysInv σ ->
  processing (txQueue s') = processing (txQueue (glob σ)) ->
  (processing (txQueue s') = false -> queue (txQueue s') = []) ->
  (forall a, isProcessing s' a = true -> isProcessing (glob σ) a = true) ->
  sysInv (mkSys s' (workers σ)).
Proof.
  intros [Hs Hp Hi Hw Hl] Hproc Hidle Hlocks. constructor; simpl.
  - exact Hs.
  - intros Hne. rewrite Hproc. auto.
  - exact Hidle.
  - exact Hw.
  - intros a Ha. apply Hl, Hlocks, Ha.
Qed.

Lemma no_lock_without_suspended σ :
  sysInv σ ->
  (forall job c k, workers σ <> [Suspended job c k]) ->
  forall a, isProcessing (glob σ) a = false.
Proof.
  intros Hinv Hnone a. destruct (isProcessing (glob σ) a) eqn:E; [|reflexivity].
  destruct (inv_locks σ Hinv a E) as (job & c & k & Hw & _).
  exfalso. eapply Hnone, Hw.
Qed.

(** Starting the next job while [processing] is set and no lock is held. *)
Lemma sysInv_launch job s :
  processing (txQueue s) = true ->
  (forall a, isProcessing s a = false) ->
  sysInv (mkSys (stateOf (transferWithRetry job s))
                [toWorker job (transferWithRetry job s)]).
Proof.
  intros Hproc Hfree.
  destruct (launch_ok job s Hfree) as (Hok & (Hq & Hp & _) & Hlocks).
  constructor; simpl.
  - lia.
  - intros _. congruence.
  - intros Hfalse. congruence.
  - constructor; [exact Hok|constructor].
  - intros a Ha. destruct (Hlocks a Ha) as (-> & c & k & Hw).
    exists job, c, k. split; [now rewrite Hw|reflexivity].
Qed.

Lemma selectBestProvider_txQueue s : txQueue (selectBestProvider s).1 = txQueue s.
Proof.
  unfold selectBestProvider. destruct (mathMin _); simpl; [|reflexivity].
  now rewrite debugLog_txQueue.
Qed.

Lemma selectBestProvider_tokenProcessing s :
  tokenProcessing (selectBestProvider s).1 = tokenProcessing s.
Proof.
  unfold selectBestProvider. destruct (mathMin _); simpl; [|reflexivity].
  now rewrite debugLog_tokenProcessing.
Qed.

Lemma processNext_nil s :
  queue (txQueue s) = [] ->
  processNext s = (debugLog L_QueueFinished (set_txQueue (set_processing false) s), None).
Proof. intros H. unfold processNext. now rewrite H. Qed.

Lemma processNext_cons s job rest :
  queue (txQueue s) = job :: rest ->
  processNext s =
  (stateOf (transferWithRetry job (set_txQueue (set_queue rest) s)),
   Some (toWorker job (transferWithRetry job (set_txQueue (set_queue rest) s)))).
Proof. intros H. unfold processNext. now rewrite H. Qed.

Lemma enqueueTransfer_held a s :
  isProcessing s (toLowerCase a) = true ->
  enqueueTransfer a s = (debugLog (L_AlreadyProcessing (toLowerCase a)) s, None).
Proof. intros H. unfold enqueueTransfer. now rewrite H. Qed.

Lemma enqueueTransfer_busy a s :
  isProcessing s (toLowerCase a) = false ->
  processing (txQueue s) = true ->
  exists s', enqueueTransfer a s = (s', None) /\
             txQueue s' = set_queue (queue (txQueue s) ++ [toLowerCase a])%list (txQueue s) /\
             tokenProcessing s' = tokenProcessing s /\
             tokenContracts s' = tokenContracts s.
Proof.
  intros Hfree Hproc. unfold enqueueTransfer, enqueue. rewrite Hfree.
  rewrite debugLog_txQueue. simpl. rewrite Hproc.
  eexists. split; [reflexivity|].
  rewrite debugLog_txQueue, debugLog_tokenProcessing, debugLog_tokenContracts.
  repeat split.
Qed.

Lemma enqueueTransfer_idle a s :
  isProcessing s (toLowerCase a) = false ->
  processing (txQueue s) = false ->
  queue (txQueue s) = [] ->
  exists s',
    enqueueTransfer a s =
      (stateOf (transferWithRetry (toLowerCase a) s'),
       Some (toWorker (toLowerCase a) (transferWithRetry (toLowerCase a) s'))) /\
    txQueue s' = mkTxQueue [] true (nonce (txQueue s)) /\
    tokenProcessing s' = tokenProcessing s /\
    tokenContracts s' = tokenContracts s.
Proof.
  intros Hfree Hproc Hq. unfold enqueueTransfer, enqueue. rewrite Hfree.
  rewrite debugLog_txQueue. simpl. rewrite Hproc. unfold process.
  erewrite processNext_cons.
  2:{ rewrite !debugLog_txQueue. simpl. rewrite debugLog_txQueue. simpl.
      rewrite Hq. reflexivity. }
  eexists. split; [reflexivity|]. simpl.
  rewrite !debugLog_txQueue, !debugLog_tokenProcessing, !debugLog_tokenContracts. simpl.
  rewrite !debugLog_txQueue, !debugLog_tokenProcessing, !debugLog_tokenContracts. simpl.
  repeat split.
Qed.

Lemma sysInv_step e σ : sysInv σ -> sysInv (sys_step e σ).1.
Proof.
  intros Hinv. destruct e as [a| | |a info|n|id|i l| |type|now|line|i rep|i]; simpl.
  - (* enqueueTransfer *)
    destruct (isProcessing (glob σ) (toLowerCase a)) eqn:Hheld.
    { rewrite enqueueTransfer_held by assumption. simpl.
      apply sysInv_env; auto.
      - now rewrite debugLog_txQueue.
      - rewrite debugLog_txQueue. apply (inv_idle σ Hinv).
      - intros b. now rewrite debugLog_isProcessing. }
    destruct (processing (txQueue (glob σ))) eqn:Hproc.
    { destruct (enqueueTransfer_busy a _ Hheld Hproc) as (s' & -> & Hq & Hl & _). simpl.
      apply sysInv_env; auto.
      - rewrite Hq. simpl. congruence.
      - rewrite Hq. simpl. congruence.
      - intros b. unfold isProcessing. now rewrite Hl. }
    assert (Hnil : workers σ = []).
    { destruct (workers σ) as [|w ws] eqn:Hw; [reflexivity|].
      rewrite (inv_processing σ Hinv) in Hproc; [discriminate|congruence]. }
    destruct (enqueueTransfer_idle a _ Hheld Hproc (inv_idle σ Hinv Hproc))
      as (s' & -> & Hq & Hl & _).
    simpl. rewrite Hnil. simpl. apply sysInv_launch.
    + now rewrite Hq.
    + intros b. unfold isProcessing. rewrite Hl.
      apply (no_lock_without_suspended σ Hinv). intros job c k. rewrite Hnil. discriminate.
  - (* resetProcessingLocks *)
    apply sysInv_env; auto.
    + now rewrite resetProcessingLocks_txQueue.
    + rewrite resetProcessingLocks_txQueue. apply (inv_idle σ Hinv).
    + intros b. now rewrite resetProcessingLocks_free.
  - (* cleanupContracts *)
    unfold cleanupContracts. apply sysInv_env; auto.
    + now rewrite debugLog_txQueue.
    + rewrite debugLog_txQueue. apply (inv_idle σ Hinv).
    + intros b. rewrite debugLog_isProcessing. unfold isProcessing. simpl.
      rewrite lookup_empty. discriminate.
  - (* setupContracts *)
    apply sysInv_env; auto.
    + apply (inv_idle σ Hinv).
    + intros b. unfold setupToken, isProcessing. simpl.
      destruct (decide (toLowerCase a = b)) as [->|Hne].
      * rewrite lookup_insert_eq. discriminate.
      * now rewrite lookup_insert_ne.
  - apply sysInv_env; auto. apply (inv_idle σ Hinv).
  - apply sysInv_env; auto. apply (inv_idle σ Hinv).
  - apply sysInv_env; auto. apply (inv_idle σ Hinv).
  - (* selectBestProvider *)
    apply sysInv_env; auto.
    + now rewrite selectBestProvider_txQueue.
    + rewrite selectBestProvider_txQueue. apply (inv_idle σ Hinv).
    + intros b. unfold isProcessing. now rewrite selectBestProvider_tokenProcessing.
  - apply sysInv_env; auto. apply (inv_idle σ Hinv).
  - apply sysInv_env; auto. apply (inv_idle σ Hinv).
  - apply sysInv_env; auto. apply (inv_idle σ Hinv).
  - (* a reply *)
    destruct (workers σ !! i) as [[job c k|job result]|] eqn:Hw; simpl; try exact Hinv.
    destruct (single_worker _ _ _ (inv_single σ Hinv) Hw) as [Hws ->].
    pose proof (inv_workers σ Hinv) as Hok. rewrite Hws in Hok.
    apply Forall_cons_1 in Hok as [Hok _]. specialize (Hok rep (glob σ)).
    rewrite Hws. simpl.
    assert (Hproc : processing (txQueue (glob σ)) = true).
    { apply (inv_processing σ Hinv). rewrite Hws. discriminate. }
    inversion Hok as [s0 s1 r (Hq & Hp & Hl) HQ Hs0 Hr|s0 s1 c' k' (Hq & Hp & Hl) Hk Hs0 Hr];
      simpl; constructor; simpl; try lia; try congruence; try (intros; congruence).
    + repeat constructor.
    + intros a Ha. exfalso.
      destruct (decide (a = toLowerCase job)) as [->|Hne].
      * unfold isProcessing in Ha. rewrite HQ in Ha. discriminate.
      * unfold isProcessing in Ha. rewrite Hl in Ha by assumption.
        destruct (inv_locks σ Hinv a Ha) as (job' & c'' & k'' & Hw' & ->).
        rewrite Hws in Hw'. congruence.
    + constructor; [exact Hk|constructor].
    + intros a Ha. exists job, c', k'. split; [reflexivity|].
      destruct (decide (a = toLowerCase job)) as [->|Hne]; [reflexivity|exfalso].
      unfold isProcessing in Ha. rewrite Hl in Ha by assumption.
      destruct (inv_locks σ Hinv a Ha) as (job' & c'' & k'' & Hw' & ->).
      rewrite Hws in Hw'. congruence.
  - (* process resumes *)
    destruct (workers σ !! i) as [[job c k|job [err|result]]|] eqn:Hw;
      simpl; try exact Hinv.
    + destruct (single_worker _ _ _ (inv_single σ Hinv) Hw) as [Hws ->].
      assert (Hfree : forall a, isProcessing (glob σ) a = false).
      { apply (no_lock_without_suspended σ Hinv). intros j c k. rewrite Hws. discriminate. }
      rewrite Hws. simpl. constructor; simpl.
      * lia.
      * intros H. now contradict H.
      * apply (inv_idle σ Hinv).
      * constructor.
      * intros a Ha. rewrite Hfree in Ha. discriminate.
    + destruct (single_worker _ _ _ (inv_single σ Hinv) Hw) as [Hws ->].
      assert (Hfree : forall a, isProcessing (glob σ) a = false).
      { apply (no_lock_without_suspended σ Hinv). intros j c k. rewrite Hws. discriminate. }
      assert (Hproc : processing (txQueue (glob σ)) = true).
      { apply (inv_processing σ Hinv). rewrite Hws. discriminate. }
      destruct (queue (txQueue (glob σ))) as [|j rest] eqn:Hq.
      * rewrite processNext_nil by assumption.
        rewrite Hws. simpl. constructor; simpl.
        -- lia.
        -- intros H. now contradict H.
        -- intros _. rewrite debugLog_txQueue. simpl. exact Hq.
        -- constructor.
        -- intros a. rewrite debugLog_isProcessing. unfold isProcessing. simpl.
           intros Ha. specialize (Hfree a). unfold isProcessing in Hfree. congruence.
      * rewrite (processNext_cons _ j rest) by assumption.
        rewrite Hws. simpl. apply sysInv_launch; [exact Hproc|exact Hfree].
Qed.

Lemma sysInv_play events h : sysInv (now_sys h) -> sysInv (now_sys (play events h)).
Proof.
  revert h. induction events as [|e events IH]; intros h Hinv; simpl; [exact Hinv|].
  apply IH. unfold turn.
  pose proof (sysInv_step e (now_sys h) Hinv) as Hstep.
  destruct (sys_step e (now_sys h)) as [σ' taken]. exact Hstep.
Qed.

Lemma sysInv_exec events now : sysInv (exec events now).
Proof. apply sysInv_play, sysInv_init. Qed.

(** ** The queue is first in, first out *)

Lemma transferWithRetry_queue job s :
  queue (txQueue (stateOf (transferWithRetry job s))) = queue (txQueue s).
Proof.
  pose proof (Spans_stateOf _ _ _ _ (transferWithRetry_respects job s)) as (Hq & _).
  exact Hq.
Qed.

(** A turn that takes a job takes the oldest waiting one, and only when
    no call of [transferWithRetry] is in flight. *)
Lemma step_takes_head σ e job :
  sysInv σ ->
  (sys_step e σ).2 = Some job ->
  Forall (fun w => inFlight w = false) (workers σ) /\
  (forall a, isProcessing (glob σ) a = false) /\
  (queue (txQueue (glob σ)) ++ accepted e σ)%list
  = job :: queue (txQueue (glob (sys_step e σ).1)).
Proof.
  intros Hinv. destruct e as [a| | |a info|n|id|i l| |type|now|line|i rep|i]; simpl;
    try discriminate.
  - destruct (isProcessing (glob σ) (toLowerCase a)) eqn:Hheld.
    { rewrite enqueueTransfer_held by assumption. discriminate. }
    destruct (processing (txQueue (glob σ))) eqn:Hproc.
    { destruct (enqueueTransfer_busy a _ Hheld Hproc) as (s' & -> & _). discriminate. }
    assert (Hnil : workers σ = []).
    { destruct (workers σ) as [|w ws] eqn:Hw; [reflexivity|].
      rewrite (inv_processing σ Hinv) in Hproc; [discriminate|congruence]. }
    destruct (enqueueTransfer_idle a _ Hheld Hproc (inv_idle σ Hinv Hproc))
      as (s' & -> & Hq & _).
    simpl. rewrite toWorker_job. intros [= <-].
    rewrite Hnil, (inv_idle σ Hinv Hproc), transferWithRetry_queue, Hq. simpl.
    repeat split; [constructor|].
    apply (no_lock_without_suspended σ Hinv). intros j c k. rewrite Hnil. discriminate.
  - destruct (workers σ !! i) as [[j c k|j result]|]; discriminate.
  - destruct (workers σ !! i) as [[j c k|j [err|result]]|] eqn:Hw; try discriminate.
    destruct (single_worker _ _ _ (inv_single σ Hinv) Hw) as [Hws ->].
    destruct (queue (txQueue (glob σ))) as [|j' rest] eqn:Hq.
    + rewrite processNext_nil by assumption. discriminate.
    + rewrite (processNext_cons _ j' rest) by assumption. simpl.
      rewrite toWorker_job. intros [= <-].
      rewrite transferWithRetry_queue, app_nil_r, Hws. simpl.
      repeat split; [repeat constructor|].
      apply (no_lock_without_suspended σ Hinv). intros j0 c k. rewrite Hws. discriminate.
Qed.

(** A turn that takes no job leaves the queue as it is, but for the job it
    may add at the back. *)
Lemma step_keeps_queue σ e :
  sysInv σ ->
  (sys_step e σ).2 = None ->
  queue (txQueue (glob (sys_step e σ).1))
  = (queue (txQueue (glob σ)) ++ accepted e σ)%list.
Proof.
  intros Hinv. destruct e as [a| | |a info|n|id|i l| |type|now|line|i rep|i]; simpl;
    rewrite ?app_nil_r; try reflexivity.
  - destruct (isProcessing (glob σ) (toLowerCase a)) eqn:Hheld.
    { rewrite enqueueTransfer_held by assumption. simpl.
      now rewrite debugLog_txQueue, app_nil_r. }
    destruct (processing (txQueue (glob σ))) eqn:Hproc.
    { destruct (enqueueTransfer_busy a _ Hheld Hproc) as (s' & -> & Hq & _). simpl.
      now rewrite Hq. }
    destruct (enqueueTransfer_idle a _ Hheld Hproc (inv_idle σ Hinv Hproc))
      as (s' & -> & _).
    simpl. rewrite toWorker_job. discriminate.
  - now rewrite resetProcessingLocks_txQueue.
  - unfold cleanupContracts. now rewrite debugLog_txQueue.
  - now rewrite selectBestProvider_txQueue.
  - destruct (workers σ !! i) as [[j c k|j result]|] eqn:Hw; try reflexivity.
    destruct (single_worker _ _ _ (inv_single σ Hinv) Hw) as [Hws ->].
    pose proof (inv_workers σ Hinv) as Hok. rewrite Hws in Hok.
    apply Forall_cons_1 in Hok as [Hok _]. specialize (Hok rep (glob σ)).
    apply Spans_stateOf in Hok as (Hq & _). intros _. exact Hq.
  - destruct (workers σ !! i) as [[j c k|j [err|result]]|] eqn:Hw; try reflexivity.
    destruct (queue (txQueue (glob σ))) as [|j' rest] eqn:Hq.
    + rewrite processNext_nil by assumption. simpl.
      now rewrite debugLog_txQueue.
    + rewrite (processNext_cons _ j' rest) by assumption. simpl.
      rewrite toWorker_job. discriminate.
Qed.

Lemma fifo_turn h e : sysInv (now_sys h) -> fifo h -> fifo (turn h e).
Proof.
  intros Hinv Hfifo. unfold fifo, turn in *.
  pose proof (step_takes_head (now_sys h) e) as Htake.
  pose proof (step_keeps_queue (now_sys h) e Hinv) as Hkeep.
  destruct (sys_step e (now_sys h)) as [σ' [job|]]; simpl in *.
  - destruct (Htake job Hinv eq_refl) as (_ & _ & Hq).
    rewrite Hfifo, <- !app_assoc, Hq. reflexivity.
  - rewrite Hkeep by reflexivity. rewrite Hfifo, app_nil_r, app_assoc. reflexivity.
Qed.

Lemma sysInv_turn h e : sysInv (now_sys h) -> sysInv (now_sys (turn h e)).
Proof.
  intros Hinv. unfold turn.
  pose proof (sysInv_step e (now_sys h) Hinv) as Hstep.
  destruct (sys_step e (now_sys h)) as [σ' taken]. exact Hstep.
Qed.

Lemma fifo_play events h :
  sysInv (now_sys h) -> fifo h -> fifo (play events h).
Proof.
  revert h. induction events as [|e events IH]; intros h Hinv Hfifo; simpl; [exact Hfifo|].
  apply IH; [apply sysInv_turn, Hinv|apply fifo_turn; assumption].
Qed.

Lemma filter_length_le {A} (f : A -> bool) (l : list A) :
  (length (List.filter f l) <= length l)%nat.
Proof.
  induction l as [|x l IH]; simpl; [lia|]. destruct (f x); simpl; lia.
Qed.

(** C2.  In every state the event loop can reach: there is at most one
    running call of [TxQueue.process], hence at most one call of
    [transferWithRetry] in flight and at most one job awaiting
    [sendTransaction]; the jobs taken from the queue are, in order, the
    jobs that were added to it (first in, first out); and a job is taken
    only when no call of [transferWithRetry] is in flight: the previous
    call has settled, and the job taken is the oldest one waiting. *)
Theorem one_transfer_in_flight (events : list Event) (now : Z) :
  let h := play events (history0 now) in
  let σ := now_sys h in
  (length (workers σ) <= 1)%nat /\
  (length (List.filter inFlight (workers σ)) <= 1)%nat /\
  (length (List.filter submitting (workers σ)) <= 1)%nat /\
  fifo h /\
  (forall e job,
      (sys_step e σ).2 = Some job ->
      Forall (fun w => inFlight w = false) (workers σ) /\
      (queue (txQueue (glob σ)) ++ accepted e σ)%list
      = job :: queue (txQueue (glob (sys_step e σ).1))).
Proof.
  intros h σ.
  assert (Hinv : sysInv σ) by apply sysInv_exec.
  pose proof (inv_single σ Hinv) as Hone.
  split; [exact Hone|].
  split; [etransitivity; [apply filter_length_le|exact Hone]|].
  split; [etransitivity; [apply filter_length_le|exact Hone]|].
  split.
  - apply fifo_play; [apply sysInv_init|reflexivity].
  - intros e job Htaken.
    destruct (step_takes_head σ e job Hinv Htaken) as (Hnone & _ & Hq). auto.
Qed.

(** C4.  The processing lock after a call of [transferWithRetry].
    For the function: from a state in which the asset's lock is not held,
    every way out of the call (any reply to any awaited operation, any
    exception, any change other handlers make while the call is
    suspended) ends with the asset's entry at [false], and no segment of
    the call touches the queue, the [processing] flag or another asset's
    lock.  For the program: in every state the event loop can reach, a
    lock is held only by the one call of [transferWithRetry] that is
    still suspended, on that call's asset; once a call has settled, with
    any result, the lock of its asset is not held; and whenever a job is
    taken from the queue no lock at all is held, so the call that starts
    never leaves through the guard of line 383. *)
Theorem lock_released_on_every_exit :
  (forall tokenAddress s,
      isProcessing s (toLowerCase tokenAddress) = false ->
      Spans (jobFrame (toLowerCase tokenAddress))
            (fun s' _ => tokenProcessing s' !! toLowerCase tokenAddress = Some false)
            s (transferWithRetry tokenAddress s)) /\
  (forall events now,
      let σ := exec events now in
      (forall a, isProcessing (glob σ) a = true ->
                 exists job c k, workers σ = [Suspended job c k] /\ a = toLowerCase job) /\
      (forall job result,
          In (Settled job result) (workers σ) ->
          isProcessing (glob σ) (toLowerCase job) = false) /\
      (forall e job,
          (sys_step e σ).2 = Some job ->
          forall a, isProcessing (glob σ) a = false)).
Proof.
  split; [apply transferWithRetry_releases|].
  intros events now σ.
  assert (Hinv : sysInv σ) by apply sysInv_exec.
  split; [apply (inv_locks σ Hinv)|]. split.
  - intros job result Hin.
    apply (no_lock_without_suspended σ Hinv).
    intros j c k Hw. rewrite Hw in Hin. simpl in Hin.
    destruct Hin as [Hin|[]]. discriminate.
  - intros e job Htaken.
    destruct (step_takes_head σ e job Hinv Htaken) as (_ & Hfree & _). exact Hfree.
Qed.

(** ** enqueueTransfer and the lock *)

(** A call on a registered asset whose lock is free takes the lock and is
    suspended at the balance read of line 401. *)
Lemma transferWithRetry_takes_lock tokenAddress s info :
  isProcessing s (toLowerCase tokenAddress) = false ->
  tokenContracts s !! toLowerCase tokenAddress = Some info ->
  exists k,
    transferWithRetry tokenAddress s =
    Await (set_tokenProcessing (insert (toLowerCase tokenAddress) true) s)
          (BalanceOf ViaWallet (toLowerCase tokenAddress)) k.
Proof.
  intros Hfree Hreg.
  unfold transferWithRetry, bind, gets. cbn [bindR]. rewrite Hfree.
  unfold modify, tryFinally, bind, transferBody, bind, gets. cbn [bindR].
  cbn [tokenContracts set_tokenProcessing]. rewrite Hreg.
  unfold bindX, bind, readBalance, bind, call, bind, await. cbn [bindR].
  eexists. reflexivity.
Qed.

(** ** Results of a computation *)

Lemma Spans_any {A} (r : Res A) s0 :
  Spans (fun _ _ => True) (fun _ _ => True) s0 r.
Proof.
  revert s0. induction r as [s a|s c k IH]; intros s0.
  - now apply Spans_Fin.
  - apply Spans_Await; auto.
Qed.

Lemma Returns_ret {A} (Q : A -> Prop) (a : A) : Q a -> Returns Q (ret a).
Proof. intros Hq s. now apply Spans_Fin. Qed.

Lemma Returns_bind {A B} (Q : B -> Prop) (m : M A) (f : A -> M B) :
  (forall a, Returns Q (f a)) -> Returns Q (bind m f).
Proof.
  intros Hf s. unfold bind.
  eapply Spans_bindR; [intros ? ? ? ? ?; exact I|apply Spans_any|].
  intros s1 a _. apply Hf.
Qed.

Lemma Spans_run {A} (G : State -> State -> Prop) (Q : State -> A -> Prop)
    s0 (r : Res A) (ω : Oracle) (t : nat) :
  Spans G Q s0 r -> Q (run r ω t).1.1 (run r ω t).1.2.
Proof.
  intros H. revert t. induction H as [s0 s a HG Hq|s0 s c k HG Hk IH]; intros t; simpl.
  - exact Hq.
  - specialize (IH (ω t c) s (S t)).
    destruct (run (k (ω t c) s) ω (S t)) as [[s' a] calls]. exact IH.
Qed.

Lemma Returns_run {A} (Q : A -> Prop) (m : M A) s ω t s' a calls :
  Returns Q m -> run (m s) ω t = (s', a, calls) -> Q a.
Proof.
  intros H Hrun. pose proof (Spans_run _ _ _ _ ω t (H s)) as Hq.
  rewrite Hrun in Hq. exact Hq.
Qed.

Ltac returns_step :=
  lazymatch goal with
  | |- Returns _ (bindX _ _) => unfold bindX
  | |- Returns _ (bind _ _) => apply Returns_bind; intros ?
  | |- Returns _ (match ?x with _ => _ end) => destruct x
  | |- Returns _ (ret _) => apply Returns_ret
  | |- Returns _ (retX _) => apply Returns_ret
  | |- Returns _ (throw _) => apply Returns_ret
  end.

(** The transaction of a confirmed attempt carries the loop's [nonce] and
    [gasPrice] and the balance read at the start of the job. *)
Lemma buildAndSend_returns addr sym bal gasPrice nonce :
  Returns (fun r => forall tx h, r = inr (tx, h) ->
                      tx_nonce tx = nonce /\ tx_gasPrice tx = gasPrice /\
                      tx_token tx = addr /\ tx_amount tx = bal)
          (buildAndSend addr sym bal gasPrice nonce).
Proof.
  unfold buildAndSend. repeat returns_step.
  all: intros tx h Heq; try discriminate.
  injection Heq as <- <-. simpl. auto.
Qed.

Lemma submitOnce_returns addr sym bal gasPrice nonce :
  Returns (fun p => forall tx h, p.2 = inr (tx, h) ->
                      tx_nonce tx = nonce /\ tx_token tx = addr /\ tx_amount tx = bal /\
                      p.1 = Some (tx_gasPrice tx) /\
                      exists estimate, tx_gasPrice tx = mulDiv estimate 120)
          (submitOnce addr sym bal gasPrice nonce).
Proof.
  unfold submitOnce. apply Returns_bind. intros [err|[estimate|]].
  - apply Returns_ret. simpl. discriminate.
  - intros s. unfold bind.
    eapply Spans_bindR; [intros ? ? ? ? ?; exact I|apply buildAndSend_returns|].
    intros s1 r Hr. apply Spans_Fin; [exact I|]. simpl.
    intros tx h ->. destruct (Hr tx h eq_refl) as (Hn & Hg & Ht & Ha).
    rewrite Hg. eauto 10.
  - apply Returns_ret. simpl. discriminate.
Qed.

(** ** One round of the retry loop *)

(** Pushes [run] through code whose next steps do not await. *)
Ltac run_simpl :=
  repeat first
    [ rewrite run_bind
    | progress cbn [modify gets retX throw ret run app length fst snd]
    | rewrite Nat.add_0_r ].

Lemma run_call c s ω t :
  run (call c s) ω t
  = (s, match ω t c with Ok v => inr v | Err msg => inl msg end, [c]).
Proof.
  unfold call, bind, await. cbn [bindR run].
  destruct (ω t c); reflexivity.
Qed.

Lemma run_telegramNotify text s ω t :
  run (telegramNotify text s) ω t
  = (afterNotify ω t text s, tt, notifications [text]).
Proof.
  unfold telegramNotify, afterNotify, notifications.
  destruct TELEGRAM; [|reflexivity].
  unfold bind, await. cbn [bindR run].
  destruct (ω t (TelegramNotify text)); reflexivity.
Qed.

Lemma notified_txQueue rep s : txQueue (notified rep s) = txQueue s.
Proof. destruct rep; simpl; [reflexivity|apply debugLog_txQueue]. Qed.


Lemma afterNotify_txQueue ω t text s : txQueue (afterNotify ω t text s) = txQueue s.
Proof. unfold afterNotify. destruct TELEGRAM; [apply notified_txQueue|reflexivity]. Qed.


Lemma debugLog_txCounters line s :
  txCounters (metrics (debugLog line s)) = txCounters (metrics s).
Proof. unfold debugLog. destruct DEBUG; reflexivity. Qed.

Lemma notified_txCounters rep s :
  txCounters (metrics (notified rep s)) = txCounters (metrics s).
Proof. destruct rep; simpl; [reflexivity|apply debugLog_txCounters]. Qed.

Lemma debugLog_clock line s : clock (debugLog line s) = clock s.
Proof. unfold debugLog. destruct DEBUG; reflexivity. Qed.

Lemma debugLog_output line s x : In x (output s) -> In x (output (debugLog line s)).
Proof.
  unfold debugLog. destruct DEBUG; [|auto]. simpl. intros H.
  apply in_or_app. now left.
Qed.


Lemma afterNotify_txCounters ω t text s :
  txCounters (metrics (afterNotify ω t text s)) = txCounters (metrics s).
Proof. unfold afterNotify. destruct TELEGRAM; [apply notified_txCounters|reflexivity]. Qed.


Lemma afterNotify_lastTxTime ω t text s :
  lastTxTime (metrics (afterNotify ω t text s)) = lastTxTime (metrics s).
Proof.
  unfold afterNotify, notified, debugLog.
  destruct TELEGRAM, (ω t (TelegramNotify text)), DEBUG; reflexivity.
Qed.



Lemma run_bumpAndDelay attempt gp n s ω t s2 gp2 n2 c2 :
  run (bumpAndDelay attempt gp n s) ω t = (s2, inr (Continue gp2 n2), c2) ->
  n2 = increment n /\ nonce (txQueue s2) = increment n /\
  c2 = [Delay (2 ^ Z.of_nat attempt * 1000)] /\
  exists g, gp = Some g /\ gp2 = Some (mulDiv g 110).
Proof.
  unfold bumpAndDelay. destruct gp as [g|]; [|discriminate].
  unfold bind, modify, await, retX, ret. cbn [bindR run].
  intros [= <- <- <- <-]. repeat split. eauto.
Qed.

(** An attempt that failed with an error the [catch] block files under
    neither 'nonce too low' nor 'insufficient funds': if the loop goes
    on, it does so with [nonce + 1], stored in [txQueue.nonce], after one
    [delay]. *)
Lemma run_onAttemptError_retry sym attempt err gp n s ω t s2 gp2 n2 c2 :
  classify err = OtherError \/ classify err = Underpriced ->
  run (onAttemptError sym attempt err gp n s) ω t = (s2, inr (Continue gp2 n2), c2) ->
  n2 = increment n /\ nonce (txQueue s2) = increment n /\
  c2 = [Delay (2 ^ Z.of_nat attempt * 1000)].
Proof.
  unfold classify, onAttemptError.
  destruct (includes err "nonce too low"); [intros [?|?]; discriminate|].
  destruct (includes err "replacement transaction underpriced").
  - intros _. rewrite run_bind. cbn [modify run].
    destruct gp as [g|]; [|discriminate]. cbn [app length].
    destruct (run (bumpAndDelay attempt (Some (mulDiv g 110)) n _) ω (t + 0)%nat)
      as [[s' r] c'] eqn:E.
    intros [= -> -> ->]. apply run_bumpAndDelay in E as (? & ? & ? & _). auto.
  - destruct (includes err "insufficient funds"); [intros [?|?]; discriminate|].
    intros _. rewrite run_bind. cbn [modify run]. cbn [app length].
    destruct (run (bumpAndDelay attempt gp n _) ω (t + 0)%nat) as [[s' r] c'] eqn:E.
    intros [= -> -> ->]. apply run_bumpAndDelay in E as (? & ? & ? & _). auto.
Qed.

Lemma run_retryLoop_failed rem addr info bal gp n s ω t s1 gp1 err c1 :
  run (submitOnce addr (symbol info) bal gp n s) ω t = (s1, (gp1, inl err), c1) ->
  run (retryLoop (S rem) addr info bal gp n s) ω t =
  let '(s2, r, c2) :=
    run (onAttemptError (symbol info) (maxRetries - rem) err gp1 n s1) ω (t + length c1)%nat in
  match r with
  | inl e => (s2, inl e, (c1 ++ c2)%list)
  | inr (Stop result) => (s2, inr result, (c1 ++ c2)%list)
  | inr (Continue gp2 n2) =>
      let '(s3, r3, c3) :=
        run (retryLoop rem addr info bal gp2 n2 s2) ω (t + length c1 + length c2)%nat in
      (s3, r3, (c1 ++ c2 ++ c3)%list)
  end.
Proof.
  intros Hsub. cbn [retryLoop]. rewrite run_bind, Hsub. cbn [snd fst].
  unfold bindX at 1. rewrite run_bind.
  destruct (run (onAttemptError _ _ _ _ _ _) ω (t + length c1)%nat) as [[s2 [e|ctl]] c2].
  - cbn [ret run]. now rewrite app_nil_r.
  - destruct ctl as [gp2 n2|result].
    + destruct (run (retryLoop rem addr info bal gp2 n2 s2) ω _) as [[s3 r3] c3].
      reflexivity.
    + cbn [retX ret run]. now rewrite app_nil_r.
Qed.

Lemma run_retryLoop_confirmed rem addr info bal gp n s ω t s1 gp1 tx hash c1 :
  run (submitOnce addr (symbol info) bal gp n s) ω t = (s1, (gp1, inr (tx, hash)), c1) ->
  run (retryLoop (S rem) addr info bal gp n s) ω t =
  (afterNotify ω (t + length c1)%nat
     (N_Transferred (symbol info) bal (decimals info) hash)
     (recordMetric "transaction" true
        (set_txQueue (set_nonce (increment n)) (log (L_Confirmed (symbol info) hash) s1))),
   inr true,
   (c1 ++ notifications [N_Transferred (symbol info) bal (decimals info) hash])%list).
Proof.
  intros Hsub. cbn [retryLoop]. rewrite run_bind, Hsub. cbn [snd fst].
  unfold onConfirmed. rewrite run_bind. cbn [modify run].
  rewrite run_bind. cbn [modify run]. rewrite run_bind. cbn [modify run].
  rewrite run_bind, run_telegramNotify. cbn [app length retX ret run].
  rewrite !Nat.add_0_r, !app_nil_r. reflexivity.
Qed.

(** ** From the call to the retry loop *)

Lemma run_fromLoop rem addr info bal gp n s ω t :
  run (fromLoop rem addr info bal gp n s) ω t =
  let '(s1, r, c1) := run (retryLoop rem addr info bal gp n s) ω t in
  (debugLog (L_Unlocked addr) (set_tokenProcessing (insert addr false) s1),
   match r with inl e => inl e | inr result => inr (Some result) end,
   c1).
Proof.
  unfold fromLoop, tryFinally, bindX, unlock. run_simpl.
  destruct (run (retryLoop rem addr info bal gp n s) ω t) as [[s1 [e|result]] c1];
    run_simpl; now rewrite ?app_nil_r.
Qed.

(** A call on a registered asset whose lock is free, whose balance read
    succeeds with a positive balance, and which finds a usable
    [txQueue.nonce], reaches the loop with that nonce and no gas price. *)
Lemma transferWithRetry_reaches_loop a s ω t info bal n :
  isProcessing s (toLowerCase a) = false ->
  tokenContracts s !! toLowerCase a = Some info ->
  ω t (BalanceOf ViaWallet (toLowerCase a)) = Ok bal ->
  0 < bal ->
  nonce (txQueue s) = Some n ->
  n <> 0 ->
  run (transferWithRetry a s) ω t =
  let '(s', r, cs) :=
    run (fromLoop maxRetries (toLowerCase a) info bal None (Some n)
           (debugLog (L_Balance (symbol info) bal)
              (set_tokenProcessing (insert (toLowerCase a) true) s))) ω (S t) in
  (s', r, BalanceOf ViaWallet (toLowerCase a) :: cs).
Proof.
  intros Hfree Hreg Hbal Hpos Hnonce Hnz.
  rewrite run_fromLoop.
  unfold transferWithRetry. run_simpl. rewrite Hfree. run_simpl.
  unfold tryFinally, transferBody. run_simpl.
  cbn [tokenContracts set_tokenProcessing]. rewrite Hreg.
  unfold bindX at 1. run_simpl.
  unfold readBalance. run_simpl. rewrite run_call, Hbal. run_simpl.
  destruct (Z.leb_spec bal 0) as [Hle|_]; [lia|].
  run_simpl. rewrite debugLog_txQueue. cbn [txQueue set_tokenProcessing].
  rewrite Hnonce. cbn [noNonce].
  destruct (Z.eqb_spec n 0) as [Hz|_]; [contradiction|].
  unfold bindX. run_simpl. rewrite debugLog_txQueue. cbn [txQueue set_tokenProcessing].
  rewrite Hnonce. rewrite Nat.add_1_r.
  destruct (run (retryLoop maxRetries (toLowerCase a) info bal None (Some n) _) ω (S t))
    as [[s1 [e|result]] c1]; unfold unlock; run_simpl; now rewrite ?app_nil_r.
Qed.

Lemma run_bindX {A B} (m : MX A) (f : A -> MX B) (ω : Oracle) (t : nat) (s : State) :
  run (bindX m f s) ω t =
  let '(s1, r, c1) := run (m s) ω t in
  match r with
  | inl e => (s1, inl e, c1)
  | inr a =>
      let '(s2, b, c2) := run (f a s1) ω (t + length c1)%nat in
      (s2, b, (c1 ++ c2)%list)
  end.
Proof.
  unfold bindX. rewrite run_bind.
  destruct (run (m s) ω t) as [[s1 [e|a]] c1]; [|reflexivity].
  cbn [ret run]. now rewrite app_nil_r.
Qed.

Ltac run_simplX :=
  repeat first
    [ rewrite run_bindX
    | rewrite run_bind
    | progress cbn [modify gets retX throw ret run app length fst snd]
    | rewrite Nat.add_0_r ].

(** The loop is the only way to a result: a call that went past the
    guard either reaches the loop test of line 425 with a positive
    balance, all five attempts left and no gas price, and goes on as
    [fromLoop] does, or it returns [undefined] or throws. *)
Lemma transferWithRetry_run_cases a s ω t :
  isProcessing s (toLowerCase a) = false ->
  (exists info bal n s0 before,
      tokenContracts s !! toLowerCase a = Some info /\ 0 < bal /\
      run (transferWithRetry a s) ω t =
      let '(s', r, cs) :=
        run (fromLoop maxRetries (toLowerCase a) info bal None n s0) ω
            (t + length before)%nat in
      (s', r, (before ++ cs)%list)) \/
  (forall result, (run (transferWithRetry a s) ω t).1.2 <> inr (Some result)).
Proof.
  intros Hfree.
  unfold transferWithRetry. run_simpl. rewrite Hfree. run_simpl.
  unfold tryFinally, transferBody, unlock. run_simpl.
  cbn [tokenContracts set_tokenProcessing].
  destruct (tokenContracts s !! toLowerCase a) as [info|] eqn:Hreg.
  2:{ right. intros result. run_simpl. intros H; discriminate H. }
  run_simplX.
  destruct (run (readBalance _ _ _) ω t) as [[s1 [e|[bal|]]] c1] eqn:Hb.
  { right. intros result. run_simpl. intros H; discriminate H. }
  2:{ right. intros result. run_simpl. intros H; discriminate H. }
  destruct (Z.leb_spec bal 0) as [Hle|Hpos].
  { right. intros result. run_simpl. intros H; discriminate H. }
  run_simplX.
  destruct (noNonce (nonce (txQueue s1))).
  - destruct (run (initNonce s1) ω (t + length c1)%nat) as [[s2 [e|[]]] c2] eqn:Hi.
    { right. intros result. run_simpl. intros H; discriminate H. }
    left. exists info, bal, (nonce (txQueue s2)), s2, (c1 ++ c2)%list.
    split; [reflexivity|]. split; [exact Hpos|].
    rewrite run_fromLoop. run_simplX. rewrite length_app, Nat.add_assoc.
    destruct (run (retryLoop _ _ _ _ _ _ _) ω _) as [[s3 [e|result]] c3];
      run_simpl; now rewrite ?app_nil_r, ?app_assoc.
  - left. exists info, bal, (nonce (txQueue s1)), s1, c1.
    split; [reflexivity|]. split; [exact Hpos|].
    rewrite run_fromLoop. run_simplX.
    destruct (run (retryLoop _ _ _ _ _ _ _) ω _) as [[s3 [e|result]] c3];
      run_simpl; now rewrite ?app_nil_r, ?app_assoc.
Qed.

(** ** The gas price of an attempt *)

(** What an attempt does, and the transaction it sends, do not depend on
    the value the [gasPrice] variable held when the attempt started: line
    430 overwrites it with a fresh reading. *)
Lemma submitOnce_overwrites_gasPrice addr sym bal gp gp' n s ω t :
  (run (submitOnce addr sym bal gp n s) ω t).1.1
  = (run (submitOnce addr sym bal gp' n s) ω t).1.1 /\
  (run (submitOnce addr sym bal gp n s) ω t).1.2.2
  = (run (submitOnce addr sym bal gp' n s) ω t).1.2.2 /\
  (run (submitOnce addr sym bal gp n s) ω t).2
  = (run (submitOnce addr sym bal gp' n s) ω t).2.
Proof.
  unfold submitOnce. rewrite !run_bind.
  destruct (run (fetchGasPrice s) ω t) as [[s0 [e|[estimate|]]] c0]; run_simpl; auto.
Qed.

(** ** Histories of updateMetrics calls *)

Lemma metricsAfter_snoc calls c m :
  metricsAfter (calls ++ [c])%list m
  = updateMetrics c.1.1 c.1.2 c.2 (metricsAfter calls m).
Proof. unfold metricsAfter. now rewrite fold_left_app. Qed.

Lemma countOf_snoc type calls c :
  countOf type (calls ++ [c])%list
  = (countOf type calls + if String.eqb c.1.1 type then 1 else 0)%nat.
Proof.
  unfold countOf. rewrite List.filter_app, length_app. simpl.
  destruct (String.eqb c.1.1 type); reflexivity.
Qed.

Lemma transactionsOf_snoc calls c :
  transactionsOf (calls ++ [c])%list
  = (transactionsOf calls ++ if String.eqb c.1.1 "transaction" then [c] else [])%list.
Proof.
  unfold transactionsOf. rewrite List.filter_app. simpl.
  destruct (String.eqb c.1.1 "transaction"); reflexivity.
Qed.

Lemma outcomes_snoc calls c :
  outcomes (calls ++ [c])%list
  = (outcomes calls ++ if String.eqb c.1.1 "transaction" then [c.1.2] else [])%list.
Proof.
  unfold outcomes. rewrite transactionsOf_snoc, map_app.
  destruct (String.eqb c.1.1 "transaction"); reflexivity.
Qed.

Lemma trailingFailures_snoc l b :
  trailingFailures (l ++ [b])%list = if b then O else S (trailingFailures l).
Proof.
  unfold trailingFailures. rewrite rev_app_distr. simpl. destruct b; reflexivity.
Qed.

(** What each field of [metrics] holds after a history of calls. *)
Lemma metricsAfter_counts calls now :
  let m := metricsAfter calls (metrics0 now) in
  totalTransactions m = Z.of_nat (length (outcomes calls)) /\
  successfulTx m = Z.of_nat (length (List.filter id (outcomes calls))) /\
  failedTx m = Z.of_nat (length (List.filter negb (outcomes calls))) /\
  consecutiveFailures m = Z.of_nat (trailingFailures (outcomes calls)) /\
  lastTxTime m = last (map snd (transactionsOf calls)) /\
  rpcFailures m = Z.of_nat (countOf "rpc_failure" calls) /\
  wsReconnections m = Z.of_nat (countOf "reconnection" calls) /\
  processingLockResets m = Z.of_nat (countOf "lock_reset" calls) /\
  startTime m = now /\
  lastHeartbeat m = now.
Proof.
  induction calls as [|[[type success] time] calls IH] using rev_ind.
  - simpl. repeat split.
  - destruct IH as (Ht & Hs & Hf & Hc & Hl & Hr & Hw & Hp & Hst & Hh).
    cbv zeta. rewrite metricsAfter_snoc, outcomes_snoc, transactionsOf_snoc, !countOf_snoc.
    cbn [fst snd]. unfold updateMetrics.
    destruct (String.eqb_spec type "transaction") as [->|_].
    { cbn [String.eqb Ascii.eqb Bool.eqb andb].
      rewrite !List.filter_app, !map_app, !length_app, trailingFailures_snoc.
      cbn [map snd]. rewrite last_snoc.
      destruct success; cbn; repeat split; try assumption; lia. }
    rewrite !app_nil_r.
    destruct (String.eqb_spec type "rpc_failure") as [->|_].
    { cbn. repeat split; try assumption; lia. }
    destruct (String.eqb_spec type "reconnection") as [->|_].
    { cbn. repeat split; try assumption; lia. }
    destruct (String.eqb_spec type "lock_reset") as [->|_].
    { cbn. repeat split; try assumption; lia. }
    rewrite !Nat.add_0_r. repeat split; assumption.
Qed.

(** X1.  The [metrics] object after any history of [updateMetrics]
    calls, from the object literal of line 42: [totalTransactions] is the
    number of ['transaction'] calls, [successfulTx] and [failedTx] the
    numbers of those with [success] true and false,
    [consecutiveFailures] the number of failed ['transaction'] calls
    since the last successful one, [lastTxTime] the time of the last
    ['transaction'] call ([null] when there was none); [rpcFailures],
    [wsReconnections] and [processingLockResets] count the calls of
    their type; [updateMetrics] writes neither [startTime] nor
    [lastHeartbeat]. *)
Theorem metrics_count_the_calls (calls : list (string * bool * Z)) (now : Z) :
  let m := metricsAfter calls (metrics0 now) in
  totalTransactions m = Z.of_nat (length (outcomes calls)) /\
  successfulTx m = Z.of_nat (length (List.filter id (outcomes calls))) /\
  failedTx m = Z.of_nat (length (List.filter negb (outcomes calls))) /\
  consecutiveFailures m = Z.of_nat (trailingFailures (outcomes calls)) /\
  lastTxTime m = last (map snd (transactionsOf calls)) /\
  rpcFailures m = Z.of_nat (countOf "rpc_failure" calls) /\
  wsReconnections m = Z.of_nat (countOf "reconnection" calls) /\
  processingLockResets m = Z.of_nat (countOf "lock_reset" calls) /\
  startTime m = now /\
  lastHeartbeat m = now.
Proof. apply metricsAfter_counts. Qed.

(** X2.  [GET /health] reports ['unhealthy'] exactly when the last five
    or more ['transaction'] calls of [updateMetrics] all reported a
    failure; calls of the other types in between do not count and do not
    reset the streak. *)
Theorem health_status_follows_the_streak (calls : list (string * bool * Z)) (now : Z) :
  (healthStatus (metricsAfter calls (metrics0 now)) = "unhealthy"
   <-> (5 <= trailingFailures (outcomes calls))%nat) /\
  (healthStatus (metricsAfter calls (metrics0 now)) = "healthy"
   <-> (trailingFailures (outcomes calls) < 5)%nat).
Proof.
  destruct (metricsAfter_counts calls now) as (_ & _ & _ & Hc & _).
  unfold healthStatus. rewrite Hc.
  destruct (Z.ltb_spec (Z.of_nat (trailingFailures (outcomes calls))) 5) as [Hlt|Hge].
  - split; split; intros H; try discriminate H; try reflexivity; lia.
  - split; split; intros H; try discriminate H; try reflexivity; lia.
Qed.

(** ** The locks that the health endpoint reports *)

Lemma heldEntries_In s a b :
  In (a, b) (heldEntries s) <-> tokenProcessing s !! a = Some true /\ b = true.
Proof.
  unfold heldEntries. rewrite List.filter_In, <- list_elem_of_In, elem_of_map_to_list.
  simpl. split.
  - intros [H ->]. auto.
  - intros [H ->]. auto.
Qed.

Lemma healthLocks_In s a : In a (healthLocks s) <-> isProcessing s a = true.
Proof.
  unfold healthLocks. rewrite in_map_iff. split.
  - intros ([a' b] & <- & Hin). apply heldEntries_In in Hin as [H _].
    unfold isProcessing. simpl. now rewrite H.
  - intros H. exists (a, true). split; [reflexivity|]. apply heldEntries_In.
    unfold isProcessing in H.
    destruct (tokenProcessing s !! a) as [[|]|]; try discriminate H. auto.
Qed.

Lemma NoDup_map_filter {A B} (f : A -> B) (p : A -> bool) (l : list A) :
  NoDup (map f l) -> NoDup (map f (List.filter p l)).
Proof.
  induction l as [|x l IH]; simpl; intros H; [constructor|].
  apply NoDup_cons in H as [Hx Hl].
  destruct (p x); simpl; [|auto].
  apply NoDup_cons. split; [|auto].
  intros Hin. apply Hx. rewrite list_elem_of_In in Hin |- *.
  apply in_map_iff in Hin as (y & Hy & Hin).
  apply List.filter_In in Hin as [Hin _]. apply in_map_iff. eauto.
Qed.

Lemma healthLocks_NoDup s : NoDup (healthLocks s).
Proof.
  unfold healthLocks, heldEntries. apply NoDup_map_filter.
  apply (NoDup_fst_map_to_list (tokenProcessing s)).
Qed.

Lemma activeLocks_length s : activeLocks s = length (healthLocks s).
Proof. unfold activeLocks, healthLocks. now rewrite length_map. Qed.

Lemma all_same_length (l : list string) a :
  NoDup l -> (forall x, In x l -> x = a) -> (length l <= 1)%nat.
Proof.
  intros Hnd Hall. destruct l as [|x [|y l]]; simpl; try lia.
  apply NoDup_cons in Hnd as [Hx _]. exfalso. apply Hx.
  rewrite (Hall x), (Hall y); simpl; auto. constructor.
Qed.

Lemma healthLocks_free s : (forall a, isProcessing s a = false) -> healthLocks s = [].
Proof.
  intros Hfree. destruct (healthLocks s) as [|a l] eqn:E; [reflexivity|].
  assert (Ha : In a (healthLocks s)) by (rewrite E; now left).
  apply healthLocks_In in Ha. rewrite Hfree in Ha. discriminate.
Qed.

(** X3.  What [GET /health] and the heartbeat report about the locks, in
    every state the event loop can reach: [activeLocks] (line 628) is 0
    or 1; an address listed under [processing.locks] (line 592) is the
    asset of the one call of [transferWithRetry] that is suspended; and
    when no call is in flight the list is empty. *)
Theorem at_most_one_active_lock (events : list Event) (now : Z) :
  let σ := exec events now in
  (activeLocks (glob σ) <= 1)%nat /\
  (forall a, In a (healthLocks (glob σ)) ->
     exists job c k, workers σ = [Suspended job c k] /\ a = toLowerCase job) /\
  (Forall (fun w => inFlight w = false) (workers σ) -> healthLocks (glob σ) = []).
Proof.
  intros σ. assert (Hinv : sysInv σ) by apply sysInv_exec.
  assert (Hheld : forall a, In a (healthLocks (glob σ)) ->
            exists job c k, workers σ = [Suspended job c k] /\ a = toLowerCase job).
  { intros a Ha. apply healthLocks_In in Ha. apply (inv_locks σ Hinv a Ha). }
  split; [|split; [exact Hheld|]].
  - rewrite activeLocks_length. revert Hheld.
    generalize (healthLocks_NoDup (glob σ)). generalize (healthLocks (glob σ)).
    intros [|a l] Hnd Hheld; [simpl; lia|].
    destruct (Hheld a (or_introl eq_refl)) as (job & c & k & Hw & _).
    apply (all_same_length _ (toLowerCase job)); [exact Hnd|].
    intros x Hx. destruct (Hheld x Hx) as (job' & c' & k' & Hw' & ->).
    rewrite Hw in Hw'. now injection Hw' as <- _ _.
  - intros Hnone. apply healthLocks_free.
    apply (no_lock_without_suspended σ Hinv). intros job c k Hw.
    rewrite Hw in Hnone. apply Forall_cons_1 in Hnone as [Hn _]. discriminate Hn.
Qed.

(** X4.  An idle queue is a quiet one.  In every state the event loop can
    reach in which [txQueue.processing] is [false]: the queue is empty,
    no call of [process] or [transferWithRetry] is running, and no lock
    is held.  Conversely a job waits in the queue, or a call is running,
    only while [processing] is set. *)
Theorem idle_queue_is_quiet (events : list Event) (now : Z) :
  let σ := exec events now in
  (processing (txQueue (glob σ)) = false ->
   queue (txQueue (glob σ)) = [] /\ workers σ = [] /\
   (forall a, isProcessing (glob σ) a = false) /\ activeLocks (glob σ) = O) /\
  (queue (txQueue (glob σ)) <> [] -> processing (txQueue (glob σ)) = true) /\
  (workers σ <> [] -> processing (txQueue (glob σ)) = true).
Proof.
  intros σ. assert (Hinv : sysInv σ) by apply sysInv_exec.
  split; [|split].
  - intros Hidle.
    assert (Hnil : workers σ = []).
    { destruct (workers σ) as [|w ws] eqn:Hw; [reflexivity|].
      rewrite (inv_processing σ Hinv) in Hidle; [discriminate|congruence]. }
    assert (Hfree : forall a, isProcessing (glob σ) a = false).
    { apply (no_lock_without_suspended σ Hinv). intros j c k. rewrite Hnil. discriminate. }
    split; [apply (inv_idle σ Hinv Hidle)|]. split; [exact Hnil|]. split; [exact Hfree|].
    rewrite activeLocks_length, healthLocks_free by exact Hfree. reflexivity.
  - intros Hq. destruct (processing (txQueue (glob σ))) eqn:E; [reflexivity|].
    now rewrite (inv_idle σ Hinv E) in Hq.
  - apply (inv_processing σ Hinv).
Qed.

(** ** A queue whose worker has gone *)

Lemma wedged_step e σ :
  wedged σ -> wedged (sys_step e σ).1 /\ (sys_step e σ).2 = None.
Proof.
  intros [Hw Hp]. unfold wedged.
  destruct e as [a| | |a info|n|id|i l| |type|now|line|i rep|i]; simpl;
    rewrite ?Hw; auto.
  - destruct (isProcessing (glob σ) (toLowerCase a)) eqn:Hheld.
    + rewrite enqueueTransfer_held by assumption. simpl.
      rewrite debugLog_txQueue. auto.
    + destruct (enqueueTransfer_busy a _ Hheld Hp) as (s' & -> & Hq & _). simpl.
      rewrite Hq. simpl. auto.
  - rewrite resetProcessingLocks_txQueue. auto.
  - unfold cleanupContracts. rewrite debugLog_txQueue. auto.
  - rewrite selectBestProvider_txQueue. auto.
Qed.

Lemma wedged_play events h q0 :
  sysInv (now_sys h) -> wedged (now_sys h) ->
  queue (txQueue (glob (now_sys h))) = (q0 ++ enqueued h)%list ->
  wedged (now_sys (play events h)) /\
  dequeued (play events h) = dequeued h /\
  queue (txQueue (glob (now_sys (play events h)))) = (q0 ++ enqueued (play events h))%list.
Proof.
  revert h. induction events as [|e events IH]; intros h Hinv Hwedged Hq; simpl; [auto|].
  pose proof (sysInv_turn h e Hinv) as Hinv'.
  destruct (wedged_step e _ Hwedged) as [Hw' Hnone].
  pose proof (step_keeps_queue _ e Hinv Hnone) as Hkeep.
  assert (Hturn : turn h e = mkHistory (sys_step e (now_sys h)).1
                    (enqueued h ++ accepted e (now_sys h))%list (dequeued h)).
  { unfold turn. destruct (sys_step e (now_sys h)) as [σ' taken]. simpl in *.
    subst taken. now rewrite app_nil_r. }
  rewrite Hturn in Hinv' |- *.
  destruct (IH _ Hinv' Hw') as (H1 & H2 & H3).
  - simpl. rewrite Hkeep, Hq. now rewrite app_assoc.
  - auto.
Qed.

(** X5.  [process] catches nothing (lines 327-338).  When a call of
    [transferWithRetry] ends by an exception, the call of [process] that
    awaited it ends too, without reaching line 336: from then on, as long
    as the program runs, [txQueue.processing] stays [true], no call of
    [process] is started, no job is ever taken from the queue, and every
    job that is accepted is added to a queue that only grows. *)
Theorem queue_wedged_after_a_throw (events : list Event) (now : Z)
    (job : string) (err : Exn) (more : list Event) :
  let σ := exec events now in
  workers σ = [Settled job (inl err)] ->
  let h := play (E_Resume 0 :: more) (mkHistory σ [] []) in
  workers (now_sys h) = [] /\
  processing (txQueue (glob (now_sys h))) = true /\
  dequeued h = [] /\
  queue (txQueue (glob (now_sys h))) = (queue (txQueue (glob σ)) ++ enqueued h)%list.
Proof.
  intros σ Hw h. subst h.
  assert (Hinv : sysInv σ) by apply sysInv_exec.
  assert (Hp : processing (txQueue (glob σ)) = true).
  { apply (inv_processing σ Hinv). rewrite Hw. discriminate. }
  pose proof (sysInv_step (E_Resume 0) σ Hinv) as Hinv1.
  assert (Hturn : turn (mkHistory σ [] []) (E_Resume 0)
                  = mkHistory (mkSys (glob σ) []) [] []).
  { unfold turn. simpl. rewrite Hw. reflexivity. }
  simpl in Hinv1. rewrite Hw in Hinv1. simpl in Hinv1.
  cbn [play fold_left]. rewrite Hturn. fold (play more (mkHistory (mkSys (glob σ) []) [] [])).
  destruct (wedged_play more (mkHistory (mkSys (glob σ) []) [] []) (queue (txQueue (glob σ))))
    as ([H1 H2] & H3 & H4); simpl; auto.
  - split; auto.
  - now rewrite app_nil_r.
Qed.

(** ** The jobs of the queue *)

Lemma enqueued_lower events h :
  Forall (fun j => toLowerCase j = j) (enqueued h) ->
  Forall (fun j => toLowerCase j = j) (enqueued (play events h)).
Proof.
  revert h. induction events as [|e events IH]; intros h H; simpl; [exact H|].
  apply IH. unfold turn. destruct (sys_step e (now_sys h)) as [σ' taken]. simpl.
  apply Forall_app. split; [exact H|].
  destruct e; simpl; try constructor.
  destruct (isProcessing _ _); constructor; [apply toLowerCase_idem|constructor].
Qed.

(** X6.  Every job that enters the queue is a lower-cased address (line
    344), so in every state the event loop can reach the jobs that wait
    and the jobs that were handed to [transferWithRetry] are lower-cased:
    the [toLowerCase] of line 381 changes none of them, and the lock a
    job takes is the lock [enqueueTransfer] tests for its asset. *)
Theorem queued_jobs_are_lower_case (events : list Event) (now : Z) :
  let h := play events (history0 now) in
  Forall (fun j => toLowerCase j = j) (queue (txQueue (glob (now_sys h)))) /\
  Forall (fun j => toLowerCase j = j) (dequeued h).
Proof.
  intros h.
  assert (Hlow : Forall (fun j => toLowerCase j = j) (enqueued h)).
  { apply enqueued_lower. constructor. }
  assert (Hfifo : fifo h) by (apply fifo_play; [apply sysInv_init|reflexivity]).
  unfold fifo in Hfifo. rewrite Hfifo in Hlow. apply Forall_app in Hlow as [Hd Hq].
  split; [exact Hq|exact Hd].
Qed.

(** ** The sweep, twice *)

Lemma heldCount_none (m : gmap string bool) :
  (forall k, m !! k <> Some true) -> heldCount m = O.
Proof.
  intros H. unfold heldCount. apply map_size_empty_iff, map_empty_filter.
  intros k x Hk Hx. simpl in Hx. subst x. exact (H k Hk).
Qed.

Lemma resetProcessingLocks_none (s : State) :
  heldCount (tokenProcessing s) = O -> resetProcessingLocks s = s.
Proof.
  intros H0. pose proof (resetProcessingLocks_lookup s) as Hlookup.
  unfold resetProcessingLocks in *.
  destruct (resetEntry_fold (tokenProcessing s) (tokenProcessing s) O) as [_ Hcount].
  destruct (map_fold resetEntry (tokenProcessing s, O) (tokenProcessing s))
    as [locks resetCount]. simpl in Hcount. subst resetCount. rewrite H0 in *.
  simpl in Hlookup |- *.
  assert (Hsame : locks = tokenProcessing s).
  { apply map_eq. intros k. rewrite Hlookup.
    pose proof (heldCount_zero _ H0 k) as Hk.
    destruct (tokenProcessing s !! k) as [[|]|]; simpl; congruence. }
  rewrite Hsame. destruct s; reflexivity.
Qed.

Lemma resetProcessingLocks_heldCount (s : State) :
  heldCount (tokenProcessing (resetProcessingLocks s)) = O.
Proof.
  apply heldCount_none. intros k. rewrite resetProcessingLocks_lookup.
  destruct (tokenProcessing s !! k); simpl; congruence.
Qed.

(** X7.  [resetProcessingLocks] is idempotent: a second sweep right after
    a sweep changes nothing, writes no line and counts no reset; and
    after a sweep the heartbeat's [activeLocks] is 0 and [GET /health]
    lists no lock. *)
Theorem resetProcessingLocks_idempotent (s : State) :
  resetProcessingLocks (resetProcessingLocks s) = resetProcessingLocks s /\
  activeLocks (resetProcessingLocks s) = O /\
  healthLocks (resetProcessingLocks s) = [].
Proof.
  split; [apply resetProcessingLocks_none, resetProcessingLocks_heldCount|].
  assert (H : healthLocks (resetProcessingLocks s) = []).
  { apply healthLocks_free, resetProcessingLocks_free. }
  split; [|exact H]. now rewrite activeLocks_length, H.
Qed.

(** ** setupContracts and the provider listeners *)

Lemma registerTokens_snoc tokens t s :
  registerTokens (tokens ++ [t])%list s = setupToken t.1 t.2 (registerTokens tokens s).
Proof. unfold registerTokens. now rewrite fold_left_app. Qed.

Lemma registerTokens_contracts tokens s k :
  tokenContracts (registerTokens tokens s) !! k
  = match last (List.filter (fun t => String.eqb (toLowerCase t.1) k) tokens) with
    | Some t => Some t.2
    | None => tokenContracts s !! k
    end.
Proof.
  induction tokens as [|t tokens IH] using rev_ind; [reflexivity|].
  rewrite registerTokens_snoc, List.filter_app. simpl.
  destruct (String.eqb_spec (toLowerCase t.1) k) as [<-|Hne].
  - rewrite last_snoc. apply lookup_insert_eq.
  - rewrite app_nil_r, lookup_insert_ne by assumption. exact IH.
Qed.

Lemma registerTokens_locks tokens s k :
  tokenProcessing (registerTokens tokens s) !! k
  = match last (List.filter (fun t => String.eqb (toLowerCase t.1) k) tokens) with
    | Some t => Some false
    | None => tokenProcessing s !! k
    end.
Proof.
  induction tokens as [|t tokens IH] using rev_ind; [reflexivity|].
  rewrite registerTokens_snoc, List.filter_app. simpl.
  destruct (String.eqb_spec (toLowerCase t.1) k) as [<-|Hne].
  - rewrite last_snoc. apply lookup_insert_eq.
  - rewrite app_nil_r, lookup_insert_ne by assumption. exact IH.
Qed.

Lemma registerTokens_txQueue tokens s : txQueue (registerTokens tokens s) = txQueue s.
Proof.
  induction tokens as [|t tokens IH] using rev_ind; [reflexivity|].
  rewrite registerTokens_snoc. exact IH.
Qed.

Lemma last_filter_In {A} (p : A -> bool) (l : list A) x :
  In x l -> p x = true -> is_Some (last (List.filter p l)).
Proof.
  intros Hin Hp. destruct (last (List.filter p l)) as [y|] eqn:E; [eauto|].
  apply last_None in E.
  assert (Hx : In x (List.filter p l)) by (apply List.filter_In; auto).
  rewrite E in Hx. destruct Hx.
Qed.

(** X8.  The tables after the loop of [setupContracts] (lines 276-280),
    for any [tokens.json].  From any state: every configured token is
    registered under its lower-cased address and its lock is free,
    whatever was held before.  When the loop follows [cleanupContracts]
    (line 268) directly: a token is registered with the decimals and
    symbol of the last entry of [tokens.json] that has its address in any
    spelling; nothing else is registered; the lock table has the same
    keys and every lock is free; the queue and the nonce are not touched. *)
Theorem setupContracts_registers_the_tokens (tokens : list (string * TokenInfo))
    (s : State) :
  (forall a info,
      In (a, info) tokens ->
      is_Some (tokenContracts (registerTokens tokens s) !! toLowerCase a) /\
      tokenProcessing (registerTokens tokens s) !! toLowerCase a = Some false) /\
  let s' := registerTokens tokens (cleanupContracts s) in
  (forall k, tokenContracts s' !! k
             = (fun t => t.2) <$>
               last (List.filter (fun t => String.eqb (toLowerCase t.1) k) tokens)) /\
  (forall k, tokenProcessing s' !! k = (fun _ => false) <$> tokenContracts s' !! k) /\
  (forall a, isProcessing s' a = false) /\
  activeLocks s' = O /\
  txQueue s' = txQueue s.
Proof.
  split.
  { intros a info Hin.
    destruct (last_filter_In (fun t => String.eqb (toLowerCase t.1) (toLowerCase a))
                tokens (a, info) Hin) as [t Ht]; [apply String.eqb_refl|].
    rewrite registerTokens_contracts, registerTokens_locks, Ht. eauto. }
  intros s'.
  assert (Hc : forall k, tokenContracts s' !! k
             = (fun t => t.2) <$>
               last (List.filter (fun t => String.eqb (toLowerCase t.1) k) tokens)).
  { intros k. subst s'. rewrite registerTokens_contracts.
    unfold cleanupContracts. rewrite debugLog_tokenContracts. simpl.
    rewrite lookup_empty. now destruct (last _). }
  assert (Hl : forall k, tokenProcessing s' !! k = (fun _ => false) <$> tokenContracts s' !! k).
  { intros k. rewrite Hc. subst s'. rewrite registerTokens_locks.
    unfold cleanupContracts. rewrite debugLog_tokenProcessing. simpl.
    rewrite lookup_empty. now destruct (last _). }
  assert (Hfree : forall a, isProcessing s' a = false).
  { intros a. unfold isProcessing. rewrite Hl. now destruct (tokenContracts s' !! a). }
  split; [exact Hc|]. split; [exact Hl|]. split; [exact Hfree|]. split.
  - rewrite activeLocks_length, healthLocks_free by exact Hfree. reflexivity.
  - subst s'. rewrite registerTokens_txQueue. unfold cleanupContracts.
    now rewrite debugLog_txQueue.
Qed.

Lemma selectBestProvider_emits s :
  (selectBestProvider s).2 = match mathMin (latencies (multiProvider s)) with
                             | Millis _ => true
                             | Infinity => false
                             end.
Proof. unfold selectBestProvider. now destruct (mathMin _). Qed.

(** X9.  [selectBestProvider] emits ['providerChanged'] whenever some
    endpoint has a finite latency, whether or not the index it selects
    differs from the one selected before (lines 184-191), and the
    listener of lines 645-650 runs [cleanupContracts] before [emit]
    returns.  So when [selectBestProvider] returns after a measurement
    that reached some endpoint, both tables are empty: no token is
    registered and no lock is held, the lock of a transfer in flight
    included, and an inbound transfer of any asset is accepted into the
    queue.  The queue, the [processing] flag and the nonce are as before.
    When no endpoint was reached nothing but the log changes. *)
Theorem provider_change_clears_the_tables (s : State) :
  ((exists j ms, latencies (multiProvider s) !! j = Some (Millis ms)) ->
   tokenContracts (selectAndEmit s) = ∅ /\
   tokenProcessing (selectAndEmit s) = ∅ /\
   (forall a, isProcessing (selectAndEmit s) a = false) /\
   (forall a ws, accepted (E_Transfer a) (mkSys (selectAndEmit s) ws) = [toLowerCase a]) /\
   txQueue (selectAndEmit s) = txQueue s) /\
  ((forall j l, latencies (multiProvider s) !! j = Some l -> l = Infinity) ->
   selectAndEmit s = log L_AllRpcsUnavailable s).
Proof.
  unfold selectAndEmit.
  pose proof (selectBestProvider_emits s) as Hemit.
  pose proof (selectBestProvider_txQueue s) as Hq.
  destruct (selectBestProvider s) as [s1 emitted] eqn:Hsel. simpl in Hemit, Hq.
  split.
  - intros (j & ms & Hj).
    destruct (mathMin (latencies (multiProvider s))) as [m|] eqn:E.
    2:{ apply mathMin_Infinity with (j := j) (x := Millis ms) in E;
          [discriminate|assumption]. }
    subst emitted. unfold onProviderChanged, cleanupContracts.
    rewrite debugLog_tokenContracts, debugLog_tokenProcessing, !debugLog_txQueue.
    simpl. rewrite debugLog_txQueue.
    assert (Hfree : forall a,
              isProcessing
                (debugLog L_CleanedUp
                   (set_tokenProcessing (fun _ => ∅)
                      (set_tokenContracts (fun _ => ∅) (debugLog L_ProviderSwitched s1)))) a
              = false).
    { intros a. rewrite debugLog_isProcessing. unfold isProcessing. simpl.
      now rewrite lookup_empty. }
    repeat split; try assumption.
    intros a ws. simpl. now rewrite Hfree.
  - intros Hall. apply mathMin_Infinity in Hall.
    unfold selectBestProvider in Hsel. rewrite Hall in Hsel.
    injection Hsel as <- <-. reflexivity.
Qed.

(** ** callWithFallback on one operation *)

Lemma debugLog_rpcFailures line s :
  rpcFailures (metrics (debugLog line s)) = rpcFailures (metrics s).
Proof. unfold debugLog. destruct DEBUG; reflexivity. Qed.

Lemma callWithFallbackFrom_defined {A} (fn : nat -> MX A) :
  forall rem i, (i + rem = RPC_COUNT)%nat -> (0 < rem)%nat ->
    Returns (fun r => r <> inr None) (callWithFallbackFrom fn i rem).
Proof.
  induction rem as [|rem IH]; intros i Hi Hpos; [lia|]. simpl.
  apply Returns_bind. intros [err|v].
  - apply Returns_bind. intros _. apply Returns_bind. intros _.
    destruct (Z.eqb_spec (Z.of_nat i) (Z.of_nat RPC_COUNT - 1)) as [Heq|Hne].
    + apply Returns_ret. discriminate.
    + apply IH; lia.
  - apply Returns_ret. discriminate.
Qed.

(** X10.  With at least one endpoint configured (line 21 refuses to start
    without one) [callWithFallback] never returns [undefined]: for any
    operation, any replies and any interference it returns the
    operation's result or throws.  So the reads of [currentBalance],
    [gasPrice], [gasEstimate] and [txResponse] that follow a fallback
    (lines 411, 436, 450, 467) never fail on [undefined]. *)
Theorem callWithFallback_never_undefined {A} (fn : nat -> MX A) :
  (0 < RPC_COUNT)%nat ->
  Returns (fun r => r <> inr None) (callWithFallback fn) /\
  forall s ω t, (run (callWithFallback fn s) ω t).1.2 <> inr None.
Proof.
  intros Hpos.
  assert (H : Returns (fun r => r <> inr None) (callWithFallback fn)).
  { apply callWithFallbackFrom_defined; lia. }
  split; [exact H|]. intros s ω t.
  destruct (run (callWithFallback fn s) ω t) as [[s' r] cs] eqn:E.
  apply (Returns_run _ _ _ _ _ _ _ _ H E).
Qed.

Lemma rpc_failure_recorded i msg s :
  let s1 := recordMetric "rpc_failure" true (debugLog (L_RpcCallFailed i msg) s) in
  rpcFailures (metrics s1) = rpcFailures (metrics s) + 1 /\
  txCounters (metrics s1) = txCounters (metrics s) /\
  txQueue s1 = txQueue s /\
  tokenProcessing s1 = tokenProcessing s.
Proof. unfold debugLog. destruct DEBUG; repeat split. Qed.

(** The operations awaited by a fallback over one operation per endpoint,
    and what it leaves in the metrics. *)
Lemma run_fallback_call (c : nat -> NetCall) ω :
  forall rem i s t s' r cs,
    (i + rem = RPC_COUNT)%nat ->
    run (callWithFallbackFrom (fun p => call (c p)) i rem s) ω t = (s', r, cs) ->
    cs = map c (seq i (length cs)) /\
    (length cs <= rem)%nat /\
    rpcFailures (metrics s')
    = rpcFailures (metrics s) + Z.of_nat (length cs)
      - match r with inr (Some _) => 1 | _ => 0 end /\
    txCounters (metrics s') = txCounters (metrics s) /\
    txQueue s' = txQueue s /\
    tokenProcessing s' = tokenProcessing s /\
    match r with
    | inr (Some v) => (0 < length cs)%nat /\
                      ω (t + length cs - 1)%nat (c (i + length cs - 1)%nat) = Ok v
    | inr None => rem = O
    | inl err => length cs = rem /\ (0 < rem)%nat /\
                 ω (t + rem - 1)%nat (c (RPC_COUNT - 1)%nat) = Err err
    end.
Proof.
  induction rem as [|rem IH]; intros i s t s' r cs Hi; cbn [callWithFallbackFrom].
  - cbn [retX ret run]. intros [= <- <- <-]. simpl. repeat split; lia.
  - rewrite run_bind, run_call.
    destruct (ω t (c i)) as [v|msg] eqn:Hrep; cbn [bind bindR modify retX throw ret run app length].
    + intros [= <- <- <-]. simpl.
      replace (t + 1 - 1)%nat with t by lia.
      replace (i + 1 - 1)%nat with i by lia.
      repeat split; try lia. exact Hrep.
    + destruct (rpc_failure_recorded i msg s) as (Hf1 & Hf2 & Hf3 & Hf4).
      destruct (Z.eqb_spec (Z.of_nat i) (Z.of_nat RPC_COUNT - 1)) as [Heq|Hne].
      * cbn [throw ret run]. intros [= <- <- <-]. cbn [length seq map].
        rewrite Hf1, Hf2, Hf3, Hf4.
        assert (rem = O) as -> by lia.
        replace (t + 1 - 1)%nat with t by lia.
        replace (RPC_COUNT - 1)%nat with i by lia.
        repeat split; try lia. exact Hrep.
      * destruct (run (callWithFallbackFrom _ (S i) rem _) ω (t + 1)%nat)
          as [[s2 r2] c2] eqn:Hrec.
        intros [= <- <- <-].
        assert (Hi' : (S i + rem = RPC_COUNT)%nat) by lia.
        destruct (IH _ _ _ _ _ _ Hi' Hrec) as (Hcs & Hlen & Hrpc & Htx & Hq & Hl & Hr).
        cbn [length app]. rewrite <- cons_seq. cbn [map]. rewrite <- Hcs.
        rewrite Hrpc, Htx, Hq, Hl, Hf1, Hf2, Hf3, Hf4.
        repeat split; try lia.
        destruct r2 as [err|[v|]].
        -- destruct Hr as (Hr1 & Hr2 & Hr3). repeat split; try lia.
           rewrite <- Hr3. f_equal. lia.
        -- destruct Hr as (Hr1 & Hr2). split; [lia|].
           rewrite <- Hr2. f_equal; [lia|f_equal; lia].
        -- lia.
Qed.

(** X11.  [callWithFallback] over an operation that makes one request per
    endpoint (the four uses in [transferWithRetry] and the one in
    [pollingBalances] are of this kind).  The requests go to the
    endpoints 0, 1, 2, ... in this order, one each, and stop at the first
    answer; [rpcFailures] grows by one for every endpoint that failed;
    the transaction counters, the queue and the locks are not touched.
    A result is the answer of the last endpoint asked; an exception is
    the error of the last endpoint of the pool, after all were asked. *)
Theorem callWithFallback_asks_in_order (c : nat -> NetCall) (ω : Oracle)
    (s : State) (t : nat) :
  let '(s', r, cs) := run (callWithFallback (fun p => call (c p)) s) ω t in
  cs = map c (seq 0 (length cs)) /\
  (length cs <= RPC_COUNT)%nat /\
  rpcFailures (metrics s')
  = rpcFailures (metrics s) + Z.of_nat (length cs)
    - match r with inr (Some _) => 1 | _ => 0 end /\
  txCounters (metrics s') = txCounters (metrics s) /\
  txQueue s' = txQueue s /\
  tokenProcessing s' = tokenProcessing s /\
  match r with
  | inr (Some v) => (0 < length cs)%nat /\
                    ω (t + length cs - 1)%nat (c (length cs - 1)%nat) = Ok v
  | inr None => RPC_COUNT = O
  | inl err => length cs = RPC_COUNT /\ (0 < RPC_COUNT)%nat /\
               ω (t + RPC_COUNT - 1)%nat (c (RPC_COUNT - 1)%nat) = Err err
  end.
Proof.
  destruct (run (callWithFallback (fun p => call (c p)) s) ω t) as [[s' r] cs] eqn:E.
  apply (run_fallback_call c ω RPC_COUNT 0 s t s' r cs eq_refl E).
Qed.

(** ** A call of transferWithRetry before the loop *)

Lemma unlocked_tokenProcessing addr s :
  tokenProcessing (unlocked addr s) = <[addr := false]> (tokenProcessing s).
Proof. unfold unlocked. now rewrite debugLog_tokenProcessing. Qed.

Lemma unlocked_txQueue addr s : txQueue (unlocked addr s) = txQueue s.
Proof. unfold unlocked. now rewrite debugLog_txQueue. Qed.

Lemma unlocked_txCounters addr s :
  txCounters (metrics (unlocked addr s)) = txCounters (metrics s).
Proof. unfold unlocked. now rewrite debugLog_txCounters. Qed.

Lemma unlocked_rpcFailures addr s :
  rpcFailures (metrics (unlocked addr s)) = rpcFailures (metrics s).
Proof. unfold unlocked. now rewrite debugLog_rpcFailures. Qed.

Lemma run_fromLoop_unlocked rem addr info bal gp n s ω t :
  run (fromLoop rem addr info bal gp n s) ω t =
  let '(s1, r, c1) := run (retryLoop rem addr info bal gp n s) ω t in
  (unlocked addr s1, match r with inl e => inl e | inr result => inr (Some result) end, c1).
Proof. apply run_fromLoop. Qed.

(** A call that found its lock free: the [try] body, then the [finally]
    block. *)
Lemma run_transferWithRetry_body a s ω t :
  isProcessing s (toLowerCase a) = false ->
  run (transferWithRetry a s) ω t =
  let '(s1, r, cs) :=
    run (transferBody (toLowerCase a)
           (set_tokenProcessing (insert (toLowerCase a) true) s)) ω t in
  (unlocked (toLowerCase a) s1, r, cs).
Proof.
  intros Hfree. unfold transferWithRetry. run_simpl. rewrite Hfree. run_simpl.
  unfold tryFinally. run_simpl.
  destruct (run (transferBody _ _) ω t) as [[s1 r] cs].
  unfold unlock. run_simpl. now rewrite app_nil_r.
Qed.

(** The call after its balance read, by the outcome of the read. *)
Lemma run_transferWithRetry_balance a s ω t info :
  isProcessing s (toLowerCase a) = false ->
  tokenContracts s !! toLowerCase a = Some info ->
  let addr := toLowerCase a in
  run (transferWithRetry a s) ω t =
  let '(s1, b, c1) :=
    run (readBalance addr (symbol info) (set_tokenProcessing (insert addr true) s)) ω t in
  match b with
  | inl e => (unlocked addr s1, inl e, c1)
  | inr None => (unlocked addr s1, inl (typeError "lte"), c1)
  | inr (Some bal) =>
      if bal <=? 0 then
        (unlocked addr (debugLog (L_NoBalance (symbol info)) s1), inr None, c1)
      else if noNonce (nonce (txQueue s1)) then
        match ω (t + length c1)%nat GetTransactionCount with
        | Err e => (unlocked addr s1, inl e, (c1 ++ [GetTransactionCount])%list)
        | Ok c =>
            let '(s', r, cs) :=
              run (fromLoop maxRetries addr info bal None (Some c)
                     (debugLog (L_InitializedNonce c)
                        (set_txQueue (set_nonce (Some c)) s1)))
                  ω (t + length c1 + 1)%nat in
            (s', r, (c1 ++ GetTransactionCount :: cs)%list)
        end
      else
        let '(s', r, cs) :=
          run (fromLoop maxRetries addr info bal None (nonce (txQueue s1)) s1)
              ω (t + length c1)%nat in
        (s', r, (c1 ++ cs)%list)
  end.
Proof.
  intros Hfree Hreg addr. subst addr.
  rewrite run_transferWithRetry_body by assumption.
  unfold transferBody. run_simpl.
  cbn [tokenContracts set_tokenProcessing]. rewrite Hreg.
  run_simplX.
  destruct (run (readBalance _ _ _) ω t) as [[s1 [e|[bal|]]] c1] eqn:Hb.
  - reflexivity.
  - destruct (Z.leb_spec bal 0) as [Hle|Hpos].
    { run_simpl. now rewrite app_nil_r. }
    run_simplX.
    destruct (noNonce (nonce (txQueue s1))).
    + unfold initNonce. run_simplX. rewrite run_call.
      destruct (ω (t + length c1)%nat GetTransactionCount) as [c|e].
      * unfold liftX. run_simplX.
        rewrite debugLog_txQueue. cbn [txQueue set_txQueue set_nonce nonce].
        rewrite run_fromLoop_unlocked.
        destruct (run (retryLoop _ _ _ _ _ _ _) ω _) as [[s3 [e|result]] c3];
          run_simpl; now rewrite ?app_nil_r.
      * reflexivity.
    + rewrite run_fromLoop_unlocked. run_simplX.
      destruct (run (retryLoop _ _ _ _ _ _ _) ω _) as [[s3 [e|result]] c3];
        run_simpl; now rewrite ?app_nil_r.
  - run_simpl. now rewrite app_nil_r.
Qed.

(** The balance read of lines 399-409: what it awaits and what it leaves
    untouched. *)
Lemma run_readBalance addr sym s ω t :
  let '(s1, b, c1) := run (readBalance addr sym s) ω t in
  txQueue s1 = txQueue s /\
  txCounters (metrics s1) = txCounters (metrics s) /\
  tokenProcessing s1 = tokenProcessing s /\
  c1 = BalanceOf ViaWallet addr
       :: map (fun p => BalanceOf (ViaProvider p) addr) (seq 0 (length c1 - 1)) /\
  (length c1 <= S RPC_COUNT)%nat /\
  match b with
  | inr (Some bal) => True
  | inr None => RPC_COUNT = O
  | inl e =>
      length c1 = S RPC_COUNT /\ (0 < RPC_COUNT)%nat /\
      ω (t + RPC_COUNT)%nat (BalanceOf (ViaProvider (RPC_COUNT - 1)) addr) = Err e /\
      rpcFailures (metrics s1) = rpcFailures (metrics s) + Z.of_nat RPC_COUNT
  end.
Proof.
  unfold readBalance. rewrite run_bind, run_call.
  destruct (ω t (BalanceOf ViaWallet addr)) as [bal|e0].
  - run_simpl. rewrite debugLog_txQueue, debugLog_txCounters, debugLog_tokenProcessing.
    repeat split; lia.
  - cbn [length app].
    pose proof (run_fallback_call (fun p => BalanceOf (ViaProvider p) addr) ω
                  RPC_COUNT 0 s (t + 1)%nat) as Hfb.
    unfold callWithFallback.
    destruct (run (callWithFallbackFrom _ 0 RPC_COUNT s) ω (t + 1)%nat) as [[s1 r] cs].
    destruct (Hfb s1 r cs eq_refl eq_refl) as (Hcs & Hlen & Hrpc & Htx & Hq & Hl & Hr).
    cbn [length]. replace (S (length cs) - 1)%nat with (length cs) by lia.
    rewrite <- Hcs.
    repeat split; try assumption; try lia.
    destruct r as [e|[v|]]; [|exact I|exact Hr].
    destruct Hr as (Hr1 & Hr2 & Hr3). repeat split; try lia.
    rewrite <- Hr3. f_equal. lia.
Qed.

(** X12.  A job for an address that is not in [tokenContracts] (no token
    of [tokens.json] has it, or the tables were just cleared): the call
    awaits nothing, writes the "not found" line, returns [undefined] and
    leaves an entry [false] for the address in the lock table, also when
    there was none; the queue, the contract table and the transaction
    counters are as before. *)
Theorem unregistered_token_is_skipped (a : string) (s : State) :
  isProcessing s (toLowerCase a) = false ->
  tokenContracts s !! toLowerCase a = None ->
  exists s',
    transferWithRetry a s = Fin s' (inr None) /\
    tokenProcessing s' = <[toLowerCase a := false]> (tokenProcessing s) /\
    In (clock s, L_TokenNotFound (toLowerCase a)) (output s') /\
    txQueue s' = txQueue s /\
    tokenContracts s' = tokenContracts s /\
    txCounters (metrics s') = txCounters (metrics s).
Proof.
  intros Hfree Hreg.
  exists (unlocked (toLowerCase a)
            (log (L_TokenNotFound (toLowerCase a))
               (set_tokenProcessing (insert (toLowerCase a) true) s))).
  split.
  - unfold transferWithRetry, bind, gets. cbn [bindR]. rewrite Hfree.
    unfold modify, tryFinally, transferBody, bind, gets. cbn [bindR].
    cbn [tokenContracts set_tokenProcessing]. rewrite Hreg. reflexivity.
  - rewrite unlocked_tokenProcessing, unlocked_txQueue, unlocked_txCounters.
    unfold unlocked. rewrite debugLog_tokenContracts. simpl.
    rewrite insert_insert_eq. repeat split.
    apply debugLog_output. simpl. apply in_or_app. right. now left.
Qed.

(** X13.  A job that finds no balance (line 411): whichever connection
    answered the balance read, the call awaits nothing after it, returns
    [undefined] with the lock released, and changes neither the nonce nor
    the queue nor the transaction counters; no transaction is built. *)
Theorem zero_balance_is_skipped (a : string) (s : State) (ω : Oracle) (t : nat)
    (info : TokenInfo) (s1 : State) (bal : Z) (c1 : list NetCall) :
  isProcessing s (toLowerCase a) = false ->
  tokenContracts s !! toLowerCase a = Some info ->
  run (readBalance (toLowerCase a) (symbol info)
         (set_tokenProcessing (insert (toLowerCase a) true) s)) ω t
  = (s1, inr (Some bal), c1) ->
  bal <= 0 ->
  exists s',
    run (transferWithRetry a s) ω t = (s', inr None, c1) /\
    tokenProcessing s' !! toLowerCase a = Some false /\
    txQueue s' = txQueue s /\
    txCounters (metrics s') = txCounters (metrics s) /\
    signedTx c1 = [] /\
    (length c1 <= S RPC_COUNT)%nat.
Proof.
  intros Hfree Hreg Hread Hle.
  pose proof (run_transferWithRetry_balance a s ω t info Hfree Hreg) as Hrun.
  pose proof (run_readBalance (toLowerCase a) (symbol info)
                (set_tokenProcessing (insert (toLowerCase a) true) s) ω t) as Hb.
  cbv zeta in Hrun. rewrite Hread in Hrun, Hb.
  destruct (Z.leb_spec bal 0) as [_|Hpos]; [|lia].
  destruct Hb as (Hq & Htx & _ & Hcs & Hlen & _).
  eexists. split; [exact Hrun|].
  rewrite unlocked_tokenProcessing, unlocked_txQueue, unlocked_txCounters.
  rewrite debugLog_txQueue, debugLog_txCounters, Hq, Htx.
  split; [apply lookup_insert_eq|]. repeat split; try assumption.
  rewrite Hcs. cbn [signedTx omap]. clear.
  generalize (seq 0 (length c1 - 1)). intros l. induction l; simpl; auto.
Qed.

(** X14.  A job that finds [txQueue.nonce] unset ([null] after a provider
    change, or 0) reads the pending transaction count before its first
    attempt (lines 416-418).  If that read fails the call ends by that
    exception with the lock released: no attempt is made, nothing is
    counted in the transaction metrics.  If it succeeds the count is
    stored in [txQueue.nonce] and the loop starts with it. *)
Theorem unset_nonce_is_read_from_the_chain (a : string) (s : State) (ω : Oracle)
    (t : nat) (info : TokenInfo) (s1 : State) (bal : Z) (c1 : list NetCall) :
  isProcessing s (toLowerCase a) = false ->
  tokenContracts s !! toLowerCase a = Some info ->
  run (readBalance (toLowerCase a) (symbol info)
         (set_tokenProcessing (insert (toLowerCase a) true) s)) ω t
  = (s1, inr (Some bal), c1) ->
  0 < bal ->
  noNonce (nonce (txQueue s)) = true ->
  (forall e, ω (t + length c1)%nat GetTransactionCount = Err e ->
     exists s',
       run (transferWithRetry a s) ω t = (s', inl e, (c1 ++ [GetTransactionCount])%list) /\
       tokenProcessing s' !! toLowerCase a = Some false /\
       txQueue s' = txQueue s /\
       txCounters (metrics s') = txCounters (metrics s)) /\
  (forall c, ω (t + length c1)%nat GetTransactionCount = Ok c ->
     run (transferWithRetry a s) ω t =
     let '(s', r, cs) :=
       run (fromLoop maxRetries (toLowerCase a) info bal None (Some c)
              (debugLog (L_InitializedNonce c) (set_txQueue (set_nonce (Some c)) s1)))
           ω (t + length c1 + 1)%nat in
     (s', r, (c1 ++ GetTransactionCount :: cs)%list)).
Proof.
  intros Hfree Hreg Hread Hpos Hnone.
  pose proof (run_transferWithRetry_balance a s ω t info Hfree Hreg) as Hrun.
  pose proof (run_readBalance (toLowerCase a) (symbol info)
                (set_tokenProcessing (insert (toLowerCase a) true) s) ω t) as Hb.
  cbv zeta in Hrun. rewrite Hread in Hrun, Hb.
  destruct (Z.leb_spec bal 0) as [Hle|_]; [lia|].
  destruct Hb as (Hq & Htx & _).
  simpl in Hq. rewrite Hq, Hnone in Hrun.
  split.
  - intros e He. rewrite He in Hrun. eexists. split; [exact Hrun|].
    rewrite unlocked_tokenProcessing, unlocked_txQueue, unlocked_txCounters, Hq, Htx.
    split; [apply lookup_insert_eq|]. split; reflexivity.
  - intros c Hc. rewrite Hc in Hrun. exact Hrun.
Qed.

(** X15.  A job whose balance cannot be read, neither through the wallet's
    connection nor through any endpoint (lines 401-408): the call asks
    the wallet's connection and then every endpoint once, and ends by the
    exception of the last endpoint.  The [finally] block has released the
    lock; nothing is counted in the transaction metrics, [rpcFailures]
    has grown by the number of endpoints, the nonce and the queue are as
    before. *)
Theorem unreadable_balance_ends_the_job (a : string) (s : State) (ω : Oracle)
    (t : nat) (info : TokenInfo) (s1 : State) (e : Exn) (c1 : list NetCall) :
  isProcessing s (toLowerCase a) = false ->
  tokenContracts s !! toLowerCase a = Some info ->
  run (readBalance (toLowerCase a) (symbol info)
         (set_tokenProcessing (insert (toLowerCase a) true) s)) ω t
  = (s1, inl e, c1) ->
  exists s',
    run (transferWithRetry a s) ω t = (s', inl e, c1) /\
    c1 = BalanceOf ViaWallet (toLowerCase a)
         :: map (fun p => BalanceOf (ViaProvider p) (toLowerCase a)) (seq 0 RPC_COUNT) /\
    ω (t + RPC_COUNT)%nat (BalanceOf (ViaProvider (RPC_COUNT - 1)) (toLowerCase a)) = Err e /\
    tokenProcessing s' !! toLowerCase a = Some false /\
    txQueue s' = txQueue s /\
    txCounters (metrics s') = txCounters (metrics s) /\
    rpcFailures (metrics s') = rpcFailures (metrics s) + Z.of_nat RPC_COUNT.
Proof.
  intros Hfree Hreg Hread.
  pose proof (run_transferWithRetry_balance a s ω t info Hfree Hreg) as Hrun.
  pose proof (run_readBalance (toLowerCase a) (symbol info)
                (set_tokenProcessing (insert (toLowerCase a) true) s) ω t) as Hb.
  cbv zeta in Hrun. rewrite Hread in Hrun, Hb.
  destruct Hb as (Hq & Htx & _ & Hcs & _ & Hlen & Hpos & Hlast & Hrpc).
  eexists. split; [exact Hrun|].
  rewrite unlocked_tokenProcessing, unlocked_txQueue, unlocked_txCounters,
    unlocked_rpcFailures, Hq, Htx, Hrpc.
  rewrite Hlen in Hcs. simpl in Hcs. rewrite Nat.sub_0_r in Hcs.
  repeat split; try assumption. apply lookup_insert_eq.
Qed.

(** ** The catch block *)

(** X16.  What the [catch] block does with 'nonce too low' (lines
    483-499).  It reads the pending transaction count [c] from the chain,
    stores it, and then falls through to the common [nonce++] of line
    496: the next attempt is built with [c + 1], not with [c], and
    [txQueue.nonce] holds [c + 1].  If the read of the count fails, the
    exception leaves the [catch] block and the loop: no further attempt
    is made. *)
Theorem nonce_too_low_skips_a_nonce (ω : Oracle) (addr : string) (info : TokenInfo)
    (bal : Z) (rem : nat) (gp n : option Z) (s : State) (t : nat)
    (s1 : State) (g : Z) (err : Exn) (c1 : list NetCall) :
  run (submitOnce addr (symbol info) bal gp n s) ω t = (s1, (Some g, inl err), c1) ->
  includes err "nonce too low" = true ->
  let failed := debugLog (L_AttemptFailed (symbol info) (maxRetries - rem) err) s1 in
  (forall c, ω (t + length c1)%nat GetTransactionCount = Ok c ->
     let s2 := set_txQueue (set_nonce (Some (c + 1)))
                 (set_txQueue (set_nonce (Some c)) failed) in
     nonce (txQueue s2) = Some (c + 1) /\
     run (retryLoop (S rem) addr info bal gp n s) ω t =
     let '(s3, r3, c3) :=
       run (retryLoop rem addr info bal (Some (mulDiv g 110)) (Some (c + 1)) s2)
           ω (t + length c1 + 2)%nat in
     (s3, r3,
      (c1 ++ [GetTransactionCount; Delay (2 ^ Z.of_nat (maxRetries - rem) * 1000)]
          ++ c3)%list)) /\
  (forall e, ω (t + length c1)%nat GetTransactionCount = Err e ->
     run (retryLoop (S rem) addr info bal gp n s) ω t
     = (failed, inl e, (c1 ++ [GetTransactionCount])%list)).
Proof.
  intros Hsub Hlow failed.
  pose proof (run_retryLoop_failed rem _ _ _ _ _ _ _ _ _ _ _ _ Hsub) as Hloop.
  unfold onAttemptError in Hloop. rewrite Hlow in Hloop.
  rewrite run_bind in Hloop. cbn [modify run] in Hloop.
  rewrite run_bindX, run_call in Hloop. cbn [app length] in Hloop.
  rewrite Nat.add_0_r in Hloop. fold failed in Hloop.
  split.
  - intros c Hc s2. split; [reflexivity|].
    rewrite Hc in Hloop. rewrite run_bind in Hloop. cbn [modify run] in Hloop.
    unfold bumpAndDelay in Hloop. rewrite run_bind in Hloop. cbn [modify run] in Hloop.
    rewrite run_bind in Hloop. cbn [await retX ret run app length increment] in Hloop.
    exact Hloop.
  - intros e He. rewrite He in Hloop. exact Hloop.
Qed.




(** ** What a job leaves alone *)

Lemma Spans_run_state {A} (G : State -> State -> Prop) `{!Transitive G}
    (Q : State -> A -> Prop) s0 (r : Res A) (ω : Oracle) (t : nat) :
  Spans G Q s0 r -> G s0 (run r ω t).1.1.
Proof.
  intros H. revert t. induction H as [s0 s a HG Hq|s0 s c k HG Hk IH]; intros t; simpl.
  - exact HG.
  - specialize (IH (ω t c) s (S t)).
    destruct (run (k (ω t c) s) ω (S t)) as [[s' a] calls]. simpl in *.
    etransitivity; eassumption.
Qed.

Section Keeping.
Context (G : State -> State -> Prop) `{!Reflexive G} `{!Transitive G}.
Hypothesis G_log : forall line s, G s (log line s).
Hypothesis G_transaction : forall success s, G s (recordMetric "transaction" success s).
Hypothesis G_rpc_failure : forall s, G s (recordMetric "rpc_failure" true s).
Hypothesis G_txQueue : forall f s, G s (set_txQueue f s).
Hypothesis G_locks : forall f s, G s (set_tokenProcessing f s).

Lemma G_debugLog line s : G s (debugLog line s).
Proof. unfold debugLog. destruct DEBUG; [apply G_log|reflexivity]. Qed.

#[local] Hint Resolve G_log G_transaction G_rpc_failure G_txQueue G_locks G_debugLog
  : respects.
#[local] Hint Extern 2 (G _ (debugLog _ (set_txQueue _ _))) =>
  (etransitivity; [apply G_txQueue|apply G_debugLog]) : respects.
#[local] Hint Extern 2 (G _ (debugLog _ (set_tokenProcessing _ _))) =>
  (etransitivity; [apply G_locks|apply G_debugLog]) : respects.

Lemma callWithFallbackFrom_keeps {A} (fn : nat -> MX A) :
  (forall i, Respects G (fn i)) ->
  forall rem i, Respects G (callWithFallbackFrom fn i rem).
Proof.
  intros Hfn. induction rem as [|rem IH]; intros i; simpl.
  - respects.
  - apply Respects_bind; frame_classes; [apply Hfn|]. intros [e|v]; [|respects].
    apply Respects_bind; frame_classes; [respects|]. intros _.
    apply Respects_bind; frame_classes; [respects|]. intros _.
    destruct (_ =? _); [respects|apply IH].
Qed.

Lemma callWithFallback_keeps (c : nat -> NetCall) :
  Respects G (callWithFallback (fun p => call (c p))).
Proof. apply callWithFallbackFrom_keeps. intros i. respects. Qed.
#[local] Hint Resolve callWithFallback_keeps : respects.

Lemma telegramNotify_keeps text : Respects G (telegramNotify text).
Proof. unfold telegramNotify. respects. Qed.
#[local] Hint Resolve telegramNotify_keeps : respects.

Lemma submitOnce_keeps a sym bal gp n : Respects G (submitOnce a sym bal gp n).
Proof. unfold submitOnce, fetchGasPrice, buildAndSend. respects. Qed.

Lemma onAttemptError_keeps sym attempt err gp n :
  Respects G (onAttemptError sym attempt err gp n).
Proof. unfold onAttemptError, bumpAndDelay. respects. Qed.

Lemma retryLoop_keeps a info bal :
  forall rem gp n, Respects G (retryLoop rem a info bal gp n).
Proof.
  induction rem as [|rem IH]; intros gp n; cbn [retryLoop].
  - unfold afterRetries. respects.
  - apply Respects_bind; frame_classes; [apply submitOnce_keeps|].
    intros [gp1 [err|[tx hash]]]; cbn [fst snd].
    + apply Respects_bindX; frame_classes; [apply onAttemptError_keeps|].
      intros [gp2 n2|result]; [apply IH|respects].
    + unfold onConfirmed. respects.
Qed.

Lemma transferBody_keeps addr : Respects G (transferBody addr).
Proof.
  unfold transferBody, readBalance, initNonce, liftX.
  respects. apply retryLoop_keeps.
Qed.

Lemma transferWithRetry_keeps a : Respects G (transferWithRetry a).
Proof.
  unfold transferWithRetry, tryFinally, transferBody, readBalance, initNonce, unlock, liftX.
  respects. apply retryLoop_keeps.
Qed.

Lemma launch_keeps job s :
  G s (stateOf (transferWithRetry job s)) /\
  workerKeeps G (toWorker job (transferWithRetry job s)).
Proof.
  pose proof (transferWithRetry_keeps job s) as H.
  destruct H as [s0 s1 r HG _|s0 s1 c k HG Hk]; simpl; auto.
Qed.

Lemma processNext_keeps s :
  G s (processNext s).1 /\
  forall w, (processNext s).2 = Some w -> workerKeeps G w.
Proof.
  unfold processNext. destruct (queue (txQueue s)) as [|job rest]; simpl.
  - split; [auto with respects|discriminate].
  - destruct (launch_keeps job (set_txQueue (set_queue rest) s)) as [HG Hw].
    split; [etransitivity; [apply G_txQueue|exact HG]|].
    now intros w [= <-].
Qed.

Lemma enqueueTransfer_keeps a s :
  G s (enqueueTransfer a s).1 /\
  forall w, (enqueueTransfer a s).2 = Some w -> workerKeeps G w.
Proof.
  unfold enqueueTransfer. destruct (isProcessing s (toLowerCase a)); simpl.
  { split; [apply G_debugLog|discriminate]. }
  unfold enqueue. rewrite debugLog_txQueue. cbn [txQueue set_txQueue processing set_queue].
  destruct (processing (txQueue s)); simpl.
  { split; [auto with respects|discriminate]. }
  unfold process.
  match goal with |- G _ (processNext ?s1).1 /\ _ =>
    destruct (processNext_keeps s1) as [HG Hw]; split; [|exact Hw];
    etransitivity; [|exact HG]
  end.
  etransitivity; [|apply G_debugLog]. etransitivity; [|apply G_txQueue].
  auto with respects.
Qed.

End Keeping.

#[local] Instance jobEffect_refl : Reflexive jobEffect.
Proof. intros s. constructor; reflexivity. Qed.

#[local] Instance jobEffect_trans : Transitive jobEffect.
Proof.
  intros s1 s2 s3 [] []. constructor; try congruence; try lia.
  etransitivity; eassumption.
Qed.

Lemma jobEffect_log line s : jobEffect s (log line s).
Proof. constructor; try reflexivity. simpl. now apply prefix_app_r. Qed.

Lemma jobEffect_transaction success s :
  jobEffect s (recordMetric "transaction" success s).
Proof. destruct success; constructor; simpl; try reflexivity; lia. Qed.

Lemma jobEffect_rpc_failure s : jobEffect s (recordMetric "rpc_failure" true s).
Proof. constructor; simpl; try reflexivity; lia. Qed.

Lemma jobEffect_txQueue f s : jobEffect s (set_txQueue f s).
Proof. constructor; reflexivity. Qed.

Lemma jobEffect_locks f s : jobEffect s (set_tokenProcessing f s).
Proof. constructor; reflexivity. Qed.

(** X20.  What a call of [transferWithRetry] never does.  In every
    segment of the call, whatever the replies and whatever other
    handlers do while it is suspended: it writes neither the provider
    selection nor the latency table, neither the contract table nor the
    cached chain id; it lowers none of [totalTransactions],
    [successfulTx], [failedTx] and [rpcFailures] and leaves [startTime],
    [wsReconnections] and [processingLockResets] as they are; and it
    only appends to the log.  Run alone, the call as a whole is within
    the same bounds. *)
Theorem job_leaves_the_rest_alone (a : string) (s : State) :
  Spans jobEffect (fun _ _ => True) s (transferWithRetry a s) /\
  forall ω t, jobEffect s (run (transferWithRetry a s) ω t).1.1.
Proof.
  assert (H : Spans jobEffect (fun _ _ => True) s (transferWithRetry a s)).
  { apply (transferWithRetry_keeps jobEffect jobEffect_log jobEffect_transaction
             jobEffect_rpc_failure jobEffect_txQueue jobEffect_locks). }
  split; [exact H|]. intros ω t. eapply Spans_run_state; [exact _|exact H].
Qed.

(** ** The selected provider *)

Lemma debugLog_multiProvider line s : multiProvider (debugLog line s) = multiProvider s.
Proof. unfold debugLog. destruct DEBUG; reflexivity. Qed.

Lemma resetProcessingLocks_multiProvider s :
  multiProvider (resetProcessingLocks s) = multiProvider s.
Proof.
  unfold resetProcessingLocks.
  destruct (map_fold resetEntry (tokenProcessing s, O) (tokenProcessing s))
    as [locks resetCount].
  destruct (Nat.ltb 0 resetCount); reflexivity.
Qed.

Lemma poolOk_same s s' : multiProvider s' = multiProvider s -> poolOk s -> poolOk s'.
Proof. unfold poolOk. now intros ->. Qed.

Lemma selectBestProvider_poolOk s : poolOk s -> poolOk (selectBestProvider s).1.
Proof.
  intros [Hlen Hidx]. unfold selectBestProvider.
  destruct (mathMin (latencies (multiProvider s))) as [m|] eqn:E; simpl.
  - unfold poolOk. rewrite debugLog_multiProvider. simpl. split; [exact Hlen|].
    destruct (mathMin_attained _ _ E) as [j Hj].
    destruct (indexOfFrom_first _ _ 0 _ Hj) as (k & Hk & Hlk & _).
    apply lookup_lt_Some in Hlk. unfold indexOf. rewrite Hk. lia.
  - split; assumption.
Qed.

Lemma poolInv_step e σ :
  poolOk (glob σ) -> Forall (workerKeeps jobEffect) (workers σ) ->
  poolOk (glob (sys_step e σ).1) /\
  Forall (workerKeeps jobEffect) (workers (sys_step e σ).1).
Proof.
  intros Hok Hws.
  destruct e as [a| | |a info|n|id|i l| |type|now|line|i rep|i]; simpl;
    try (split; [exact Hok|exact Hws]).
  - destruct (enqueueTransfer_keeps jobEffect jobEffect_log jobEffect_transaction
                jobEffect_rpc_failure jobEffect_txQueue jobEffect_locks a (glob σ))
      as [Heff Hw].
    destruct (enqueueTransfer a (glob σ)) as [s started]. simpl in *.
    split; [apply (poolOk_same _ _ (eff_pool _ _ Heff) Hok)|].
    destruct started as [w|]; simpl; [|exact Hws].
    apply Forall_app. split; [exact Hws|]. constructor; [now apply Hw|constructor].
  - split; [|exact Hws].
    apply (poolOk_same _ _ (resetProcessingLocks_multiProvider _) Hok).
  - split; [|exact Hws]. unfold cleanupContracts.
    apply (poolOk_same (glob σ)); [|exact Hok]. now rewrite debugLog_multiProvider.
  - split; [|exact Hws]. destruct Hok as [Hlen Hidx]. unfold poolOk. simpl.
    now rewrite length_insert.
  - split; [|exact Hws]. now apply selectBestProvider_poolOk.
  - destruct (workers σ !! i) as [[job c k|job result]|] eqn:Hw; simpl; auto.
    pose proof (Forall_lookup_1 _ _ _ _ Hws Hw) as Hk. simpl in Hk.
    specialize (Hk rep (glob σ)).
    split.
    + apply Spans_stateOf in Hk. apply (poolOk_same _ _ (eff_pool _ _ Hk) Hok).
    + apply Forall_insert; [exact Hws|].
      destruct Hk as [s0 s1 r HG _|s0 s1 c' k' HG Hk']; simpl; auto.
  - destruct (workers σ !! i) as [[job c k|job [err|result]]|] eqn:Hw; simpl; auto.
    + split; [exact Hok|]. now apply Forall_delete.
    + destruct (processNext_keeps jobEffect jobEffect_log jobEffect_transaction
                  jobEffect_rpc_failure jobEffect_txQueue jobEffect_locks (glob σ))
        as [Heff Hnext].
      destruct (processNext (glob σ)) as [s next]. simpl in *.
      split; [apply (poolOk_same _ _ (eff_pool _ _ Heff) Hok)|].
      destruct next as [w|]; [apply Forall_insert; auto|now apply Forall_delete].
Qed.

Lemma poolInv_play events h :
  poolOk (glob (now_sys h)) -> Forall (workerKeeps jobEffect) (workers (now_sys h)) ->
  poolOk (glob (now_sys (play events h))) /\
  Forall (workerKeeps jobEffect) (workers (now_sys (play events h))).
Proof.
  revert h. induction events as [|e events IH]; intros h Hok Hws; simpl; [auto|].
  destruct (poolInv_step e (now_sys h) Hok Hws) as [Hok' Hws'].
  apply IH; unfold turn; destruct (sys_step e (now_sys h)) as [σ' taken]; assumption.
Qed.

(** X21.  With at least one endpoint configured, in every state the event
    loop can reach the latency table has one entry for each endpoint and
    [currentIndex] is the index of one of them: [currentProvider] (line
    195) is never [undefined], whatever was measured and selected, and
    the requests of lines 430 and 460 always have an endpoint to go to. *)
Theorem selected_provider_exists (events : list Event) (now : Z) :
  (0 < RPC_COUNT)%nat ->
  let s := glob (exec events now) in
  length (latencies (multiProvider s)) = RPC_COUNT /\
  exists i, currentProvider s = Some i /\ (i < RPC_COUNT)%nat /\
            is_Some (latencies (multiProvider s) !! i).
Proof.
  intros Hpos s.
  destruct (poolInv_play events (history0 now)) as [[Hlen Hidx] _].
  - split; simpl; [apply length_replicate|lia].
  - constructor.
  - fold (exec events now) in Hlen, Hidx. fold s in Hlen, Hidx.
    split; [exact Hlen|]. exists (Z.to_nat (currentIndex (multiProvider s))).
    unfold currentProvider.
    destruct (Z.leb_spec 0 (currentIndex (multiProvider s))) as [_|?]; [|lia].
    destruct (Z.ltb_spec (currentIndex (multiProvider s)) (Z.of_nat RPC_COUNT)) as [_|?]; [|lia].
    split; [reflexivity|]. split; [lia|].
    apply lookup_lt_is_Some. lia.
Qed.

(** ** The operations of a computation, with their replies *)

Lemma Emits_mono {A} (r : Res A) (Q Q' : list (NetCall * Reply) -> A -> Prop) :
  (forall cs a, Q cs a -> Q' cs a) -> Emits r Q -> Emits r Q'.
Proof.
  revert Q Q'. induction r as [s a|s c k IH]; intros Q Q' HQ; simpl.
  - apply HQ.
  - intros H rep s'. eapply IH; [|apply H]. intros cs a. apply HQ.
Qed.

Lemma Emits_bindR {A B} (r : Res A) (f : A -> M B)
    (Q1 : list (NetCall * Reply) -> A -> Prop)
    (Q : list (NetCall * Reply) -> B -> Prop) :
  Emits r Q1 ->
  (forall cs1 a s, Q1 cs1 a -> Emits (f a s) (fun cs2 b => Q (cs1 ++ cs2)%list b)) ->
  Emits (bindR r f) Q.
Proof.
  revert Q1 Q. induction r as [s a|s c k IH]; intros Q1 Q; simpl.
  - intros H1 Hf. apply (Hf [] a s H1).
  - intros H1 Hf rep s'.
    apply (IH rep s' (fun cs a => Q1 ((c, rep) :: cs) a)
              (fun cs b => Q ((c, rep) :: cs) b)); [apply H1|].
    intros cs1 a s1 Hq. apply (Hf ((c, rep) :: cs1) a s1 Hq).
Qed.

Lemma Emits_run {A} (r : Res A) (Q : list (NetCall * Reply) -> A -> Prop) ω t :
  Emits r Q -> Q (answered ω t (run r ω t).2) (run r ω t).1.2.
Proof.
  revert Q t. induction r as [s a|s c k IH]; intros Q t; simpl.
  - auto.
  - intros H. specialize (IH (ω t c) s _ (S t) (H (ω t c) s)).
    destruct (run (k (ω t c) s) ω (S t)) as [[s' a] calls]. exact IH.
Qed.

Lemma weight_app u cs1 cs2 : weight u (cs1 ++ cs2) = (weight u cs1 + weight u cs2)%nat.
Proof. induction cs1 as [|x cs1 IH]; simpl; [reflexivity|]. rewrite IH. lia. Qed.

Lemma weight_uniform u K n (cs : list (NetCall * Reply)) :
  Forall (fun x => kindOf x.1 = K) cs -> (length cs <= n)%nat ->
  (weight u (map fst cs) <= u K * n)%nat.
Proof.
  intros H. revert n. induction H as [|x cs Hx _ IH]; intros n Hn; simpl in *; [lia|].
  destruct n as [|n]; [lia|]. specialize (IH n ltac:(lia)). rewrite Hx. nia.
Qed.

Lemma map_fst_answered ω t calls : map fst (answered ω t calls) = calls.
Proof.
  revert t. induction calls as [|c calls IH]; intros t; simpl; [reflexivity|].
  now rewrite IH.
Qed.

Lemma delaysOf_app cs1 cs2 : delaysOf (cs1 ++ cs2) = (delaysOf cs1 ++ delaysOf cs2)%list.
Proof. unfold delaysOf. apply omap_app. Qed.

Lemma delaysOf_length cs : length (delaysOf cs) = weight (only KDelay) cs.
Proof.
  induction cs as [|c cs IH]; [reflexivity|].
  destruct c; simpl; unfold delaysOf in *; simpl; auto.
Qed.

Lemma delaysOf_weight cs : weight (only KDelay) cs = O -> delaysOf cs = [].
Proof.
  induction cs as [|c cs IH]; simpl; [reflexivity|].
  destruct c; simpl; try discriminate; intros H; unfold delaysOf in *; simpl; auto.
Qed.

(** Pushes [Emits] through code up to the next branch or loop. *)
Ltac emits_simpl :=
  cbn [Emits bind bindR bindX call await modify gets ret retX throw liftX tryFinally
       fst snd].

Ltac emits_simpl_in H :=
  cbn [Emits bind bindR bindX call await modify gets ret retX throw liftX tryFinally
       fst snd] in H.

Lemma fallback_emits (c : nat -> NetCall) :
  forall rem i s,
    Emits (callWithFallbackFrom (fun p => call (c p)) i rem s)
      (fun cs r =>
         Forall (fun x => exists p, x.1 = c p) cs /\
         (length cs <= rem)%nat /\
         forall v, r = inr (Some v) -> exists p, In (c p, Ok v) cs).
Proof.
  induction rem as [|rem IH]; intros i s; cbn [callWithFallbackFrom]; emits_simpl.
  - split; [constructor|]. split; [simpl; lia|discriminate].
  - intros [v|m] s'; emits_simpl.
    + split; [repeat constructor; eauto|]. split; [simpl; lia|].
      intros v' [= <-]. exists i. now left.
    + destruct (_ =? _); emits_simpl.
      * split; [repeat constructor; eauto|]. split; [simpl; lia|discriminate].
      * eapply Emits_mono; [|apply IH]. cbn beta.
        intros cs r (Hall & Hlen & Hres).
        split; [constructor; eauto|]. split; [simpl; lia|].
        intros v Hv. destruct (Hres v Hv) as [p Hp]. exists p. now right.
Qed.

(** ** The cost of a call *)

Section Cost.
Variable u : Kind -> nat.

(** Closes a goal on the weight of the operations awaited so far. *)
Ltac cost_leaf :=
  repeat first [ rewrite map_app in *
               | rewrite weight_app in *
               | progress cbn [map weight kindOf fst retryCost] in *
               | progress unfold jobCost, attemptCost in * ];
  rewrite ?Nat.mul_succ_r in *; lia.

(** Continues after a block whose cost is given by [lemma]. *)
Ltac cost_after lemma :=
  eapply Emits_bindR; [apply lemma|]; cbn beta; intros ? ? ? ?.

(** Ends with a block whose cost is given by [lemma]. *)
Ltac cost_last lemma :=
  eapply Emits_mono; [|apply lemma]; cbn beta; intros ? ? ?.

Lemma cost_fallback (c : nat -> NetCall) K s :
  (forall p, kindOf (c p) = K) ->
  Emits (callWithFallback (fun p => call (c p)) s)
    (fun cs _ => (weight u (map fst cs) <= u K * RPC_COUNT)%nat).
Proof.
  intros HK. unfold callWithFallback.
  eapply Emits_mono; [|apply fallback_emits]. cbn beta.
  intros cs r (Hall & Hlen & _). apply weight_uniform; [|exact Hlen].
  eapply Forall_impl; [exact Hall|]. intros x [p ->]. apply HK.
Qed.

Lemma cost_telegramNotify text s :
  Emits (telegramNotify text s) (fun cs _ => (weight u (map fst cs) <= u KNotify)%nat).
Proof.
  unfold telegramNotify. destruct TELEGRAM; emits_simpl; [|cost_leaf].
  intros [v|m] s'; emits_simpl; cost_leaf.
Qed.

Lemma cost_readBalance addr sym s :
  Emits (readBalance addr sym s)
    (fun cs _ => (weight u (map fst cs) <= u KBalance * S RPC_COUNT)%nat).
Proof.
  unfold readBalance. emits_simpl. intros [v|m] s'; emits_simpl; [cost_leaf|].
  cost_last (cost_fallback (fun p => BalanceOf (ViaProvider p) addr) KBalance s'
               (fun _ => eq_refl)).
  cost_leaf.
Qed.

Lemma cost_initNonce s :
  Emits (initNonce s) (fun cs _ => (weight u (map fst cs) <= u KCount)%nat).
Proof. unfold initNonce. emits_simpl. intros [v|m] s'; emits_simpl; cost_leaf. Qed.

Lemma cost_fetchGasPrice s :
  Emits (fetchGasPrice s) (fun cs _ => (weight u (map fst cs) <= u KGasPrice * S RPC_COUNT)%nat).
Proof.
  unfold fetchGasPrice. emits_simpl. destruct (currentProvider s) as [p|]; emits_simpl.
  - intros [v|m] s'; emits_simpl; [cost_leaf|].
    cost_last (cost_fallback GetGasPrice KGasPrice s' (fun _ => eq_refl)). cost_leaf.
  - cost_last (cost_fallback GetGasPrice KGasPrice s (fun _ => eq_refl)). cost_leaf.
Qed.

Lemma cost_buildAndSend addr sym bal gp n s :
  Emits (buildAndSend addr sym bal gp n s)
    (fun cs _ =>
       (weight u (map fst cs) <= u KEstimate * S RPC_COUNT + u KPopulate + u KSign
                                 + u KSend * S RPC_COUNT + u KWait)%nat).
Proof.
  unfold buildAndSend. emits_simpl.
  assert (Hrest : forall ge s1, 
    Emits (bindX (call (PopulateTransaction addr bal)) (fun _ =>
             match ge with
             | None => throw (typeError "mul")
             | Some ge =>
                 bind (gets CHAIN_ID) (fun chain =>
                 let unsignedTx := mkTx addr bal (mulDiv ge 120) gp n chain in
                 bindX (call (SignTransaction unsignedTx)) (fun _ =>
                 bind (gets currentProvider) (fun cur =>
                 bind match cur with
                      | Some p => call (SendTransaction p unsignedTx)
                      | None => throw (typeError "sendTransaction")
                      end (fun sent =>
                 bindX match sent with
                       | inr h => retX (Some h)
                       | inl _ => callWithFallback (fun p => call (SendTransaction p unsignedTx))
                       end (fun txResponse =>
                 match txResponse with
                 | None => throw (typeError "hash")
                 | Some hash =>
                     bind (modify (log (L_TxSent sym hash gp))) (fun _ =>
                     bindX (call (WaitConfirmation hash)) (fun _ =>
                     retX (unsignedTx, hash)))
                 end)))))
             end) s1)
      (fun cs _ => (weight u (map fst cs) <= u KPopulate + u KSign + u KSend * S RPC_COUNT
                                   + u KWait)%nat)).
  { intros ge s1. emits_simpl. intros [v|m] s2; emits_simpl; [|cost_leaf].
    destruct ge as [ge|]; emits_simpl; [|cost_leaf].
    intros [v3|m3] s3; emits_simpl; [|cost_leaf].
    destruct (currentProvider s3) as [p|]; emits_simpl.
    - intros [h|m4] s4; emits_simpl.
      + intros [v5|m5] s5; emits_simpl; cost_leaf.
      + eapply Emits_bindR;
          [apply (cost_fallback (fun p => SendTransaction p _) KSend _ (fun _ => eq_refl))|].
        cbn beta. intros cs1 [e|[h|]] s5 Hcs1; emits_simpl; try cost_leaf.
        intros [v6|m6] s6; emits_simpl; cost_leaf.
    - eapply Emits_bindR;
        [apply (cost_fallback (fun p => SendTransaction p _) KSend _ (fun _ => eq_refl))|].
      cbn beta. intros cs1 [e|[h|]] s5 Hcs1; emits_simpl; try cost_leaf.
      intros [v6|m6] s6; emits_simpl; cost_leaf. }
  intros [ge|m] s1; emits_simpl.
  - pose proof (Hrest (Some ge) s1) as H. emits_simpl_in H.
    intros rep s2. eapply Emits_mono; [|apply H]. cbn beta. intros cs r Hcs. cost_leaf.
  - eapply Emits_bindR;
      [apply (cost_fallback (fun p => EstimateGas (ViaProvider p) addr bal gp n) KEstimate
                _ (fun _ => eq_refl))|].
    cbn beta. intros cs1 [e|ge] s2 Hcs1; emits_simpl; [cost_leaf|].
    pose proof (Hrest ge s2) as H. emits_simpl_in H.
    intros rep s3. eapply Emits_mono; [|apply H]. cbn beta. intros cs r Hcs. cost_leaf.
Qed.

Lemma cost_submitOnce addr sym bal gp n s :
  Emits (submitOnce addr sym bal gp n s)
    (fun cs _ => (weight u (map fst cs) <= attemptCost u)%nat).
Proof.
  unfold submitOnce. emits_simpl. cost_after cost_fetchGasPrice.
  destruct a as [err|[estimate|]]; emits_simpl; try cost_leaf.
  cost_after cost_buildAndSend. emits_simpl. cost_leaf.
Qed.

Lemma cost_onConfirmed info bal hash n s :
  Emits (onConfirmed info bal hash n s)
    (fun cs _ => (weight u (map fst cs) <= u KNotify)%nat).
Proof.
  unfold onConfirmed. emits_simpl. cost_after cost_telegramNotify. emits_simpl. cost_leaf.
Qed.

(** The [catch] block: what it costs depends on how it ends. *)
Lemma cost_onAttemptError sym attempt err gp n s :
  Emits (onAttemptError sym attempt err gp n s)
    (fun cs r =>
       match r with
       | inr (Continue _ _) => (weight u (map fst cs) <= u KCount + u KDelay)%nat
       | inr (Stop _) => (weight u (map fst cs) <= u KNotify)%nat
       | inl _ => (weight u (map fst cs) <= u KCount)%nat
       end).
Proof.
  unfold onAttemptError, bumpAndDelay. emits_simpl.
  destruct (includes err "nonce too low"); emits_simpl.
  { intros [c|e] s1; emits_simpl; [|cost_leaf].
    destruct gp as [g|]; emits_simpl; [|cost_leaf].
    intros rep s2. emits_simpl. cost_leaf. }
  destruct (includes err "replacement transaction underpriced"); emits_simpl.
  { destruct gp as [g|]; emits_simpl; [|cost_leaf].
    intros rep s2. emits_simpl. cost_leaf. }
  destruct (includes err "insufficient funds"); emits_simpl.
  { cost_after cost_telegramNotify. emits_simpl. cost_leaf. }
  destruct gp as [g|]; emits_simpl; [|cost_leaf].
  intros rep s2. emits_simpl. cost_leaf.
Qed.

Lemma cost_afterRetries sym s :
  Emits (afterRetries sym s) (fun cs _ => (weight u (map fst cs) <= u KNotify * 2)%nat).
Proof.
  unfold afterRetries. emits_simpl.
  destruct (5 <=? _).
  - cost_after cost_telegramNotify. emits_simpl.
    cost_after cost_telegramNotify. emits_simpl. cost_leaf.
  - emits_simpl. cost_after cost_telegramNotify. emits_simpl. cost_leaf.
Qed.

Lemma cost_retryLoop addr info bal :
  forall rem gp n s,
    Emits (retryLoop rem addr info bal gp n s)
      (fun cs _ => (weight u (map fst cs) <= retryCost u rem)%nat).
Proof.
  induction rem as [|rem IH]; intros gp n s; cbn [retryLoop].
  - apply cost_afterRetries.
  - emits_simpl. cost_after cost_submitOnce.
    destruct a as [gp1 [err|[tx hash]]]; emits_simpl.
    + cost_after cost_onAttemptError.
      destruct a as [e|[gp2 n2|result]]; emits_simpl; try cost_leaf.
      cost_last IH. cost_leaf.
    + cost_last cost_onConfirmed. cost_leaf.
Qed.

Lemma cost_transferBody addr s :
  Emits (transferBody addr s)
    (fun cs _ => (weight u (map fst cs) <= jobCost u)%nat).
Proof.
  unfold transferBody. emits_simpl.
  destruct (tokenContracts s !! addr) as [info|]; emits_simpl; [|cost_leaf].
  cost_after cost_readBalance.
  destruct a as [e|[bal|]]; emits_simpl; try cost_leaf.
  destruct (bal <=? 0); emits_simpl; [cost_leaf|].
  destruct (noNonce _).
  - cost_after cost_initNonce. destruct a as [e|[]]; emits_simpl; [cost_leaf|].
    cost_after cost_retryLoop. destruct a as [e|r]; emits_simpl; cost_leaf.
  - emits_simpl. cost_after cost_retryLoop. destruct a as [e|r]; emits_simpl; cost_leaf.
Qed.

Lemma cost_transferWithRetry a s :
  Emits (transferWithRetry a s)
    (fun cs _ => (weight u (map fst cs) <= jobCost u)%nat).
Proof.
  unfold transferWithRetry. emits_simpl.
  destruct (isProcessing s (toLowerCase a)); emits_simpl; [cost_leaf|].
  cost_after cost_transferBody. unfold unlock. emits_simpl. cost_leaf.
Qed.

End Cost.

Lemma signedTx_weight calls : length (signedTx calls) = weight (only KSign) calls.
Proof.
  induction calls as [|c calls IH]; [reflexivity|].
  destruct c; simpl; unfold signedTx in *; simpl; auto.
Qed.

(** X22.  What a call of [transferWithRetry] can cost, whatever the
    replies and whatever other handlers do meanwhile.  For every
    weighting of the kinds of operation, the operations the call awaits
    weigh at most [jobCost].  In particular one call signs at most 5
    transactions, sleeps at most 5 times, sends at most 2 notifications,
    reads the pending transaction count at most 6 times, and submits at
    most 5 times to the selected endpoint and to each endpoint of the
    pool. *)
Theorem job_cost_is_bounded (a : string) (s : State) :
  (forall u, Emits (transferWithRetry a s)
               (fun cs _ => (weight u (map fst cs) <= jobCost u)%nat)) /\
  forall ω t,
    let calls := (run (transferWithRetry a s) ω t).2 in
    (length (signedTx calls) <= 5)%nat /\
    (length (delaysOf calls) <= 5)%nat /\
    (weight (only KNotify) calls <= 2)%nat /\
    (weight (only KCount) calls <= 6)%nat /\
    (weight (only KSend) calls <= 5 * S RPC_COUNT)%nat /\
    (weight (only KWait) calls <= 5)%nat.
Proof.
  split; [intros u; apply cost_transferWithRetry|].
  intros ω t calls.
  assert (H : forall u, (weight u calls <= jobCost u)%nat).
  { intros u. pose proof (Emits_run _ _ ω t (cost_transferWithRetry u a s)) as H.
    cbn beta in H. now rewrite map_fst_answered in H. }
  split; [rewrite signedTx_weight; apply (H (only KSign))|].
  split; [rewrite delaysOf_length; apply (H (only KDelay))|].
  split; [apply (H (only KNotify))|].
  split; [apply (H (only KCount))|].
  split; [|apply (H (only KWait))].
  etransitivity; [apply (H (only KSend))|].
  unfold jobCost. cbn [retryCost maxRetries]. unfold attemptCost. cbn [only]. lia.
Qed.

(** ** The delays of a call *)

Lemma delaysOf_cons c cs :
  delaysOf (c :: cs) = match c with
                       | Delay ms => ms :: delaysOf cs
                       | _ => delaysOf cs
                       end.
Proof. destruct c; reflexivity. Qed.

(** Code that awaits no [delay]. *)
Lemma Emits_quiet {A} (r : Res A) :
  Emits r (fun cs _ => (weight (only KDelay) (map fst cs) <= 0)%nat) ->
  Emits r (fun cs _ => delaysOf (map fst cs) = []).
Proof.
  apply Emits_mono. intros cs _ H. apply delaysOf_weight. lia.
Qed.

Ltac sched_leaf :=
  repeat first [ rewrite map_app in *
               | rewrite delaysOf_app in *
               | rewrite delaysOf_cons in *
               | progress cbn [map fst app] in * ];
  repeat match goal with H : delaysOf _ = _ |- _ => rewrite H in * end;
  cbn [app]; try reflexivity; try apply prefix_nil.

Lemma sched_onAttemptError sym attempt err gp n s :
  Emits (onAttemptError sym attempt err gp n s)
    (fun cs r =>
       delaysOf (map fst cs) = match r with
                               | inr (Continue _ _) => [2 ^ Z.of_nat attempt * 1000]
                               | _ => []
                               end).
Proof.
  unfold onAttemptError, bumpAndDelay. emits_simpl.
  destruct (includes err "nonce too low"); emits_simpl.
  { intros [c|e] s1; emits_simpl; [|sched_leaf].
    destruct gp as [g|]; emits_simpl; [|sched_leaf].
    intros rep s2. emits_simpl. sched_leaf. }
  destruct (includes err "replacement transaction underpriced"); emits_simpl.
  { destruct gp as [g|]; emits_simpl; [|sched_leaf].
    intros rep s2. emits_simpl. sched_leaf. }
  destruct (includes err "insufficient funds"); emits_simpl.
  { eapply Emits_bindR; [apply Emits_quiet, (cost_telegramNotify (only KDelay))|].
    cbn beta. intros cs1 [] s1 H1. emits_simpl. sched_leaf. }
  destruct gp as [g|]; emits_simpl; [|sched_leaf].
  intros rep s2. emits_simpl. sched_leaf.
Qed.

Lemma sched_retryLoop addr info bal :
  forall rem gp n s,
    Emits (retryLoop rem addr info bal gp n s)
      (fun cs _ => delaysOf (map fst cs) `prefix_of` backoff rem).
Proof.
  induction rem as [|rem IH]; intros gp n s; cbn [retryLoop backoff].
  - eapply Emits_mono; [|apply Emits_quiet, (cost_afterRetries (only KDelay))].
    cbn beta. intros cs _ ->. apply prefix_nil.
  - emits_simpl.
    eapply Emits_bindR; [apply Emits_quiet, (cost_submitOnce (only KDelay))|].
    cbn beta. intros cs1 [gp1 [err|[tx hash]]] s1 H1; emits_simpl.
    + eapply Emits_bindR; [apply sched_onAttemptError|].
      cbn beta. intros cs2 [e|[gp2 n2|result]] s2 H2; emits_simpl; try sched_leaf.
      eapply Emits_mono; [|apply IH]. cbn beta. intros cs3 _ H3.
      sched_leaf. now apply prefix_cons.
    + eapply Emits_mono; [|apply Emits_quiet, (cost_onConfirmed (only KDelay))].
      cbn beta. intros cs2 _ H2. sched_leaf.
Qed.

Lemma sched_transferBody addr s :
  Emits (transferBody addr s)
    (fun cs _ => delaysOf (map fst cs) `prefix_of` backoff maxRetries).
Proof.
  unfold transferBody. emits_simpl.
  destruct (tokenContracts s !! addr) as [info|]; emits_simpl; [|sched_leaf].
  eapply Emits_bindR; [apply Emits_quiet, (cost_readBalance (only KDelay))|].
  cbn beta. intros cs1 [e|[bal|]] s1 H1; emits_simpl; try sched_leaf.
  destruct (bal <=? 0); emits_simpl; [sched_leaf|].
  destruct (noNonce _).
  - eapply Emits_bindR; [apply Emits_quiet, (cost_initNonce (only KDelay))|].
    cbn beta. intros cs2 [e|[]] s2 H2; emits_simpl; [sched_leaf|].
    eapply Emits_bindR; [apply sched_retryLoop|].
    cbn beta. intros cs3 [e|r] s3 H3; emits_simpl; sched_leaf;
      now rewrite app_nil_r.
  - emits_simpl. eapply Emits_bindR; [apply sched_retryLoop|].
    cbn beta. intros cs3 [e|r] s3 H3; emits_simpl; sched_leaf;
      now rewrite app_nil_r.
Qed.

Lemma sched_transferWithRetry a s :
  Emits (transferWithRetry a s)
    (fun cs _ => delaysOf (map fst cs) `prefix_of` backoff maxRetries).
Proof.
  unfold transferWithRetry. emits_simpl.
  destruct (isProcessing s (toLowerCase a)); emits_simpl; [sched_leaf|].
  eapply Emits_bindR; [apply sched_transferBody|].
  cbn beta. intros cs1 r s1 H1. unfold unlock. emits_simpl. now rewrite app_nil_r.
Qed.

(** X23.  The delays of a call of [transferWithRetry] (line 499),
    whatever the replies and whatever other handlers do meanwhile: the
    call sleeps 2, 4, 8, 16 and 32 seconds, in this order and each at
    most once, and stops anywhere in this sequence; it never sleeps
    longer than 62 seconds in all. *)
Theorem job_backs_off_exponentially (a : string) (s : State) :
  Emits (transferWithRetry a s)
    (fun cs _ => delaysOf (map fst cs) `prefix_of` [2000; 4000; 8000; 16000; 32000]) /\
  forall ω t,
    let delays := delaysOf (run (transferWithRetry a s) ω t).2 in
    delays `prefix_of` [2000; 4000; 8000; 16000; 32000] /\
    fold_right Z.add 0 delays <= 62000.
Proof.
  pose proof (sched_transferWithRetry a s) as H.
  change (backoff maxRetries) with [2000; 4000; 8000; 16000; 32000] in H.
  split; [exact H|]. intros ω t delays.
  pose proof (Emits_run _ _ ω t H) as Hrun. cbn beta in Hrun.
  rewrite map_fst_answered in Hrun. fold delays in Hrun.
  split; [exact Hrun|].
  destruct Hrun as [rest Hrest]. revert Hrest. generalize delays. clear.
  intros l Hrest.
  destruct l as [|d1 l]; [simpl; lia|]. injection Hrest as <- Hrest.
  destruct l as [|d2 l]; [simpl; lia|]. injection Hrest as <- Hrest.
  destruct l as [|d3 l]; [simpl; lia|]. injection Hrest as <- Hrest.
  destruct l as [|d4 l]; [simpl; lia|]. injection Hrest as <- Hrest.
  destruct l as [|d5 l]; [simpl; lia|]. injection Hrest as <- Hrest.
  destruct l as [|d6 l]; [simpl; lia|discriminate Hrest].
Qed.

(** ** What a call signs, submits and reports *)

Lemma Emits_conj {A} (r : Res A) (Q1 Q2 : list (NetCall * Reply) -> A -> Prop) :
  Emits r Q1 -> Emits r Q2 -> Emits r (fun cs a => Q1 cs a /\ Q2 cs a).
Proof.
  revert Q1 Q2. induction r as [s a|s c k IH]; intros Q1 Q2; simpl; [auto|].
  intros H1 H2 rep s'. apply (IH rep s' _ _ (H1 rep s') (H2 rep s')).
Qed.

Lemma weight_zero_In u (cs : list (NetCall * Reply)) x :
  (weight u (map fst cs) <= 0)%nat -> In x cs -> u (kindOf x.1) = O.
Proof.
  induction cs as [|y cs IH]; simpl; [tauto|].
  intros Hw [->|Hin]; [lia|]. apply IH; [lia|exact Hin].
Qed.

(** Code that neither signs nor submits. *)
Lemma Emits_signsNothing {A} (r : Res A) :
  Emits r (fun cs _ =>
             (weight (fun k => only KSign k + only KSend k)%nat (map fst cs) <= 0)%nat) ->
  Emits r (fun cs _ => signsNothing cs).
Proof.
  apply Emits_mono. intros cs _ H x Hx.
  pose proof (weight_zero_In _ _ _ H Hx) as Hk.
  destruct (kindOf x.1); simpl in Hk; split; congruence.
Qed.

Lemma signsNothing_signsOnly addr bal cs : signsNothing cs -> signsOnly addr bal cs.
Proof. intros H tx rep Hin. destruct (H _ Hin) as [Hs _]. now contradict Hs. Qed.

Lemma signsNothing_sendsSigned cs : signsNothing cs -> sendsSigned cs.
Proof. intros H p tx rep Hin. destruct (H _ Hin) as [_ Hs]. now contradict Hs. Qed.

Lemma signsNothing_nil : signsNothing [].
Proof. intros x []. Qed.

Lemma signsNothing_app cs1 cs2 :
  signsNothing cs1 -> signsNothing cs2 -> signsNothing (cs1 ++ cs2).
Proof. intros H1 H2 x Hx. apply in_app_or in Hx as [Hx|Hx]; auto. Qed.

Lemma signsOnly_app addr bal cs1 cs2 :
  signsOnly addr bal cs1 -> signsOnly addr bal cs2 -> signsOnly addr bal (cs1 ++ cs2).
Proof. intros H1 H2 tx rep Hx. apply in_app_or in Hx as [Hx|Hx]; eauto. Qed.

Lemma sendsSigned_app cs1 cs2 :
  sendsSigned cs1 -> sendsSigned cs2 -> sendsSigned (cs1 ++ cs2).
Proof.
  intros H1 H2 p tx rep Hx. apply in_app_or in Hx as [Hx|Hx].
  - destruct (H1 _ _ _ Hx) as [v Hv]. exists v. apply in_or_app. now left.
  - destruct (H2 _ _ _ Hx) as [v Hv]. exists v. apply in_or_app. now right.
Qed.

Lemma confirmed_app_l addr bal cs1 cs2 :
  confirmed addr bal cs1 -> confirmed addr bal (cs1 ++ cs2).
Proof.
  intros (tx & sig & p & h & c & H1 & H2 & H3 & H4).
  exists tx, sig, p, h, c. repeat split; try apply in_or_app; auto; tauto.
Qed.

Lemma confirmed_app_r addr bal cs1 cs2 :
  confirmed addr bal cs2 -> confirmed addr bal (cs1 ++ cs2).
Proof.
  intros (tx & sig & p & h & c & H1 & H2 & H3 & H4).
  exists tx, sig, p, h, c. repeat split; try apply in_or_app; auto; tauto.
Qed.

(** Splits a membership in a list built with [::] and [++]. *)
Ltac split_in H :=
  lazymatch type of H with
  | In _ [] => destruct H
  | In _ (_ :: _) => destruct H as [H|H]; [|split_in H]
  | In _ (_ ++ _) => apply in_app_or in H; destruct H as [H|H]; [|split_in H]
  | _ => idtac
  end.

(** Finds a member of such a list. *)
Ltac in_solve :=
  lazymatch goal with
  | |- In _ (_ :: _) => first [left; reflexivity | right; in_solve]
  | |- In _ (_ ++ _) => apply in_or_app; first [left; eassumption | right; in_solve]
  | |- In _ _ => eassumption
  end.

(** Uses what is known of the operations of a fallback. *)
Ltac in_fallback H :=
  match goal with
  | Hall : Forall _ ?cs |- _ =>
      match type of H with
      | In _ cs =>
          let p := fresh "p" in
          let Hp := fresh "Hp" in
          destruct (proj1 (List.Forall_forall _ _) Hall _ H) as [p Hp];
          cbn [fst] in Hp; try discriminate Hp
      end
  end.

(** Closes the three parts of a goal on a list of operations that is
    known up to the operations of its fallbacks. *)
Ltac safe_signs :=
  let Hin := fresh "Hin" in
  intros ? ? Hin; split_in Hin; try in_fallback Hin; try discriminate Hin;
  try (injection Hin as <- <-; split; reflexivity).

Ltac safe_sends :=
  let Hin := fresh "Hin" in
  intros ? ? ? Hin; split_in Hin; try in_fallback Hin; try discriminate Hin;
  try (injection Hin as <- <- <-; eexists; in_solve);
  try match goal with
      | Hp : SendTransaction _ _ = SendTransaction _ _ |- _ =>
          injection Hp as -> ->; eexists; in_solve
      end.

Ltac safe_result :=
  let Heq := fresh "Heq" in
  intros ? ? Heq; try discriminate Heq;
  try (injection Heq as <- <-; unfold confirmed;
       do 5 eexists;
       split; [in_solve|split; [in_solve|split; [in_solve|split; reflexivity]]]).

Ltac safe_leaf := solve [split; [safe_signs|split; [safe_sends|safe_result]]].

Lemma safe_buildAndSend addr sym bal gp n s :
  Emits (buildAndSend addr sym bal gp n s)
    (fun cs r =>
       signsOnly addr bal cs /\ sendsSigned cs /\
       forall tx h, r = inr (tx, h) -> confirmed addr bal cs).
Proof.
  unfold buildAndSend. emits_simpl.
  assert (Hrest : forall ge s1,
    Emits (bindX (call (PopulateTransaction addr bal)) (fun _ =>
             match ge with
             | None => throw (typeError "mul")
             | Some ge =>
                 bind (gets CHAIN_ID) (fun chain =>
                 let unsignedTx := mkTx addr bal (mulDiv ge 120) gp n chain in
                 bindX (call (SignTransaction unsignedTx)) (fun _ =>
                 bind (gets currentProvider) (fun cur =>
                 bind match cur with
                      | Some p => call (SendTransaction p unsignedTx)
                      | None => throw (typeError "sendTransaction")
                      end (fun sent =>
                 bindX match sent with
                       | inr h => retX (Some h)
                       | inl _ => callWithFallback (fun p => call (SendTransaction p unsignedTx))
                       end (fun txResponse =>
                 match txResponse with
                 | None => throw (typeError "hash")
                 | Some hash =>
                     bind (modify (log (L_TxSent sym hash gp))) (fun _ =>
                     bindX (call (WaitConfirmation hash)) (fun _ =>
                     retX (unsignedTx, hash)))
                 end)))))
             end) s1)
      (fun cs r =>
         signsOnly addr bal cs /\ sendsSigned cs /\
         forall tx h, r = inr (tx, h) -> confirmed addr bal cs)).
  { intros ge s1. emits_simpl. intros [v|m] s2; emits_simpl; [|safe_leaf].
    destruct ge as [ge|]; emits_simpl; [|safe_leaf].
    intros [v3|m3] s3; emits_simpl; [|safe_leaf].
    destruct (currentProvider s3) as [p|]; emits_simpl.
    - intros [h|m4] s4; emits_simpl.
      + intros [v5|m5] s5; emits_simpl; safe_leaf.
      + eapply Emits_bindR; [apply fallback_emits|].
        cbn beta. intros cs1 [e|[h|]] s5 (Hall & _ & Hres); emits_simpl;
          try safe_leaf.
        destruct (Hres h eq_refl) as [p' Hp'].
        intros [v6|m6] s6; emits_simpl; safe_leaf.
    - eapply Emits_bindR; [apply fallback_emits|].
      cbn beta. intros cs1 [e|[h|]] s5 (Hall & _ & Hres); emits_simpl;
        try safe_leaf.
      destruct (Hres h eq_refl) as [p' Hp'].
      intros [v6|m6] s6; emits_simpl; safe_leaf. }
  assert (Hext : forall (x : NetCall * Reply) cs (r : Exn + Tx * Z),
            kindOf x.1 = KEstimate ->
            (signsOnly addr bal cs /\ sendsSigned cs /\
             forall tx h, r = inr (tx, h) -> confirmed addr bal cs) ->
            signsOnly addr bal (x :: cs) /\ sendsSigned (x :: cs) /\
            forall tx h, r = inr (tx, h) -> confirmed addr bal (x :: cs)).
  { intros x cs r Hx (H1 & H2 & H3). split; [|split].
    - intros tx rep [->|Hin]; [discriminate Hx|eauto].
    - intros p tx rep [->|Hin]; [discriminate Hx|].
      destruct (H2 _ _ _ Hin) as [v Hv]. exists v. now right.
    - intros tx h Hr. apply (confirmed_app_r _ _ [x]). eauto. }
  intros [ge|m] s1; emits_simpl.
  - pose proof (Hrest (Some ge) s1) as H. emits_simpl_in H.
    intros rep s2. eapply Emits_mono; [|apply H]. cbn beta.
    intros cs r Hcs. apply Hext; [reflexivity|exact Hcs].
  - eapply Emits_bindR; [apply fallback_emits|].
    cbn beta. intros cs1 [e|ge] s2 (Hall & _ & _); emits_simpl; [safe_leaf|].
    pose proof (Hrest ge s2) as H. emits_simpl_in H.
    intros rep s3. eapply Emits_mono; [|apply H]. cbn beta.
    intros cs r (H1 & H2 & H3). apply Hext; [reflexivity|].
    assert (Hnone : signsNothing cs1).
    { intros x Hx. destruct (proj1 (List.Forall_forall _ _) Hall _ Hx) as [p ->].
      split; discriminate. }
    split; [|split].
    + apply signsOnly_app; [now apply signsNothing_signsOnly|exact H1].
    + apply sendsSigned_app; [now apply signsNothing_sendsSigned|exact H2].
    + intros tx h Hr. apply confirmed_app_r. eauto.
Qed.

Lemma Emits_any {A} (r : Res A) : Emits r (fun _ _ => True).
Proof.
  assert (H : forall Q : list (NetCall * Reply) -> A -> Prop,
            (forall cs a, Q cs a) -> Emits r Q).
  { induction r as [s a|s c k IH]; intros Q HQ; simpl; [apply HQ|].
    intros rep s'. apply IH. intros cs a. apply HQ. }
  now apply H.
Qed.

Lemma safe_submitOnce addr sym bal gp n s :
  Emits (submitOnce addr sym bal gp n s)
    (fun cs r =>
       signsOnly addr bal cs /\ sendsSigned cs /\
       forall tx h, r.2 = inr (tx, h) -> confirmed addr bal cs).
Proof.
  unfold submitOnce. emits_simpl.
  eapply Emits_bindR; [apply Emits_signsNothing, cost_fetchGasPrice|].
  cbn beta. intros cs1 [err|[estimate|]] s1 H1; emits_simpl.
  - rewrite app_nil_r. split; [now apply signsNothing_signsOnly|].
    split; [now apply signsNothing_sendsSigned|]. intros tx h Hr. discriminate Hr.
  - eapply Emits_bindR; [apply safe_buildAndSend|].
    cbn beta. intros cs2 r s2 (Hs & Hd & Hc). emits_simpl. rewrite app_nil_r.
    split; [apply signsOnly_app; [now apply signsNothing_signsOnly|exact Hs]|].
    split; [apply sendsSigned_app; [now apply signsNothing_sendsSigned|exact Hd]|].
    intros tx h Hr. apply confirmed_app_r. eauto.
  - rewrite app_nil_r. split; [now apply signsNothing_signsOnly|].
    split; [now apply signsNothing_sendsSigned|]. intros tx h Hr. discriminate Hr.
Qed.

(** The [catch] block signs and submits nothing, and never reports
    success. *)
Lemma safe_onAttemptError sym attempt err gp n s :
  Emits (onAttemptError sym attempt err gp n s)
    (fun cs r => signsNothing cs /\ r <> inr (Stop true)).
Proof.
  apply Emits_conj.
  - apply Emits_signsNothing.
    eapply Emits_mono; [|apply cost_onAttemptError]. cbn beta.
    intros cs [e|[gp2 n2|result]] H; exact H.
  - unfold onAttemptError, bumpAndDelay. emits_simpl.
    destruct (includes err "nonce too low"); emits_simpl.
    { intros [c|e] s1; emits_simpl; [|discriminate].
      destruct gp as [g|]; emits_simpl; [|discriminate].
      intros rep s2. emits_simpl. discriminate. }
    destruct (includes err "replacement transaction underpriced"); emits_simpl.
    { destruct gp as [g|]; emits_simpl; [|discriminate].
      intros rep s2. emits_simpl. discriminate. }
    destruct (includes err "insufficient funds"); emits_simpl.
    { eapply Emits_bindR; [apply Emits_any|].
      cbn beta. intros cs1 [] s1 _. emits_simpl. discriminate. }
    destruct gp as [g|]; emits_simpl; [|discriminate].
    intros rep s2. emits_simpl. discriminate.
Qed.

Lemma afterRetries_result sym s :
  Emits (afterRetries sym s) (fun _ r => r = inr false).
Proof.
  unfold afterRetries. emits_simpl. destruct (5 <=? _).
  - eapply Emits_bindR; [apply Emits_any|]. cbn beta. intros cs1 [] s1 _. emits_simpl.
    eapply Emits_bindR; [apply Emits_any|]. cbn beta. intros cs2 [] s2 _. emits_simpl.
    reflexivity.
  - emits_simpl.
    eapply Emits_bindR; [apply Emits_any|]. cbn beta. intros cs2 [] s2 _. emits_simpl.
    reflexivity.
Qed.

Lemma safe_retryLoop addr info bal :
  forall rem gp n s,
    Emits (retryLoop rem addr info bal gp n s)
      (fun cs r =>
         signsOnly addr bal cs /\ sendsSigned cs /\
         (r = inr true -> confirmed addr bal cs)).
Proof.
  induction rem as [|rem IH]; intros gp n s; cbn [retryLoop].
  - eapply Emits_mono; [|apply Emits_conj;
                          [apply Emits_signsNothing, cost_afterRetries|
                           apply afterRetries_result]].
    cbn beta. intros cs r [Hnone ->].
    split; [now apply signsNothing_signsOnly|].
    split; [now apply signsNothing_sendsSigned|]. intros H. discriminate H.
  - emits_simpl. eapply Emits_bindR; [apply safe_submitOnce|].
    cbn beta. intros cs1 [gp1 [err|[tx hash]]] s1 (Hs1 & Hd1 & Hc1); emits_simpl.
    + eapply Emits_bindR; [apply safe_onAttemptError|].
      cbn beta. intros cs2 r2 s2 [Hnone Hstop].
      assert (Hs12 : signsOnly addr bal (cs1 ++ cs2)).
      { apply signsOnly_app; [exact Hs1|now apply signsNothing_signsOnly]. }
      assert (Hd12 : sendsSigned (cs1 ++ cs2)).
      { apply sendsSigned_app; [exact Hd1|now apply signsNothing_sendsSigned]. }
      destruct r2 as [e|[gp2 n2|result]]; emits_simpl.
      * rewrite app_nil_r. split; [exact Hs12|]. split; [exact Hd12|].
        intros H. discriminate H.
      * eapply Emits_mono; [|apply IH]. cbn beta. intros cs3 r (Hs3 & Hd3 & Hc3).
        rewrite app_assoc.
        split; [now apply signsOnly_app|]. split; [now apply sendsSigned_app|].
        intros Hr. apply confirmed_app_r. auto.
      * rewrite app_nil_r. split; [exact Hs12|]. split; [exact Hd12|].
        intros [= ->]. now contradict Hstop.
    + eapply Emits_mono; [|apply Emits_signsNothing, cost_onConfirmed].
      cbn beta. intros cs2 r Hnone.
      split; [apply signsOnly_app; [exact Hs1|now apply signsNothing_signsOnly]|].
      split; [apply sendsSigned_app; [exact Hd1|now apply signsNothing_sendsSigned]|].
      intros _. apply confirmed_app_l. apply (Hc1 tx hash). reflexivity.
Qed.

Lemma safe_readBalance addr sym s :
  Emits (readBalance addr sym s)
    (fun cs r =>
       signsNothing cs /\
       forall bal, r = inr (Some bal) -> exists via, In (BalanceOf via addr, Ok bal) cs).
Proof.
  apply Emits_conj; [apply Emits_signsNothing, cost_readBalance|].
  unfold readBalance. emits_simpl. intros [bal|e] s1; emits_simpl.
  - intros b [= <-]. exists ViaWallet. now left.
  - eapply Emits_mono; [|apply fallback_emits]. cbn beta.
    intros cs r (_ & _ & Hres) bal Hr. destruct (Hres bal Hr) as [p Hp].
    exists (ViaProvider p). now right.
Qed.

(** What the [try] body signs, submits and reports. *)
Lemma safe_transferBody addr s :
  Emits (transferBody addr s)
    (fun cs r =>
       sendsSigned cs /\
       (forall tx rep,
           In (SignTransaction tx, rep) cs ->
           tx_token tx = addr /\ 0 < tx_amount tx /\
           exists via, In (BalanceOf via addr, Ok (tx_amount tx)) cs) /\
       (r = inr (Some true) -> exists bal, 0 < bal /\ confirmed addr bal cs)).
Proof.
  assert (Hquiet : forall (cs : list (NetCall * Reply)) (r : Exn + option bool),
            signsNothing cs -> r <> inr (Some true) ->
            sendsSigned cs /\
            (forall tx rep,
                In (SignTransaction tx, rep) cs ->
                tx_token tx = addr /\ 0 < tx_amount tx /\
                exists via, In (BalanceOf via addr, Ok (tx_amount tx)) cs) /\
            (r = inr (Some true) -> exists bal, 0 < bal /\ confirmed addr bal cs)).
  { intros cs r Hnone Hr. split; [now apply signsNothing_sendsSigned|]. split.
    - intros tx rep Hin. destruct (Hnone _ Hin) as [Hk _]. now contradict Hk.
    - intros H. now contradict Hr. }
  unfold transferBody. emits_simpl.
  destruct (tokenContracts s !! addr) as [info|]; emits_simpl.
  2:{ apply Hquiet; [apply signsNothing_nil|discriminate]. }
  eapply Emits_bindR; [apply safe_readBalance|].
  cbn beta. intros cs1 [e|[bal|]] s1 [Hnone1 Hbal]; emits_simpl.
  1,3: rewrite app_nil_r; apply Hquiet; [exact Hnone1|discriminate].
  destruct (Z.leb_spec bal 0) as [_|Hpos]; emits_simpl.
  { rewrite app_nil_r. apply Hquiet; [exact Hnone1|discriminate]. }
  destruct (Hbal bal eq_refl) as [via Hvia].
  assert (Hloop : forall cs2 s2 n,
            signsNothing cs2 ->
            Emits (bindR (retryLoop maxRetries addr info bal None n s2)
                     (fun r => match r with
                               | inl e => ret (inl e)
                               | inr result => retX (Some result)
                               end))
              (fun cs3 r =>
                 sendsSigned (cs1 ++ cs2 ++ cs3) /\
                 (forall tx rep,
                     In (SignTransaction tx, rep) (cs1 ++ cs2 ++ cs3) ->
                     tx_token tx = addr /\ 0 < tx_amount tx /\
                     exists via, In (BalanceOf via addr, Ok (tx_amount tx))
                                   (cs1 ++ cs2 ++ cs3)) /\
                 (r = inr (Some true) ->
                  exists bal, 0 < bal /\ confirmed addr bal (cs1 ++ cs2 ++ cs3)))).
  { intros cs2 s2 n Hnone2.
    eapply Emits_bindR; [apply safe_retryLoop|].
    cbn beta. intros cs3 r s3 (Hs3 & Hd3 & Hc3).
    assert (Hsigned : forall tx rep,
              In (SignTransaction tx, rep) (cs1 ++ cs2 ++ cs3 ++ []) ->
              tx_token tx = addr /\ 0 < tx_amount tx /\
              exists via, In (BalanceOf via addr, Ok (tx_amount tx))
                            (cs1 ++ cs2 ++ cs3 ++ [])).
    { intros tx rep Hin. rewrite app_nil_r in *.
      apply in_app_or in Hin as [Hin|Hin];
        [destruct (Hnone1 _ Hin) as [Hk _]; now contradict Hk|].
      apply in_app_or in Hin as [Hin|Hin];
        [destruct (Hnone2 _ Hin) as [Hk _]; now contradict Hk|].
      destruct (Hs3 _ _ Hin) as [Ht Ha]. rewrite Ha.
      split; [exact Ht|]. split; [exact Hpos|].
      exists via. apply in_or_app. now left. }
    assert (Hsent : sendsSigned (cs1 ++ cs2 ++ cs3 ++ [])).
    { rewrite app_nil_r. apply sendsSigned_app; [now apply signsNothing_sendsSigned|].
      apply sendsSigned_app; [now apply signsNothing_sendsSigned|exact Hd3]. }
    destruct r as [e|result]; emits_simpl.
    - split; [exact Hsent|]. split; [exact Hsigned|]. intros H. discriminate H.
    - split; [exact Hsent|]. split; [exact Hsigned|]. intros [= ->].
      exists bal. split; [exact Hpos|]. rewrite app_nil_r.
      apply confirmed_app_r, confirmed_app_r. auto. }
  destruct (noNonce _).
  - eapply Emits_bindR; [apply Emits_signsNothing, cost_initNonce|].
    cbn beta. intros cs2 [e|[]] s2 Hnone2; emits_simpl.
    + rewrite app_nil_r. apply Hquiet; [now apply signsNothing_app|discriminate].
    + apply Hloop. exact Hnone2.
  - emits_simpl. apply (Hloop [] s1 _ signsNothing_nil).
Qed.

Lemma safe_transferWithRetry a s :
  Emits (transferWithRetry a s)
    (fun cs r =>
       sendsSigned cs /\
       (forall tx rep,
           In (SignTransaction tx, rep) cs ->
           tx_token tx = toLowerCase a /\ 0 < tx_amount tx /\
           exists via, In (BalanceOf via (toLowerCase a), Ok (tx_amount tx)) cs) /\
       (r = inr (Some true) ->
        exists bal, 0 < bal /\ confirmed (toLowerCase a) bal cs)).
Proof.
  unfold transferWithRetry. emits_simpl.
  destruct (isProcessing s (toLowerCase a)); emits_simpl.
  { split; [intros p tx rep []|]. split; [intros tx rep []|]. intros H. discriminate H. }
  eapply Emits_bindR; [apply safe_transferBody|].
  cbn beta. intros cs1 r s1 H. unfold unlock. emits_simpl. now rewrite app_nil_r.
Qed.

(** X24.  What a call of [transferWithRetry] signs, submits and reports,
    whatever the replies and whatever other handlers do meanwhile.
    Every transaction it hands to the wallet for signing is a transfer of
    the token the job is for, of an amount that is positive and is the
    balance that a balance read of this call returned; every transaction
    it submits to an endpoint is one the wallet has signed in this call;
    and it returns [true] only if such a transaction was signed, accepted
    by an endpoint and confirmed. *)
Theorem job_signs_and_reports_honestly (a : string) (s : State) :
  let honest (cs : list (NetCall * Reply)) (r : Exn + option bool) :=
    sendsSigned cs /\
    (forall tx rep,
        In (SignTransaction tx, rep) cs ->
        tx_token tx = toLowerCase a /\ 0 < tx_amount tx /\
        exists via, In (BalanceOf via (toLowerCase a), Ok (tx_amount tx)) cs) /\
    (r = inr (Some true) ->
     exists bal, 0 < bal /\ confirmed (toLowerCase a) bal cs) in
  Emits (transferWithRetry a s) honest /\
  forall ω t,
    honest (answered ω t (run (transferWithRetry a s) ω t).2)
           (run (transferWithRetry a s) ω t).1.2.
Proof.
  intros honest. split; [apply safe_transferWithRetry|].
  intros ω t. apply (Emits_run _ _ ω t (safe_transferWithRetry a s)).
Qed.

(** ** The retry loop, round by round *)

#[local] Instance countersKept_refl : Reflexive countersKept.
Proof. intros s. reflexivity. Qed.

#[local] Instance countersKept_trans : Transitive countersKept.
Proof. intros s1 s2 s3 H1 H2. unfold countersKept in *. congruence. Qed.








(** ** A call of transferWithRetry that reaches the loop *)

(** A call on a registered asset whose lock is free, whose balance read
    gives a positive balance, and which finds a usable [txQueue.nonce]:
    the loop with that nonce and no gas price, then the [finally] block. *)
Lemma run_transferWithRetry_loop a s ω t info s1 bal c1 :
  let addr := toLowerCase a in
  isProcessing s addr = false ->
  tokenContracts s !! addr = Some info ->
  run (readBalance addr (symbol info) (set_tokenProcessing (insert addr true) s)) ω t
  = (s1, inr (Some bal), c1) ->
  0 < bal ->
  noNonce (nonce (txQueue s1)) = false ->
  run (transferWithRetry a s) ω t =
  let '(s2, r, cs) :=
    run (retryLoop maxRetries addr info bal None (nonce (txQueue s1)) s1)
        ω (t + length c1)%nat in
  (unlocked addr s2, match r with inl e => inl e | inr result => inr (Some result) end,
   (c1 ++ cs)%list).
Proof.
  intros addr Hfree Hreg Hbal Hpos Hnonce.
  rewrite (run_transferWithRetry_balance a s ω t info Hfree Hreg). cbv zeta. fold addr.
  rewrite Hbal. destruct (Z.leb_spec bal 0) as [Hle|_]; [lia|].
  rewrite Hnonce, run_fromLoop_unlocked.
  now destruct (run (retryLoop _ _ _ _ _ _ _) ω _) as [[s2 r] cs].
Qed.


(** ** Insufficient funds *)


(** ** When the attempts are used up *)


(** ** A job that goes through *)

(** X19.  A call of [transferWithRetry] on which every operation succeeds
    at the first try (lines 399-479), for a registered asset with a
    positive balance and a usable [txQueue.nonce].  Seven operations are
    awaited, in this order: the balance through the wallet, the gas
    price from the selected endpoint, the gas estimate, the transaction
    data, the signature, the submission to the selected endpoint, one
    confirmation; then what [telegramNotify] awaits for the success
    notification (one request when the bot token and chat id are set,
    nothing otherwise).  The transaction moves the whole balance, with
    gas price 120% of the reading, gas limit 120% of the estimate, the
    stored nonce and the cached chain id.  The call returns [true],
    [txQueue.nonce] is the nonce used plus one, one success is counted,
    [consecutiveFailures] is 0 and [lastTxTime] is set, and the lock is
    released. *)
Theorem confirmed_attempt (a : string) (s : State) (ω : Oracle) (t : nat)
    (info : TokenInfo) (p : nat) (bal n g ge data sig hash conf : Z) :
  let addr := toLowerCase a in
  isProcessing s addr = false ->
  tokenContracts s !! addr = Some info ->
  currentProvider s = Some p ->
  nonce (txQueue s) = Some n ->
  n <> 0 ->
  0 < bal ->
  let tx := mkTx addr bal (mulDiv ge 120) (mulDiv g 120) (Some n) (CHAIN_ID s) in
  ω t (BalanceOf ViaWallet addr) = Ok bal ->
  ω (t + 1)%nat (GetGasPrice p) = Ok g ->
  ω (t + 2)%nat (EstimateGas ViaWallet addr bal (mulDiv g 120) (Some n)) = Ok ge ->
  ω (t + 3)%nat (PopulateTransaction addr bal) = Ok data ->
  ω (t + 4)%nat (SignTransaction tx) = Ok sig ->
  ω (t + 5)%nat (SendTransaction p tx) = Ok hash ->
  ω (t + 6)%nat (WaitConfirmation hash) = Ok conf ->
  exists s',
    run (transferWithRetry a s) ω t
    = (s', inr (Some true),
       ([BalanceOf ViaWallet addr; GetGasPrice p;
         EstimateGas ViaWallet addr bal (mulDiv g 120) (Some n);
         PopulateTransaction addr bal; SignTransaction tx; SendTransaction p tx;
         WaitConfirmation hash]
        ++ notifications [N_Transferred (symbol info) bal (decimals info) hash])%list) /\
    nonce (txQueue s') = Some (n + 1) /\
    txCounters (metrics s')
    = (totalTransactions (metrics s) + 1, successfulTx (metrics s) + 1,
       failedTx (metrics s), 0) /\
    lastTxTime (metrics s') = Some (clock s) /\
    tokenProcessing s' !! addr = Some false.
Proof.
  intros addr Hfree Hreg Hcur Hn Hnz Hpos tx Hbal Hg Hge Hdata Hsig Hsend Hconf.
  set (s0 := set_tokenProcessing (insert addr true) s).
  set (s1 := debugLog (L_Balance (symbol info) bal) s0).
  assert (Hread : run (readBalance addr (symbol info) s0) ω t
                  = (s1, inr (Some bal), [BalanceOf ViaWallet addr])).
  { unfold readBalance. run_simpl. rewrite run_call, Hbal. run_simpl. reflexivity. }
  assert (Hq1 : txQueue s1 = txQueue s).
  { unfold s1. now rewrite debugLog_txQueue. }
  assert (Hcur1 : currentProvider s1 = Some p).
  { unfold currentProvider, s1. rewrite debugLog_multiProvider. exact Hcur. }
  assert (Hchain : CHAIN_ID s1 = CHAIN_ID s).
  { unfold s1, debugLog. destruct DEBUG; reflexivity. }
  assert (Hsub : run (submitOnce addr (symbol info) bal None (Some n) s1) ω (t + 1)%nat
                 = (log (L_TxSent (symbol info) hash (mulDiv g 120)) s1,
                    (Some (mulDiv g 120), inr (tx, hash)),
                    [GetGasPrice p; EstimateGas ViaWallet addr bal (mulDiv g 120) (Some n);
                     PopulateTransaction addr bal; SignTransaction tx;
                     SendTransaction p tx; WaitConfirmation hash])).
  { replace (t + 2)%nat with (t + 1 + 1)%nat in Hge by lia.
    replace (t + 3)%nat with (t + 1 + 1 + 1)%nat in Hdata by lia.
    replace (t + 4)%nat with (t + 1 + 1 + 1 + 1)%nat in Hsig by lia.
    replace (t + 5)%nat with (t + 1 + 1 + 1 + 1 + 1)%nat in Hsend by lia.
    replace (t + 6)%nat with (t + 1 + 1 + 1 + 1 + 1 + 1)%nat in Hconf by lia.
    unfold submitOnce, fetchGasPrice. run_simpl. rewrite Hcur1, run_call, Hg. run_simpl.
    unfold buildAndSend. run_simpl. rewrite run_call, Hge. run_simplX.
    rewrite run_call, Hdata. run_simplX. rewrite Hchain. fold tx.
    rewrite run_call, Hsig. run_simplX.
    rewrite Hcur1, run_call, Hsend. run_simplX.
    rewrite run_call, Hconf. reflexivity. }
  assert (Hnonce : noNonce (nonce (txQueue s1)) = false).
  { rewrite Hq1, Hn. simpl. now apply Z.eqb_neq. }
  rewrite (run_transferWithRetry_loop a s ω t info s1 bal _ Hfree Hreg Hread Hpos Hnonce).
  fold addr. rewrite Hq1, Hn. cbn [length].
  change maxRetries with (S 4).
  rewrite (run_retryLoop_confirmed _ _ _ _ _ _ _ _ _ _ _ _ _ _ Hsub).
  eexists. split; [reflexivity|].
  rewrite unlocked_txQueue, unlocked_txCounters, unlocked_tokenProcessing.
  rewrite afterNotify_txQueue, afterNotify_txCounters.
  split; [reflexivity|]. split.
  { pose proof (debugLog_txCounters (L_Balance (symbol info) bal) s0) as Hd.
    fold s1 in Hd. unfold txCounters in Hd |- *. simpl in Hd |- *.
    injection Hd as -> -> -> _. reflexivity. }
  split; [|apply lookup_insert_eq].
  unfold unlocked. 
  replace (lastTxTime (metrics (debugLog (L_Unlocked addr) _))) with
    (lastTxTime (metrics (afterNotify ω (t + 1 + 6)%nat
       (N_Transferred (symbol info) bal (decimals info) hash)
       (recordMetric "transaction" true
          (set_txQueue (set_nonce (increment (Some n)))
             (log (L_Confirmed (symbol info) hash)
                (log (L_TxSent (symbol info) hash (mulDiv g 120)) s1))))))).
  2:{ unfold debugLog. destruct DEBUG; reflexivity. }
  rewrite afterNotify_lastTxTime. simpl.
  unfold s1. now rewrite debugLog_clock.
Qed.

(** ** The turns of the event loop, by what they do to the workers *)

(** A turn either leaves the workers as they are (a handler that starts
    no job), or starts a job while none is in flight, or resumes the one
    suspended call with the reply, or ends [process]. *)
Lemma sys_step_cases e σ :
  sysInv σ ->
  (workers (sys_step e σ).1 = workers σ /\ answeredBy e σ = [] /\
   (clearsLocks e = false ->
    tokenProcessing (glob (sys_step e σ).1) = tokenProcessing (glob σ)) /\
   (writesNonce e = false ->
    nonce (txQueue (glob (sys_step e σ).1)) = nonce (txQueue (glob σ)) \/
    nonce (txQueue (glob (sys_step e σ).1)) = None)) \/
  (exists job s,
     Forall (fun w => inFlight w = false) (workers σ) /\
     tokenProcessing s = tokenProcessing (glob σ) /\
     nonce (txQueue s) = nonce (txQueue (glob σ)) /\
     answeredBy e σ = [] /\
     (sys_step e σ).1 = mkSys (stateOf (transferWithRetry job s))
                              [toWorker job (transferWithRetry job s)]) \/
  (exists job c k rep,
     workers σ = [Suspended job c k] /\ answeredBy e σ = [(c, rep)] /\
     (sys_step e σ).1 = mkSys (stateOf (k rep (glob σ))) [toWorker job (k rep (glob σ))]) \/
  (Forall (fun w => inFlight w = false) (workers σ) /\
   workers (sys_step e σ).1 = [] /\ answeredBy e σ = [] /\
   tokenProcessing (glob (sys_step e σ).1) = tokenProcessing (glob σ) /\
   nonce (txQueue (glob (sys_step e σ).1)) = nonce (txQueue (glob σ))).
Proof.
  intros Hinv.
  assert (Hsame : forall s',
    tokenProcessing s' = tokenProcessing (glob σ) ->
    nonce (txQueue s') = nonce (txQueue (glob σ)) ->
    workers σ = workers σ /\ @nil (NetCall * Reply) = [] /\
    (clearsLocks e = false -> tokenProcessing s' = tokenProcessing (glob σ)) /\
    (writesNonce e = false ->
     nonce (txQueue s') = nonce (txQueue (glob σ)) \/ nonce (txQueue s') = None)).
  { intros s' Hl Hn. split; [reflexivity|]. split; [reflexivity|]. split; auto. }
  destruct e as [a| | |a info|n|id|i l| |type|now|line|i rep|i]; simpl.
  - (* enqueueTransfer *)
    destruct (isProcessing (glob σ) (toLowerCase a)) eqn:Hheld.
    { left. rewrite enqueueTransfer_held by assumption. simpl.
      apply Hsame; [apply debugLog_tokenProcessing|now rewrite debugLog_txQueue]. }
    destruct (processing (txQueue (glob σ))) eqn:Hproc.
    { left. destruct (enqueueTransfer_busy a _ Hheld Hproc) as (s' & -> & Hq & Hl & _).
      simpl. apply Hsame; [exact Hl|now rewrite Hq]. }
    assert (Hnil : workers σ = []).
    { destruct (workers σ) as [|w ws] eqn:Hw; [reflexivity|].
      rewrite (inv_processing σ Hinv) in Hproc; [discriminate|congruence]. }
    right. left.
    destruct (enqueueTransfer_idle a _ Hheld Hproc (inv_idle σ Hinv Hproc))
      as (s' & -> & Hq & Hl & _).
    exists (toLowerCase a), s'. rewrite Hnil, Hq. simpl.
    split; [constructor|]. split; [exact Hl|]. repeat split.
  - left. split; [reflexivity|]. split; [reflexivity|]. split; [discriminate|].
    intros _. left. now rewrite resetProcessingLocks_txQueue.
  - left. split; [reflexivity|]. split; [reflexivity|]. split; [discriminate|].
    intros _. left. unfold cleanupContracts. now rewrite debugLog_txQueue.
  - left. split; [reflexivity|]. split; [reflexivity|]. split; [discriminate|].
    intros _. left. reflexivity.
  - left. split; [reflexivity|]. split; [reflexivity|]. split; [reflexivity|].
    destruct n; [discriminate|]. intros _. right. reflexivity.
  - left. now apply Hsame.
  - left. now apply Hsame.
  - left. apply Hsame;
      [apply selectBestProvider_tokenProcessing|now rewrite selectBestProvider_txQueue].
  - left. now apply Hsame.
  - left. now apply Hsame.
  - left. now apply Hsame.
  - (* a reply *)
    destruct (workers σ !! i) as [[job c k|job result]|] eqn:Hw; simpl;
      try (left; now apply Hsame).
    destruct (single_worker _ _ _ (inv_single σ Hinv) Hw) as [Hws ->].
    right. right. left. exists job, c, k, rep. rewrite Hws. repeat split.
  - (* process resumes *)
    destruct (workers σ !! i) as [[job c k|job [err|result]]|] eqn:Hw; simpl;
      try (left; now apply Hsame).
    + destruct (single_worker _ _ _ (inv_single σ Hinv) Hw) as [Hws ->].
      right. right. right. rewrite Hws. simpl.
      split; [repeat constructor|]. repeat split.
    + destruct (single_worker _ _ _ (inv_single σ Hinv) Hw) as [Hws ->].
      destruct (queue (txQueue (glob σ))) as [|j rest] eqn:Hq.
      * right. right. right. rewrite processNext_nil by assumption.
        rewrite Hws. simpl. rewrite debugLog_tokenProcessing, debugLog_txQueue.
        split; [repeat constructor|]. repeat split.
      * right. left. rewrite (processNext_cons _ j rest) by assumption.
        exists j, (set_txQueue (set_queue rest) (glob σ)).
        rewrite Hws. simpl. split; [repeat constructor|]. repeat split.
Qed.

(** ** Locks kept while a job is suspended *)

#[local] Instance locksKept_refl : Reflexive locksKept.
Proof. intros s. reflexivity. Qed.

#[local] Instance locksKept_trans : Transitive locksKept.
Proof. intros s1 s2 s3 H1 H2. unfold locksKept in *. congruence. Qed.

Lemma Steady_bindR_fin {A B} (G : State -> State -> Prop) (Q : State -> A -> Prop)
    s0 (r : Res A) (f : A -> M B) :
  Spans G Q s0 r ->
  (forall a s, exists s' b, f a s = Fin s' b) ->
  Steady G s0 (bindR r f).
Proof.
  intros H Hf. induction H as [s0 s a HG Hq|s0 s c k HG Hk IH]; cbn [bindR].
  - destruct (Hf a s) as (s' & b & ->). exact I.
  - split; [exact HG|]. intros rep s'. apply IH.
Qed.

(** The body of [transferWithRetry] writes no lock (lines 391-511); the
    lock is written before it (line 388) and after it (line 514). *)
Lemma transferBody_locksKept addr : Respects locksKept (transferBody addr).
Proof. apply (transferBody_keeps locksKept); intros; reflexivity. Qed.

Lemma launch_holds job s :
  holdsLock (stateOf (transferWithRetry job s)) (toWorker job (transferWithRetry job s)).
Proof.
  unfold transferWithRetry, bind, gets. cbn [bindR].
  destruct (isProcessing s (toLowerCase job)) eqn:Hheld; [exact I|].
  unfold modify. cbn [bindR].
  set (s1 := set_tokenProcessing (insert (toLowerCase job) true) s).
  assert (H : Steady locksKept s1
                (tryFinally (transferBody (toLowerCase job)) (unlock (toLowerCase job)) s1)).
  { unfold tryFinally, bind.
    apply (Steady_bindR_fin locksKept (fun _ _ => True)).
    - apply transferBody_locksKept.
    - intros r s2. unfold unlock, modify, ret. cbn [bindR]. eauto. }
  destruct (tryFinally _ _ s1) as [s2 r|s2 c k]; simpl; [exact I|].
  destruct H as [Hk Hrest]. split; [|exact Hrest].
  unfold isProcessing. rewrite Hk. unfold s1. simpl. now rewrite lookup_insert_eq.
Qed.

Lemma holdsLock_ext s s' w :
  tokenProcessing s' = tokenProcessing s -> holdsLock s w -> holdsLock s' w.
Proof.
  intros Heq. destruct w as [job c k|job r]; simpl; [|auto].
  unfold isProcessing. now rewrite Heq.
Qed.

(** As long as no turn clears locks from outside, a suspended call holds
    the lock of its asset. *)
Lemma locksInv_step e σ :
  sysInv σ ->
  clearsLocks e = false ->
  Forall (holdsLock (glob σ)) (workers σ) ->
  Forall (holdsLock (glob (sys_step e σ).1)) (workers (sys_step e σ).1).
Proof.
  intros Hinv Hclear Hall.
  destruct (sys_step_cases e σ Hinv)
    as [(Hw & _ & Hl & _)|[(job & s & _ & _ & _ & _ & ->)
       |[(job & c & k & rep & Hw & _ & ->)|(_ & Hw & _)]]].
  - rewrite Hw. eapply Forall_impl; [exact Hall|].
    intros w. apply holdsLock_ext. auto.
  - simpl. constructor; [apply launch_holds|constructor].
  - simpl. rewrite Hw in Hall. apply Forall_cons_1 in Hall as [[Hheld Hk] _].
    specialize (Hk rep (glob σ)). constructor; [|constructor].
    destruct (k rep (glob σ)) as [s2 r|s2 c2 k2]; simpl; [exact I|].
    destruct Hk as [Hkept Hrest]. split; [|exact Hrest].
    unfold isProcessing in *. now rewrite Hkept.
  - rewrite Hw. constructor.
Qed.

Lemma locksInv_play events h :
  sysInv (now_sys h) ->
  Forall (fun e => clearsLocks e = false) events ->
  Forall (holdsLock (glob (now_sys h))) (workers (now_sys h)) ->
  Forall (holdsLock (glob (now_sys (play events h)))) (workers (now_sys (play events h))).
Proof.
  revert h. induction events as [|e events IH]; intros h Hinv Hq Hall; simpl; [exact Hall|].
  apply Forall_cons_1 in Hq as [He Hq].
  apply IH; [apply sysInv_turn, Hinv|exact Hq|].
  unfold turn.
  pose proof (locksInv_step e (now_sys h) Hinv He Hall) as Hstep.
  destruct (sys_step e (now_sys h)) as [σ' taken]. exact Hstep.
Qed.

(** C8, as the code has it.  [enqueueTransfer] adds no job exactly when
    the asset's lock is held at the time of the call.  So: when the first
    of two events for a registered asset arrives while the queue is idle,
    its job starts at once and takes the lock, and a second event for the
    asset that arrives next adds nothing.  From any state the event loop
    can reach with no call in flight, as long as no turn clears locks
    from outside the calls (the sweep, [cleanupContracts], a turn of
    [setupContracts]): whichever call of [transferWithRetry] is
    suspended holds the lock of its asset, and an event for that asset,
    in any spelling of the address, adds no job and starts nothing.  And
    while [process] is busy (the first job would wait in the queue, its
    lock not yet taken) every call on an asset whose lock is free adds
    one more job at the back of the queue. *)
Theorem duplicate_suppressed_while_lock_held :
  (forall a s,
      isProcessing s (toLowerCase a) = true ->
      enqueueTransfer a s = (debugLog (L_AlreadyProcessing (toLowerCase a)) s, None) /\
      queue (txQueue (enqueueTransfer a s).1) = queue (txQueue s)) /\
  (forall events now a info,
      let σ := exec events now in
      processing (txQueue (glob σ)) = false ->
      tokenContracts (glob σ) !! toLowerCase a = Some info ->
      let σ1 := (sys_step (E_Transfer a) σ).1 in
      let σ2 := (sys_step (E_Transfer a) σ1).1 in
      isProcessing (glob σ1) (toLowerCase a) = true /\
      (exists c k, workers σ1 = [Suspended (toLowerCase a) c k]) /\
      queue (txQueue (glob σ1)) = [] /\
      accepted (E_Transfer a) σ1 = [] /\
      queue (txQueue (glob σ2)) = [] /\
      workers σ2 = workers σ1) /\
  (forall events now more,
      let σ := exec events now in
      Forall (fun w => inFlight w = false) (workers σ) ->
      Forall (fun e => clearsLocks e = false) more ->
      let σ2 := now_sys (play more (mkHistory σ [] [])) in
      forall job c k,
        In (Suspended job c k) (workers σ2) ->
        isProcessing (glob σ2) (toLowerCase job) = true /\
        forall b,
          toLowerCase b = toLowerCase job ->
          accepted (E_Transfer b) σ2 = [] /\
          queue (txQueue (glob (sys_step (E_Transfer b) σ2).1)) = queue (txQueue (glob σ2)) /\
          workers (sys_step (E_Transfer b) σ2).1 = workers σ2) /\
  (forall a s,
      isProcessing s (toLowerCase a) = false ->
      processing (txQueue s) = true ->
      queue (txQueue (enqueueTransfer a s).1)
      = (queue (txQueue s) ++ [toLowerCase a])%list).
Proof.
  split; [|split; [|split]].
  - intros a s Hheld. rewrite enqueueTransfer_held by assumption.
    split; [reflexivity|]. simpl. now rewrite debugLog_txQueue.
  - intros events now a info σ Hidle Hreg σ1 σ2.
    assert (Hinv : sysInv σ) by apply sysInv_exec.
    assert (Hnil : workers σ = []).
    { destruct (workers σ) as [|w ws] eqn:Hw; [reflexivity|].
      rewrite (inv_processing σ Hinv) in Hidle; [discriminate|congruence]. }
    assert (Hfree : forall b, isProcessing (glob σ) b = false).
    { apply (no_lock_without_suspended σ Hinv). intros j c k. rewrite Hnil. discriminate. }
    destruct (enqueueTransfer_idle a _ (Hfree _) Hidle (inv_idle σ Hinv Hidle))
      as (s' & Hstep & Hq & Hl & Hc).
    destruct (transferWithRetry_takes_lock (toLowerCase a) s' info) as [k Hk].
    { unfold isProcessing. rewrite toLowerCase_idem, Hl. apply Hfree. }
    { rewrite toLowerCase_idem, Hc. exact Hreg. }
    rewrite toLowerCase_idem in Hk.
    assert (Hσ1 : σ1 = mkSys (set_tokenProcessing (insert (toLowerCase a) true) s')
                         [Suspended (toLowerCase a) (BalanceOf ViaWallet (toLowerCase a)) k]).
    { subst σ1. simpl. rewrite Hstep, Hk, Hnil. reflexivity. }
    assert (Hheld : isProcessing (glob σ1) (toLowerCase a) = true).
    { rewrite Hσ1. unfold isProcessing. simpl. now rewrite lookup_insert_eq. }
    split; [exact Hheld|].
    split; [rewrite Hσ1; eauto|].
    split; [rewrite Hσ1; simpl; now rewrite Hq|].
    split; [simpl; now rewrite Hheld|].
    subst σ2. simpl. rewrite enqueueTransfer_held by assumption. simpl.
    rewrite debugLog_txQueue. split; [|reflexivity].
    rewrite Hσ1. simpl. now rewrite Hq.
  - intros events now more σ Hnone Hquiet σ2 job c k Hin.
    assert (Hall : Forall (holdsLock (glob σ2)) (workers σ2)).
    { apply (locksInv_play more (mkHistory σ [] [])); simpl.
      - apply sysInv_exec.
      - exact Hquiet.
      - eapply Forall_impl; [exact Hnone|].
        intros [j c0 k0|j r]; simpl; [discriminate|auto]. }
    rewrite List.Forall_forall in Hall. destruct (Hall _ Hin) as [Hheld _].
    split; [exact Hheld|]. intros b Hb. simpl. rewrite Hb, Hheld.
    rewrite enqueueTransfer_held by (now rewrite Hb). simpl.
    rewrite debugLog_txQueue. auto.
  - intros a s Hfree Hbusy.
    destruct (enqueueTransfer_busy a s Hfree Hbusy) as (s' & -> & Hq & _).
    simpl. now rewrite Hq.
Qed.

(** ** The nonce along the operations of a call *)

Lemma Tracks_mono {A} (r : Res A) g (Q Q' : Z -> State -> A -> Prop) :
  (forall g' s a, Q g' s a -> Q' g' s a) -> Tracks g r Q -> Tracks g r Q'.
Proof.
  intros HQ. revert g. induction r as [s a|s c k IH]; intros g; cbn [Tracks]; [apply HQ|].
  intros (Hsign & Hsync & Hk). split; [exact Hsign|]. split; [exact Hsync|].
  intros rep s' Hs'. apply IH, Hk, Hs'.
Qed.

Lemma Tracks_bindR {A B} (r : Res A) (f : A -> M B) g
    (Q : Z -> State -> A -> Prop) (Q' : Z -> State -> B -> Prop) :
  Tracks g r Q ->
  (forall g' s a, Q g' s a -> Tracks g' (f a s) Q') ->
  Tracks g (bindR r f) Q'.
Proof.
  intros Hr Hf. revert g Hr. induction r as [s a|s c k IH]; intros g; cbn [Tracks bindR].
  - apply Hf.
  - intros (Hsign & Hsync & Hk). split; [exact Hsign|]. split; [exact Hsync|].
    intros rep s' Hs'. apply IH, Hk, Hs'.
Qed.

Lemma quiet_signs c g : quiet c = true -> signsWith g c.
Proof. intros Hq tx ->. discriminate Hq. Qed.

Lemma quiet_pending c g : quiet c = true -> pending g c = g.
Proof. destruct c; intros Hq; try discriminate Hq; reflexivity. Qed.

Lemma quiet_after c g rep : quiet c = true -> nonceAfter g (c, rep) = g.
Proof. destruct c, rep; intros Hq; try discriminate Hq; reflexivity. Qed.

Lemma synced_env g s s' :
  nonce (txQueue s') = nonce (txQueue s) \/ nonce (txQueue s') = None ->
  synced g s -> synced g s'.
Proof. unfold synced. intros [->| ->]; auto. Qed.

Ltac tracks_core :=
  cbn [Tracks bind bindR bindX call await modify gets ret retX throw liftX tryFinally
       fst snd].

Ltac tracks_simpl :=
  cbn [Tracks bind bindR bindX call await modify gets ret retX throw liftX tryFinally
       fst snd pending nonceAfter].

(** [txQueue.nonce] through the writes of a segment. *)
Ltac sync :=
  solve [ unfold synced in *;
          repeat first
            [ rewrite debugLog_txQueue
            | progress cbn [txQueue nonce set_txQueue set_nonce set_metrics set_output
                            set_tokenProcessing log recordMetric increment] ];
          auto ].

Ltac no_sign := let tx := fresh "tx" in let H := fresh "H" in intros tx H; discriminate H.

Lemma tracks_fallback (c : nat -> NetCall) g :
  (forall p, quiet (c p) = true) ->
  forall rem i s,
    synced g s ->
    Tracks g (callWithFallbackFrom (fun p => call (c p)) i rem s)
      (fun g' s' _ => g' = g /\ synced g s').
Proof.
  intros Hq. induction rem as [|rem IH]; intros i s Hs; cbn [callWithFallbackFrom];
    tracks_core.
  - auto.
  - split; [apply quiet_signs, Hq|]. rewrite quiet_pending by apply Hq.
    split; [exact Hs|]. intros rep s1 Hs1. rewrite quiet_after by apply Hq.
    destruct rep as [v|m]; tracks_core; [auto|].
    destruct (Z.of_nat i =? Z.of_nat RPC_COUNT - 1); tracks_core.
    + split; [reflexivity|sync].
    + apply IH. sync.
Qed.

Lemma tracks_callWithFallback (c : nat -> NetCall) g s :
  (forall p, quiet (c p) = true) ->
  synced g s ->
  Tracks g (callWithFallback (fun p => call (c p)) s) (fun g' s' _ => g' = g /\ synced g s').
Proof. intros Hq Hs. unfold callWithFallback. now apply tracks_fallback. Qed.

Lemma tracks_telegramNotify text g s :
  synced g s ->
  Tracks g (telegramNotify text s) (fun g' s' _ => g' = g /\ synced g s').
Proof.
  intros Hs. unfold telegramNotify. destruct TELEGRAM; tracks_simpl; [|auto].
  split; [no_sign|]. split; [exact Hs|].
  intros [v|m] s1 Hs1; tracks_simpl; (split; [reflexivity|sync]).
Qed.

Lemma tracks_readBalance addr sym g s :
  synced g s ->
  Tracks g (readBalance addr sym s) (fun g' s' _ => g' = g /\ synced g s').
Proof.
  intros Hs. unfold readBalance. tracks_simpl.
  split; [no_sign|]. split; [exact Hs|].
  intros [v|m] s1 Hs1; tracks_simpl.
  - split; [reflexivity|sync].
  - apply tracks_callWithFallback; [reflexivity|exact Hs1].
Qed.

Lemma tracks_fetchGasPrice g s :
  synced g s ->
  Tracks g (fetchGasPrice s) (fun g' s' _ => g' = g /\ synced g s').
Proof.
  intros Hs. unfold fetchGasPrice. tracks_simpl.
  destruct (currentProvider s) as [p|]; tracks_simpl.
  - split; [no_sign|]. split; [exact Hs|].
    intros [v|m] s1 Hs1; tracks_simpl; [auto|].
    apply tracks_callWithFallback; [reflexivity|exact Hs1].
  - apply tracks_callWithFallback; [reflexivity|exact Hs].
Qed.

(** [initNonce] stores the count it read (lines 314-317). *)
Lemma tracks_initNonce g s :
  synced g s ->
  Tracks g (initNonce s)
    (fun g' s' r => synced g' s' /\
                    match r with
                    | inr _ => nonce (txQueue s') = Some g'
                    | inl _ => True
                    end).
Proof.
  intros Hs. unfold initNonce. tracks_simpl.
  split; [no_sign|]. split; [exact Hs|].
  intros [c|m] s1 Hs1; tracks_simpl.
  - split; [sync|]. now rewrite debugLog_txQueue.
  - split; [exact Hs1|exact I].
Qed.

(** An attempt signs with the loop's nonce; it leaves [txQueue.nonce]
    alone, and the nonce is due to be one higher exactly when the
    confirmation arrived. *)
Lemma tracks_buildAndSend addr sym bal gp g s :
  synced g s ->
  Tracks g (buildAndSend addr sym bal gp (Some g) s)
    (fun g' s' r => synced g s' /\ g' = match r with inr _ => g + 1 | inl _ => g end).
Proof.
  intros Hs. unfold buildAndSend. tracks_simpl.
  assert (Hrest : forall ge s1,
    synced g s1 ->
    Tracks g
      (bindX (call (PopulateTransaction addr bal)) (fun _ =>
             match ge with
             | None => throw (typeError "mul")
             | Some ge =>
                 bind (gets CHAIN_ID) (fun chain =>
                 let unsignedTx := mkTx addr bal (mulDiv ge 120) gp (Some g) chain in
                 bindX (call (SignTransaction unsignedTx)) (fun _ =>
                 bind (gets currentProvider) (fun cur =>
                 bind match cur with
                      | Some p => call (SendTransaction p unsignedTx)
                      | None => throw (typeError "sendTransaction")
                      end (fun sent =>
                 bindX match sent with
                       | inr h => retX (Some h)
                       | inl _ => callWithFallback (fun p => call (SendTransaction p unsignedTx))
                       end (fun txResponse =>
                 match txResponse with
                 | None => throw (typeError "hash")
                 | Some hash =>
                     bind (modify (log (L_TxSent sym hash gp))) (fun _ =>
                     bindX (call (WaitConfirmation hash)) (fun _ =>
                     retX (unsignedTx, hash)))
                 end)))))
             end) s1)
      (fun g' s' r => synced g s' /\ g' = match r with inr _ => g + 1 | inl _ => g end)).
  { intros ge s1 Hs1. tracks_simpl.
    split; [no_sign|]. split; [exact Hs1|].
    intros [v|m] s2 Hs2; tracks_simpl; [|auto].
    destruct ge as [ge|]; tracks_simpl; [|auto].
    split; [intros tx [= <-]; reflexivity|]. split; [exact Hs2|].
    intros [v3|m3] s3 Hs3; tracks_simpl; [|auto].
    assert (Hwait : forall hash s5,
      synced g s5 ->
      Tracks g
        (bind (modify (log (L_TxSent sym hash gp))) (fun _ =>
         bindX (call (WaitConfirmation hash)) (fun _ =>
         retX (mkTx addr bal (mulDiv ge 120) gp (Some g) (CHAIN_ID s2), hash))) s5)
        (fun g' s' r => synced g s' /\ g' = match r with inr _ => g + 1 | inl _ => g end)).
    { intros hash s5 Hs5. tracks_simpl.
      split; [no_sign|]. split; [sync|].
      intros [v6|m6] s6 Hs6; tracks_simpl; auto. }
    destruct (currentProvider s3) as [p|]; tracks_simpl.
    - split; [no_sign|]. split; [exact Hs3|].
      intros [h|m4] s4 Hs4; tracks_simpl.
      + pose proof (Hwait h s4 Hs4) as H. tracks_simpl. exact H.
      + eapply Tracks_bindR; [apply tracks_callWithFallback; [reflexivity|exact Hs4]|].
        cbn beta. intros g5 s5 [e|[h|]] [-> Hs5]; tracks_simpl; auto.
        pose proof (Hwait h s5 Hs5) as H. tracks_simpl. exact H.
    - eapply Tracks_bindR; [apply tracks_callWithFallback; [reflexivity|exact Hs3]|].
      cbn beta. intros g5 s5 [e|[h|]] [-> Hs5]; tracks_simpl; auto.
      pose proof (Hwait h s5 Hs5) as H. tracks_simpl. exact H. }
  split; [no_sign|]. split; [exact Hs|].
  intros [ge|m] s1 Hs1; tracks_simpl.
  - pose proof (Hrest (Some ge) s1 Hs1) as H. tracks_simpl. exact H.
  - eapply Tracks_bindR; [apply tracks_callWithFallback; [reflexivity|exact Hs1]|].
    cbn beta. intros g2 s2 [e|ge] [-> Hs2]; tracks_simpl; [auto|].
    pose proof (Hrest ge s2 Hs2) as H. tracks_simpl. exact H.
Qed.

Lemma tracks_submitOnce addr sym bal gp g s :
  synced g s ->
  Tracks g (submitOnce addr sym bal gp (Some g) s)
    (fun g' s' r => synced g s' /\ g' = match r.2 with inr _ => g + 1 | inl _ => g end).
Proof.
  intros Hs. unfold submitOnce. tracks_simpl.
  eapply Tracks_bindR; [apply tracks_fetchGasPrice, Hs|]. cbn beta.
  intros g1 s1 [err|[estimate|]] [-> Hs1]; tracks_simpl; auto.
  eapply Tracks_bindR; [apply tracks_buildAndSend, Hs1|]. cbn beta.
  intros g2 s2 r [Hs2 ->]. tracks_simpl. auto.
Qed.

(** Lines 471-479: the nonce that was used, plus one, is stored. *)
Lemma tracks_onConfirmed info bal hash g s :
  Tracks (g + 1) (onConfirmed info bal hash (Some g) s) (fun g' s' _ => synced g' s').
Proof.
  unfold onConfirmed. tracks_simpl.
  eapply Tracks_bindR; [apply tracks_telegramNotify; sync|]. cbn beta.
  intros g1 s1 [] [-> Hs1]. tracks_simpl. exact Hs1.
Qed.

(** The [catch] block (lines 480-500): when it asks for another round,
    the loop's nonce is the one that [nonceAfter] gives. *)
Lemma tracks_onAttemptError sym attempt err gp g s :
  synced g s ->
  Tracks g (onAttemptError sym attempt err gp (Some g) s)
    (fun g' s' r => synced g' s' /\
                    forall gp' n', r = inr (Continue gp' n') -> n' = Some g').
Proof.
  intros Hs. unfold onAttemptError, bumpAndDelay. tracks_simpl.
  destruct (includes err "nonce too low"); tracks_simpl.
  { split; [no_sign|]. split; [sync|].
    intros [c|e] s1 Hs1; tracks_simpl.
    - destruct gp as [gv|]; tracks_simpl.
      + split; [no_sign|]. split; [sync|]. intros rep s2 Hs2. tracks_simpl.
        split; [exact Hs2|]. intros gp' n' [= _ <-]. reflexivity.
      + split; [sync|]. intros gp' n' H. discriminate H.
    - split; [exact Hs1|]. intros gp' n' H. discriminate H. }
  destruct (includes err "replacement transaction underpriced"); tracks_simpl.
  { destruct gp as [gv|]; tracks_simpl.
    - split; [no_sign|]. split; [sync|]. intros rep s2 Hs2. tracks_simpl.
      split; [exact Hs2|]. intros gp' n' [= _ <-]. reflexivity.
    - split; [sync|]. intros gp' n' H. discriminate H. }
  destruct (includes err "insufficient funds"); tracks_simpl.
  { eapply Tracks_bindR; [apply tracks_telegramNotify; sync|]. cbn beta.
    intros g1 s1 [] [-> Hs1]. tracks_simpl.
    split; [sync|]. intros gp' n' H. discriminate H. }
  destruct gp as [gv|]; tracks_simpl.
  - split; [no_sign|]. split; [sync|]. intros rep s2 Hs2. tracks_simpl.
    split; [exact Hs2|]. intros gp' n' [= _ <-]. reflexivity.
  - split; [sync|]. intros gp' n' H. discriminate H.
Qed.

Lemma tracks_afterRetries sym g s :
  synced g s ->
  Tracks g (afterRetries sym s) (fun g' s' _ => synced g' s').
Proof.
  intros Hs. unfold afterRetries. tracks_simpl.
  destruct (5 <=? _).
  - eapply Tracks_bindR; [apply tracks_telegramNotify; sync|]. cbn beta.
    intros g1 s1 [] [-> Hs1]. tracks_simpl.
    eapply Tracks_bindR; [apply tracks_telegramNotify, Hs1|]. cbn beta.
    intros g2 s2 [] [-> Hs2]. tracks_simpl. exact Hs2.
  - tracks_simpl.
    eapply Tracks_bindR; [apply tracks_telegramNotify; sync|]. cbn beta.
    intros g2 s2 [] [-> Hs2]. tracks_simpl. exact Hs2.
Qed.

Lemma tracks_retryLoop addr info bal :
  forall rem gp g s,
    synced g s ->
    Tracks g (retryLoop rem addr info bal gp (Some g) s) (fun g' s' _ => synced g' s').
Proof.
  induction rem as [|rem IH]; intros gp g s Hs; cbn [retryLoop].
  - apply tracks_afterRetries, Hs.
  - tracks_simpl. eapply Tracks_bindR; [apply tracks_submitOnce, Hs|]. cbn beta.
    intros g1 s1 [gp1 [err|[tx hash]]] [Hs1 ->]; tracks_simpl.
    + eapply Tracks_bindR; [apply tracks_onAttemptError, Hs1|]. cbn beta.
      intros g2 s2 [e|[gp2 n2|result]] [Hs2 Hn]; tracks_simpl; try exact Hs2.
      rewrite (Hn gp2 n2 eq_refl). apply IH, Hs2.
    + apply tracks_onConfirmed.
Qed.

Lemma tracks_transferBody addr g s :
  synced g s ->
  Tracks g (transferBody addr s) (fun g' s' _ => synced g' s').
Proof.
  intros Hs. unfold transferBody. tracks_simpl.
  destruct (tokenContracts s !! addr) as [info|]; tracks_simpl; [|sync].
  eapply Tracks_bindR; [apply tracks_readBalance, Hs|]. cbn beta.
  intros g1 s1 [e|[bal|]] [-> Hs1]; tracks_simpl; try exact Hs1.
  destruct (bal <=? 0); tracks_simpl; [sync|].
  destruct (noNonce (nonce (txQueue s1))) eqn:Hno.
  - eapply Tracks_bindR; [apply tracks_initNonce, Hs1|]. cbn beta.
    intros g2 s2 [e|[]] [Hs2 Hst]; tracks_simpl; [exact Hs2|].
    rewrite Hst.
    eapply Tracks_bindR; [apply tracks_retryLoop, Hs2|]. cbn beta.
    intros g3 s3 [e|r] Hs3; tracks_simpl; exact Hs3.
  - tracks_simpl.
    assert (Hst : nonce (txQueue s1) = Some g).
    { destruct Hs1 as [Hn|Hn]; [|exact Hn]. rewrite Hn in Hno. discriminate Hno. }
    rewrite Hst.
    eapply Tracks_bindR; [apply tracks_retryLoop, Hs1|]. cbn beta.
    intros g3 s3 [e|r] Hs3; tracks_simpl; exact Hs3.
Qed.

(** A call of [transferWithRetry] under any replies and any interference
    that leaves [txQueue.nonce] alone or resets it to [null]. *)
Lemma tracks_transferWithRetry a g s :
  synced g s ->
  Tracks g (transferWithRetry a s) (fun g' s' _ => synced g' s').
Proof.
  intros Hs. unfold transferWithRetry. tracks_simpl.
  destruct (isProcessing s (toLowerCase a)); tracks_simpl; [sync|].
  eapply Tracks_bindR; [apply tracks_transferBody; sync|]. cbn beta.
  intros g1 s1 r Hs1. unfold unlock. tracks_simpl. sync.
Qed.

(** ** The nonce along the operations of the event loop *)

Lemma launch_tracks job g s :
  synced g s ->
  tracksNonce g (stateOf (transferWithRetry job s)) (toWorker job (transferWithRetry job s)).
Proof.
  intros Hs. pose proof (tracks_transferWithRetry job g s Hs) as H.
  destruct (transferWithRetry job s) as [s1 r|s1 c k]; exact H.
Qed.

Lemma tracksNonce_env g s s' w :
  nonce (txQueue s') = nonce (txQueue s) \/ nonce (txQueue s') = None ->
  tracksNonce g s w -> tracksNonce g s' w.
Proof.
  intros Henv. destruct w as [job c k|job r]; simpl.
  - intros (Hsign & Hsync & Hk). split; [exact Hsign|].
    split; [eapply synced_env; eassumption|exact Hk].
  - apply synced_env, Henv.
Qed.

Lemma nonceInv_idle g σ :
  nonceInv g σ -> Forall (fun w => inFlight w = false) (workers σ) -> synced g (glob σ).
Proof.
  intros [Hall Hnil] Hnone. destruct (workers σ) as [|w ws]; [now apply Hnil|].
  apply Forall_cons_1 in Hall as [Hw _]. apply Forall_cons_1 in Hnone as [Hf _].
  destruct w as [job c k|job r]; [discriminate Hf|exact Hw].
Qed.

(** One turn: a transaction handed to the wallet in this turn carries
    the nonce the loop is at, and the event loop keeps track of it. *)
Lemma nonceInv_step e σ g :
  sysInv σ ->
  writesNonce e = false ->
  nonceInv g σ ->
  follows g (answeredBy e σ) /\
  nonceInv (fold_left nonceAfter (answeredBy e σ) g) (sys_step e σ).1.
Proof.
  intros Hinv Hwrite Hn.
  destruct (sys_step_cases e σ Hinv)
    as [(Hw & -> & _ & Hkeep)|[(job & s & Hnone & _ & Hst & -> & ->)
       |[(job & c & k & rep & Hw & -> & ->)|(Hnone & Hw & -> & _ & Hst)]]];
    cbn [fold_left follows].
  - split; [exact I|]. destruct Hn as [Hall Hnil]. split.
    + rewrite Hw. eapply Forall_impl; [exact Hall|].
      intros w. apply tracksNonce_env. auto.
    + rewrite Hw. intros Hq. eapply synced_env; [apply Hkeep, Hwrite|auto].
  - split; [exact I|]. split; simpl.
    + constructor; [|constructor]. apply launch_tracks.
      eapply synced_env; [left; exact Hst|]. now apply nonceInv_idle.
    + discriminate.
  - destruct Hn as [Hall _]. rewrite Hw in Hall.
    apply Forall_cons_1 in Hall as [(Hsign & Hsync & Hk) _].
    split; [split; [exact Hsign|exact I]|].
    specialize (Hk rep (glob σ) Hsync). split; simpl.
    + constructor; [|constructor].
      destruct (k rep (glob σ)) as [s1 r|s1 c1 k1]; exact Hk.
    + discriminate.
  - split; [exact I|]. split.
    + rewrite Hw. constructor.
    + intros _. eapply synced_env; [left; exact Hst|]. now apply nonceInv_idle.
Qed.

Lemma follows_app g cs1 cs2 :
  follows g (cs1 ++ cs2) <-> follows g cs1 /\ follows (fold_left nonceAfter cs1 g) cs2.
Proof.
  revert g. induction cs1 as [|x cs1 IH]; intros g; cbn [app follows fold_left].
  - tauto.
  - rewrite IH. tauto.
Qed.

Lemma follows_answers events :
  forall σ g,
    sysInv σ ->
    Forall (fun e => writesNonce e = false) events ->
    nonceInv g σ ->
    follows g (answers events σ).
Proof.
  induction events as [|e events IH]; intros σ g Hinv Hq Hn; cbn [answers]; [exact I|].
  apply Forall_cons_1 in Hq as [He Hq].
  destruct (nonceInv_step e σ g Hinv He Hn) as [Hf Hn'].
  apply follows_app. split; [exact Hf|].
  apply IH; [apply sysInv_step, Hinv|exact Hq|exact Hn'].
Qed.

Lemma nonceAfter_fold cs :
  forall g,
    Forall (fun x => countRead x = false) cs ->
    fold_left nonceAfter cs g = g + Z.of_nat (length (List.filter advances cs)).
Proof.
  induction cs as [|[c rep] cs IH]; intros g Hq; cbn [fold_left List.filter].
  - simpl. lia.
  - apply Forall_cons_1 in Hq as [Hx Hq]. rewrite IH by exact Hq.
    destruct c, rep; try discriminate Hx; cbn [nonceAfter advances length]; lia.
Qed.

Lemma advances_delays cs :
  Forall (fun x => confirmation x = false) cs ->
  length (List.filter advances cs) = length (delaysOf (map fst cs)).
Proof.
  induction cs as [|[c rep] cs IH]; intros Hq; [reflexivity|].
  apply Forall_cons_1 in Hq as [Hx Hq]. specialize (IH Hq).
  cbn [map fst List.filter]. rewrite delaysOf_cons.
  destruct c, rep; try discriminate Hx; cbn [advances length]; lia.
Qed.

Lemma filter_advances_app cs1 cs2 :
  length (List.filter advances (cs1 ++ cs2))
  = (length (List.filter advances cs1) + length (List.filter advances cs2))%nat.
Proof. now rewrite List.filter_app, length_app. Qed.

(** The nonce between two signatures, and between a read of the pending
    count and a signature. *)
Lemma follows_between g pre x mid tx2 r2 post :
  follows g (pre ++ x :: mid ++ (SignTransaction tx2, r2) :: post) ->
  Forall (fun y => countRead y = false) mid ->
  tx_nonce tx2
  = Some (nonceAfter (fold_left nonceAfter pre g) x
          + Z.of_nat (length (List.filter advances mid))) /\
  signsWith (fold_left nonceAfter pre g) x.1.
Proof.
  intros Hf Hq. apply follows_app in Hf as [_ Hf]. cbn [follows] in Hf.
  destruct Hf as [Hx Hf]. apply follows_app in Hf as [_ Hf]. cbn [follows] in Hf.
  destruct Hf as [H2 _]. split; [|exact Hx].
  rewrite (H2 tx2 eq_refl). now rewrite nonceAfter_fold.
Qed.

(** C1, as the code has it.  Take any run of the event loop from a state
    it can reach in which no call of [process] is running, and in which
    nothing outside the jobs writes a number to [txQueue.nonce] (the
    reset to [null] after a provider change may happen at any time);
    take the operations that are answered, in order, over all jobs.
    Between two transactions handed to the wallet with no successful
    read of the pending count in between, the nonce of the second is the
    nonce of the first plus the number of confirmations and backoff
    delays in between; each delay ends a [catch] block that did
    [nonce++], whether or not the failed attempt got as far as signing,
    in the job of the first transaction or in a later one.  So after a
    confirmed transaction with nonce [n], with no other confirmation and
    no read of the count in between, a transaction signed later carries
    [n + 1] plus the number of delays since; this is [n + 1] only when
    no attempt failed in between.  And after a successful read of the
    pending count [c] (by [initNonce] when [txQueue.nonce] is unset, or
    by the resync after 'nonce too low'), the next transaction carries
    [c] plus the number of delays since the read. *)
Theorem nonce_advances_with_each_attempt (startup more : list Event) (now : Z) :
  let σ0 := exec startup now in
  workers σ0 = [] ->
  Forall (fun e => writesNonce e = false) more ->
  let tr := answers more σ0 in
  (forall pre tx1 r1 mid tx2 r2 post,
      tr = (pre ++ (SignTransaction tx1, r1) :: mid
                ++ (SignTransaction tx2, r2) :: post)%list ->
      Forall (fun x => countRead x = false) mid ->
      exists n1,
        tx_nonce tx1 = Some n1 /\
        tx_nonce tx2 = Some (n1 + Z.of_nat (length (List.filter advances mid)))) /\
  (forall pre tx1 r1 m1 hash v mid tx2 r2 post,
      tr = (pre ++ (SignTransaction tx1, r1) :: m1 ++ (WaitConfirmation hash, Ok v) :: mid
                ++ (SignTransaction tx2, r2) :: post)%list ->
      Forall (fun x => countRead x = false) (m1 ++ mid) ->
      Forall (fun x => confirmation x = false) (m1 ++ mid) ->
      exists n1,
        tx_nonce tx1 = Some n1 /\
        tx_nonce tx2 = Some (n1 + 1 + Z.of_nat (length (delaysOf (map fst (m1 ++ mid)))))) /\
  (forall pre c mid tx2 r2 post,
      tr = (pre ++ (GetTransactionCount, Ok c) :: mid
                ++ (SignTransaction tx2, r2) :: post)%list ->
      Forall (fun x => countRead x = false) mid ->
      tx_nonce tx2 = Some (c + Z.of_nat (length (List.filter advances mid)))).
Proof.
  intros σ0 Hidle Hquiet tr.
  set (g0 := match nonce (txQueue (glob σ0)) with Some n => n | None => 0 end).
  assert (Hf : follows g0 tr).
  { apply follows_answers; [apply sysInv_exec|exact Hquiet|].
    assert (Hs : synced g0 (glob σ0)).
    { unfold synced, g0. destruct (nonce (txQueue (glob σ0))); auto. }
    split; [rewrite Hidle; constructor|auto]. }
  assert (Hpair : forall pre tx1 r1 mid tx2 r2 post,
      tr = (pre ++ (SignTransaction tx1, r1) :: mid
                ++ (SignTransaction tx2, r2) :: post)%list ->
      Forall (fun x => countRead x = false) mid ->
      exists n1,
        tx_nonce tx1 = Some n1 /\
        tx_nonce tx2 = Some (n1 + Z.of_nat (length (List.filter advances mid)))).
  { intros pre tx1 r1 mid tx2 r2 post Htr Hmid. rewrite Htr in Hf.
    destruct (follows_between _ _ _ _ _ _ _ Hf Hmid) as [H2 H1].
    exists (fold_left nonceAfter pre g0). split; [apply (H1 tx1 eq_refl)|exact H2]. }
  split; [exact Hpair|]. split.
  - intros pre tx1 r1 m1 hash v mid tx2 r2 post Htr Hread Hconf.
    apply Forall_app in Hread as [Hr1 Hr2].
    destruct (Hpair pre tx1 r1 (m1 ++ (WaitConfirmation hash, Ok v) :: mid)%list tx2 r2 post)
      as (n1 & Hn1 & Hn2).
    + rewrite Htr. now rewrite <- !app_assoc.
    + apply Forall_app. split; [exact Hr1|]. constructor; [reflexivity|exact Hr2].
    + exists n1. split; [exact Hn1|]. rewrite Hn2. f_equal.
      rewrite filter_advances_app. cbn [List.filter advances length].
      rewrite <- (advances_delays (m1 ++ mid) Hconf), filter_advances_app. lia.
  - intros pre c mid tx2 r2 post Htr Hmid. rewrite Htr in Hf.
    destruct (follows_between _ _ _ _ _ _ _ Hf Hmid) as [H2 _]. exact H2.
Qed.

End Bot.

(** * The properties on concrete inputs *)

(** The metrics after one successful transaction are balanced, and an
    RPC failure leaves the transaction counters alone. *)
Lemma updateMetrics_witness :
  tx_balanced (updateMetrics "transaction" true 5 (metrics0 0)) /\
  totalTransactions (updateMetrics "rpc_failure" true 5 (metrics0 0)) = 0.
Proof.
  destruct updateMetrics_transaction_counters as (_ & Hstep & _ & _ & Hother).
  split.
  - apply Hstep. reflexivity.
  - destruct (Hother "rpc_failure" true 5 (metrics0 0)) as [Htotal _].
    + discriminate.
    + exact Htotal.
Defined.

(** Latencies 120, 45, 200: endpoint 1; and a pool that is all down. *)
Lemma selectBestProvider_witness :
  currentIndex (multiProvider
    (selectBestProvider false
       (set_multiProvider (fun _ => mkPool [Millis 120; Millis 45; Millis 200] 0)
          (exampleState None))).1) = 1 /\
  multiProvider
    (selectBestProvider false
       (set_multiProvider (fun _ => mkPool [Infinity; Infinity] 1) (exampleState None))).1
  = mkPool [Infinity; Infinity] 1.
Proof.
  split.
  - destruct (selectBestProvider_selects_minimum false
                (set_multiProvider (fun _ => mkPool [Millis 120; Millis 45; Millis 200] 0)
                   (exampleState None))) as (_ & _ & Hex).
    apply Hex. reflexivity.
  - destruct (selectBestProvider_selects_minimum false
                (set_multiProvider (fun _ => mkPool [Infinity; Infinity] 1)
                   (exampleState None))) as (_ & Hdown & _).
    destruct Hdown as (_ & Hsame & _).
    + intros [|[|j]] l Hl; vm_compute in Hl; congruence.
    + exact Hsame.
Defined.

(** With the first of two endpoints down the second one answers; with
    both down the call throws the error of the last one. *)
Lemma callWithFallback_witness :
  run (callWithFallback 2 false (fun p => call (GetGasPrice p)) (exampleState None))
      firstEndpointDown 0
  = (recordMetric "rpc_failure" true (exampleState None), inr (Some 5),
     [GetGasPrice 0; GetGasPrice 1]) /\
  (0 < 2)%nat.
Proof.
  split.
  - destruct (callWithFallback_raises_only_if_all_fail 2 false
                (fun p => call (GetGasPrice p)) firstEndpointDown (exampleState None) 0)
      as [_ Hok].
    apply (Hok 1%nat (recordMetric "rpc_failure" true (exampleState None)) 1%nat
               [GetGasPrice 0] _ 5 [GetGasPrice 1]).
    + lia.
    + apply (FailedOn_cons false _ _ 0 1 (exampleState None) 0 (exampleState None)
               "socket hang up" [GetGasPrice 0] _ _ []).
      * reflexivity.
      * apply FailedOn_nil.
    + reflexivity.
  - destruct (callWithFallback_raises_only_if_all_fail 2 false
                (fun p => call (GetGasPrice p)) allEndpointsDown (exampleState None) 0)
      as [Hall _].
    destruct (Hall (recordMetric "rpc_failure" true
                      (recordMetric "rpc_failure" true (exampleState None)))
                   "socket hang up" [GetGasPrice 0; GetGasPrice 1]) as [Hpos _].
    + reflexivity.
    + exact Hpos.
Defined.


(** The event loop after a transfer to "0xbb" was seen, a transfer to
    "0xaa" was queued behind it, and the balance of "0xbb" turned out to
    be 0: the call on "0xbb" has settled, and resuming [process] takes
    "0xaa", the oldest job waiting. *)
Lemma one_transfer_in_flight_witness :
  let σ := exec 2 false true (busyWithOther ++ [E_Transfer "0xAA"; E_Reply 0 (Ok 0)]) 1000 in
  Forall (fun w => inFlight w = false) (workers σ) /\
  (queue (txQueue (glob σ)) ++ accepted (E_Resume 0) σ)%list
  = "0xaa" :: queue (txQueue (glob (sys_step 2 false true (E_Resume 0) σ).1)).
Proof.
  intros σ.
  destruct (one_transfer_in_flight 2 false true
              (busyWithOther ++ [E_Transfer "0xAA"; E_Reply 0 (Ok 0)]) 1000)
    as (_ & _ & _ & _ & Htake).
  apply (Htake (E_Resume 0) "0xaa"). vm_compute. reflexivity.
Defined.

(** In the same state the lock of "0xbb" is free again, and so is every
    lock when the next job is taken; a call on "0xaa" from a state where
    its lock is free ends with the lock released. *)
Lemma lock_released_witness :
  let σ := exec 2 false true (busyWithOther ++ [E_Transfer "0xAA"; E_Reply 0 (Ok 0)]) 1000 in
  isProcessing (glob σ) (toLowerCase "0xbb") = false /\
  isProcessing (glob σ) "0xaa" = false /\
  Spans (jobFrame (toLowerCase "0xAA"))
        (fun s' _ => tokenProcessing s' !! toLowerCase "0xAA" = Some false)
        (exampleState (Some 7)) (transferWithRetry 2 false true "0xAA" (exampleState (Some 7))).
Proof.
  intros σ.
  destruct (lock_released_on_every_exit 2 false true) as [Hcall Hloop].
  destruct (Hloop (busyWithOther ++ [E_Transfer "0xAA"; E_Reply 0 (Ok 0)])%list 1000)
    as (_ & Hsettled & Htaken).
  split; [|split].
  - apply (Hsettled "0xbb" (inr None)). vm_compute. left. reflexivity.
  - apply (Htaken (E_Resume 0) "0xaa"). vm_compute. reflexivity.
  - apply Hcall. vm_compute. reflexivity.
Defined.


(** Two jobs after the start of the process.  The first transaction,
    with nonce 7, is confirmed.  The first attempt of the second job
    fails before anything is signed and is retried after one delay; the
    transaction its second attempt signs carries nonce 7 + 1 + 1. *)
Lemma nonce_advances_witness :
  workers (exec 2 false true started 1000) = [] /\
  exists n1,
    tx_nonce (mkTx "0xaa" 1000 60000 1200 (Some 7) (Some 59144)) = Some n1 /\
    tx_nonce (mkTx "0xaa" 1000 60000 1200 (Some 9) (Some 59144))
    = Some (n1 + 1
            + Z.of_nat (length (delaysOf (map fst
                ([(SendTransaction 0 (mkTx "0xaa" 1000 60000 1200 (Some 7) (Some 59144)), Ok 777)]
                 ++ [(TelegramNotify (N_Transferred "USDC" 1000 6 777), Ok 0);
                     (BalanceOf ViaWallet "0xaa", Ok 1000); (GetGasPrice 0, Ok 1000);
                     (EstimateGas ViaWallet "0xaa" 1000 1200 (Some 8), Err "timeout");
                     (EstimateGas (ViaProvider 0) "0xaa" 1000 1200 (Some 8), Err "timeout");
                     (EstimateGas (ViaProvider 1) "0xaa" 1000 1200 (Some 8), Err "timeout");
                     (Delay 2000, Ok 0); (GetGasPrice 0, Ok 1000);
                     (EstimateGas ViaWallet "0xaa" 1000 1200 (Some 9), Ok 50000);
                     (PopulateTransaction "0xaa" 1000, Ok 0)])%list)))).
Proof.
  assert (Hidle : workers (exec 2 false true started 1000) = []) by reflexivity.
  split; [exact Hidle|].
  assert (Hmore : Forall (fun e => writesNonce e = false) twoJobs)
    by (repeat constructor).
  destruct (nonce_advances_with_each_attempt 2 false true started twoJobs 1000 Hidle Hmore)
    as (_ & Hconfirmed & _).
  apply (Hconfirmed
           [(BalanceOf ViaWallet "0xaa", Ok 1000); (GetGasPrice 0, Ok 1000);
            (EstimateGas ViaWallet "0xaa" 1000 1200 (Some 7), Ok 50000);
            (PopulateTransaction "0xaa" 1000, Ok 0)]
           (mkTx "0xaa" 1000 60000 1200 (Some 7) (Some 59144)) (Ok 0) [(SendTransaction 0 (mkTx "0xaa" 1000 60000 1200 (Some 7) (Some 59144)), Ok 777)] 777 1 _ (mkTx "0xaa" 1000 60000 1200 (Some 9) (Some 59144)) (Ok 0) []).
  - vm_compute. reflexivity.
  - repeat constructor.
  - repeat constructor.
Defined.

(** C1 as stated fails on the code: job 1 is confirmed with nonce 7; the
    first attempt of job 2 fails while estimating gas (nothing is signed
    or sent with nonce 8), its second attempt is confirmed with nonce 9.
    No 'nonce too low' occurred and the pending count was never read, yet
    the second confirmed transaction's nonce is not 7 + 1. *)
Lemma nonce_gap_between_confirmed_transactions :
  let job1 := run (transferWithRetry 2 false true "0xAA" (exampleState (Some 7)))
                  (estimatesFailBefore 0) 0 in
  let job2 := run (transferWithRetry 2 false true "0xAA" job1.1.1)
                  (estimatesFailBefore 5) 0 in
  job1.1.2 = inr (Some true) /\
  map tx_nonce (signedTx job1.2) = [Some 7] /\
  job2.1.2 = inr (Some true) /\
  map tx_nonce (signedTx job2.2) = [Some 9] /\
  ~ In GetTransactionCount (job1.2 ++ job2.2)%list.
Proof.
  vm_compute. repeat split.
  intros H. repeat (destruct H as [H|H]; [discriminate H|]). exact H.
Qed.

(** A failed job in between: job 1 is confirmed with nonce 7; every
    submission of job 2 times out, which makes five attempts and five
    delays; the first attempt of job 3 is confirmed with nonce
    13 = 7 + 1 + 5. *)
Lemma nonce_after_a_failed_job :
  let job1 := run (transferWithRetry 2 false true "0xAA" (exampleState (Some 7)))
                  (sendsFailBefore 0) 0 in
  let job2 := run (transferWithRetry 2 false true "0xAA" job1.1.1)
                  (sendsFailBefore 1000) 0 in
  let job3 := run (transferWithRetry 2 false true "0xAA" job2.1.1)
                  (sendsFailBefore 0) 0 in
  job1.1.2 = inr (Some true) /\
  map tx_nonce (signedTx job1.2) = [Some 7] /\
  job2.1.2 = inr (Some false) /\
  length (delaysOf job2.2) = 5%nat /\
  job3.1.2 = inr (Some true) /\
  map tx_nonce (signedTx job3.2) = [Some 13].
Proof. vm_compute. repeat split. Qed.

(** What the code does after 'nonce too low': the pending count read
    from the chain is 20, and the next attempt is built with 21. *)
Lemma nonce_too_low_resync_is_incremented :
  map tx_nonce
    (signedTx (run (transferWithRetry 2 false true "0xAA" (exampleState (Some 7)))
                   nonceTooLowOnce 0).2)
  = [Some 7; Some 21].
Proof. vm_compute. reflexivity. Qed.

(** C5 on the code.  Balance 1000, decimals 6, gas price 1000 at every
    reading, starting nonce 7; the transaction is rejected twice with a
    plain error and accepted on the third attempt.  The three
    transactions signed carry nonces 7, 8, 9 and all three carry gas
    price 1200 = 1000 * 120 / 100: the two bumps by 110 / 100 made in the
    [catch] block were overwritten by the fresh reading of line 430.  The
    escalated price of the claim would be 1452. *)
Theorem retry_bumps_never_reach_the_transaction :
  let r := run (transferWithRetry 2 false true "0xAA" (exampleState (Some 7)))
               (sendsFailBefore 17) 0 in
  r.1.2 = inr (Some true) /\
  map (fun tx => (tx_nonce tx, tx_gasPrice tx)) (signedTx r.2)
  = [(Some 7, 1200); (Some 8, 1200); (Some 9, 1200)] /\
  mulDiv (mulDiv (mulDiv 1000 120) 110) 110 = 1452.
Proof. vm_compute. repeat split. Qed.

(** A held lock suppresses the call; a registered asset seen while the
    queue is idle takes its lock at once, so that a second event adds
    nothing; the same holds two replies, a nonce reset and a log line
    later, while the job is still suspended; while the queue is busy the
    job is added. *)
Lemma duplicate_suppressed_witness :
  queue (txQueue (enqueueTransfer 2 false true "0xAA" exampleLocked).1) = [] /\
  (let σ := exec 2 false true [E_SetupToken "0xAA" usdc] 1000 in
   let σ1 := (sys_step 2 false true (E_Transfer "0xAA") σ).1 in
   isProcessing (glob σ1) (toLowerCase "0xAA") = true /\
   queue (txQueue (glob (sys_step 2 false true (E_Transfer "0xAA") σ1).1)) = []) /\
  (let σ2 := now_sys (play 2 false true jobUnderWay
                        (mkHistory (exec 2 false true started 1000) [] [])) in
   isProcessing (glob σ2) (toLowerCase "0xaa") = true /\
   accepted (E_Transfer "0xAA") σ2 = [] /\
   workers (sys_step 2 false true (E_Transfer "0xAA") σ2).1 = workers σ2) /\
  queue (txQueue (enqueueTransfer 2 false true "0xAA"
                    (set_txQueue (set_processing true) (exampleState None))).1)
  = ([] ++ [toLowerCase "0xAA"])%list.
Proof.
  destruct (duplicate_suppressed_while_lock_held 2 false true)
    as (Hheld & Hidle & Hsuspended & Hbusy).
  split; [|split; [|split]].
  - destruct (Hheld "0xAA" exampleLocked) as [_ Hq].
    + vm_compute. reflexivity.
    + exact Hq.
  - destruct (Hidle [E_SetupToken "0xAA" usdc] 1000 "0xAA" usdc)
      as (Hlock & _ & _ & _ & Hq & _).
    + vm_compute. reflexivity.
    + vm_compute. reflexivity.
    + split; [exact Hlock|exact Hq].
  - intros σ2.
    assert (Hnone : Forall (fun w => inFlight w = false)
                      (workers (exec 2 false true started 1000)))
      by (vm_compute; constructor).
    assert (Hquiet : Forall (fun e => clearsLocks e = false) jobUnderWay)
      by (repeat constructor).
    assert (Hjobs : map (fun w => (jobOf w, inFlight w)) (workers σ2) = [("0xaa", true)])
      by (vm_compute; reflexivity).
    assert (Hin : exists c k, In (Suspended "0xaa" c k) (workers σ2)).
    { destruct (workers σ2) as [|[job c k|job r] [|w ws]]; try discriminate Hjobs.
      injection Hjobs as ->. exists c, k. left. reflexivity. }
    destruct Hin as (c & k & Hin).
    destruct (Hsuspended started 1000 jobUnderWay Hnone Hquiet "0xaa" c k Hin)
      as [Hlock Hdup].
    destruct (Hdup "0xAA" eq_refl) as (Hacc & _ & Hw).
    split; [exact Hlock|]. split; [exact Hacc|exact Hw].
  - apply (Hbusy "0xAA" (set_txQueue (set_processing true) (exampleState None))).
    + vm_compute. reflexivity.
    + reflexivity.
Defined.

(** Where the suppression ends: the sweep clears the lock of the job that
    is in flight, and a second transfer to the same asset is queued. *)
Lemma duplicate_enqueued_after_sweep :
  let σ1 := exec 2 false true (started ++ [E_Transfer "0xAA"; E_ResetLocks]) 1000 in
  map jobOf (workers σ1) = ["0xaa"] /\
  map inFlight (workers σ1) = [true] /\
  isProcessing (glob σ1) "0xaa" = false /\
  accepted (E_Transfer "0xAA") σ1 = ["0xaa"] /\
  queue (txQueue (glob (sys_step 2 false true (E_Transfer "0xAA") σ1).1)) = ["0xaa"].
Proof. vm_compute. repeat split. Qed.

(** C8 as stated fails on the code: while [process] is busy with "0xbb",
    two transfers to "0xaa" are seen.  After the first one its job waits
    in the queue and the lock of "0xaa" is not held; the second call is
    not suppressed, and the queue holds the job twice. *)
Lemma duplicate_enqueued_while_waiting :
  let h1 := play 2 false true (busyWithOther ++ [E_Transfer "0xAA"]) (history0 2 1000) in
  let h2 := turn 2 false true h1 (E_Transfer "0xAA") in
  queue (txQueue (glob (now_sys h1))) = ["0xaa"] /\
  isProcessing (glob (now_sys h1)) "0xaa" = false /\
  accepted (E_Transfer "0xAA") (now_sys h1) = ["0xaa"] /\
  queue (txQueue (glob (now_sys h2))) = ["0xaa"; "0xaa"] /\
  enqueued h2 = ["0xbb"; "0xaa"; "0xaa"] /\
  dequeued h2 = ["0xbb"].
Proof. vm_compute. repeat split. Qed.


(** ** Further examples *)

(** A job on "0xaa" ends by an exception; [process] is resumed and ends
    too.  Two more transfers are seen: both jobs are queued, none is ever
    taken. *)
Lemma queue_wedged_witness :
  let σ := exec 1 false true throwingJob 1000 in
  let h := play 1 false true [E_Resume 0; E_Transfer "0xAA"; E_Transfer "0xBB"]
             (mkHistory σ [] []) in
  workers σ = [Settled "0xaa" (inl "socket hang up")] /\
  workers (now_sys h) = [] /\
  processing (txQueue (glob (now_sys h))) = true /\
  dequeued h = [] /\
  queue (txQueue (glob (now_sys h))) = (queue (txQueue (glob σ)) ++ enqueued h)%list.
Proof.
  intros σ h.
  assert (Hw : workers σ = [Settled "0xaa" (inl "socket hang up")])
    by (vm_compute; reflexivity).
  split; [exact Hw|].
  apply (queue_wedged_after_a_throw 1 false true throwingJob 1000 "0xaa" "socket hang up"
           [E_Transfer "0xAA"; E_Transfer "0xBB"] Hw).
Defined.

(** With two endpoints, both down, the fallback throws: it does not
    return [undefined]. *)
Lemma callWithFallback_never_undefined_witness :
  (0 < 2)%nat /\
  (run (callWithFallback 2 false (fun p => call (GetGasPrice p)) (exampleState None))
       allEndpointsDown 0).1.2 <> inr None.
Proof.
  assert (Hpos : (0 < 2)%nat) by lia.
  split; [exact Hpos|].
  destruct (callWithFallback_never_undefined 2 false (fun p => call (GetGasPrice p)) Hpos)
    as [_ Hrun].
  apply Hrun.
Defined.

(** A job for "0xcc", which is not in the tables. *)
Lemma unregistered_token_witness :
  isProcessing (exampleState None) (toLowerCase "0xCC") = false /\
  tokenContracts (exampleState None) !! toLowerCase "0xCC" = None /\
  exists s',
    transferWithRetry 2 false true "0xCC" (exampleState None) = Fin s' (inr None) /\
    tokenProcessing s' = <[toLowerCase "0xCC" := false]> (tokenProcessing (exampleState None)).
Proof.
  assert (Hfree : isProcessing (exampleState None) (toLowerCase "0xCC") = false)
    by (vm_compute; reflexivity).
  assert (Hreg : tokenContracts (exampleState None) !! toLowerCase "0xCC" = None)
    by (vm_compute; reflexivity).
  split; [exact Hfree|]. split; [exact Hreg|].
  destruct (unregistered_token_is_skipped 2 false true "0xCC" (exampleState None) Hfree Hreg)
    as (s' & Hfin & Hlocks & _).
  exists s'. split; [exact Hfin|exact Hlocks].
Defined.

(** A job on "0xaa" with an empty wallet. *)
Lemma zero_balance_witness :
  exists s',
    run (transferWithRetry 2 false true "0xAA" (exampleState (Some 7))) emptyWallet 0
    = (s', inr None, [BalanceOf ViaWallet "0xaa"]) /\
    txQueue s' = txQueue (exampleState (Some 7)).
Proof.
  destruct (zero_balance_is_skipped 2 false true "0xAA" (exampleState (Some 7)) emptyWallet 0
              usdc exampleLocked 0 [BalanceOf ViaWallet "0xaa"])
    as (s' & Hrun & _ & Hq & _).
  - vm_compute. reflexivity.
  - vm_compute. reflexivity.
  - vm_compute. reflexivity.
  - lia.
  - exists s'. split; [exact Hrun|exact Hq].
Defined.

(** A job on "0xaa" that finds [txQueue.nonce] unset reads the pending
    count (0 here), and its first attempt is confirmed. *)
Lemma unset_nonce_witness :
  (run (transferWithRetry 2 false true "0xAA" (exampleState None)) (sendsFailBefore 0) 0).2
  = [BalanceOf ViaWallet "0xaa"; GetTransactionCount; GetGasPrice 0;
     EstimateGas ViaWallet "0xaa" 1000 1200 (Some 0); PopulateTransaction "0xaa" 1000;
     SignTransaction (mkTx "0xaa" 1000 60000 1200 (Some 0) (Some 59144));
     SendTransaction 0 (mkTx "0xaa" 1000 60000 1200 (Some 0) (Some 59144));
     WaitConfirmation 777; TelegramNotify (N_Transferred "USDC" 1000 6 777)].
Proof.
  destruct (unset_nonce_is_read_from_the_chain 2 false true "0xAA" (exampleState None)
              (sendsFailBefore 0) 0 usdc
              (set_tokenProcessing (insert "0xaa" true) (exampleState None))
              1000 [BalanceOf ViaWallet "0xaa"])
    as [_ Hok].
  - vm_compute. reflexivity.
  - vm_compute. reflexivity.
  - vm_compute. reflexivity.
  - lia.
  - reflexivity.
  - rewrite (Hok 0 eq_refl). vm_compute. reflexivity.
Defined.

(** A job on "0xaa" while nothing answers: the wallet's connection and
    both endpoints are asked, the job ends by the last error. *)
Lemma unreadable_balance_witness :
  exists s',
    run (transferWithRetry 2 false true "0xAA" (exampleState (Some 7))) allEndpointsDown 0
    = (s', inl "socket hang up",
       [BalanceOf ViaWallet "0xaa"; BalanceOf (ViaProvider 0) "0xaa";
        BalanceOf (ViaProvider 1) "0xaa"]) /\
    tokenProcessing s' !! toLowerCase "0xAA" = Some false.
Proof.
  destruct (unreadable_balance_ends_the_job 2 false true "0xAA" (exampleState (Some 7))
              allEndpointsDown 0 usdc
              (recordMetric "rpc_failure" true (recordMetric "rpc_failure" true exampleLocked))
              "socket hang up"
              [BalanceOf ViaWallet "0xaa"; BalanceOf (ViaProvider 0) "0xaa";
               BalanceOf (ViaProvider 1) "0xaa"])
    as (s' & Hrun & _ & _ & Hlock & _).
  - vm_compute. reflexivity.
  - vm_compute. reflexivity.
  - vm_compute. reflexivity.
  - exists s'. split; [exact Hrun|exact Hlock].
Defined.

(** The first attempt is rejected with 'nonce too low' while the chain
    reports 20 pending transactions: the second attempt is built with
    nonce 21. *)
Lemma nonce_too_low_witness :
  map tx_nonce
    (signedTx (run (retryLoop 2 false true 5 "0xaa" usdc 1000 None (Some 7) exampleLocked)
                   nonceTooLowOnce 0).2)
  = [Some 7; Some 21].
Proof.
  destruct (nonce_too_low_skips_a_nonce 2 false true nonceTooLowOnce "0xaa" usdc 1000 4 None
              (Some 7) exampleLocked 0
              (recordMetric "rpc_failure" true
                 (recordMetric "rpc_failure" true exampleLocked))
              1200 "nonce too low"
              [GetGasPrice 0; EstimateGas ViaWallet "0xaa" 1000 1200 (Some 7);
               PopulateTransaction "0xaa" 1000;
               SignTransaction (mkTx "0xaa" 1000 60000 1200 (Some 7) (Some 59144));
               SendTransaction 0 (mkTx "0xaa" 1000 60000 1200 (Some 7) (Some 59144));
               SendTransaction 0 (mkTx "0xaa" 1000 60000 1200 (Some 7) (Some 59144));
               SendTransaction 1 (mkTx "0xaa" 1000 60000 1200 (Some 7) (Some 59144))])
    as [Hok _].
  - vm_compute. reflexivity.
  - vm_compute. reflexivity.
  - destruct (Hok 20 eq_refl) as [_ Hrun]. rewrite Hrun. vm_compute. reflexivity.
Defined.



(** A job on which everything succeeds, with the Telegram settings and
    without them. *)
Lemma confirmed_attempt_witness :
  (exists s',
      run (transferWithRetry 2 false true "0xAA" (exampleState (Some 7)))
          (sendsFailBefore 0) 0
      = (s', inr (Some true),
         ([BalanceOf ViaWallet "0xaa"; GetGasPrice 0;
           EstimateGas ViaWallet "0xaa" 1000 1200 (Some 7);
           PopulateTransaction "0xaa" 1000;
           SignTransaction (mkTx "0xaa" 1000 60000 1200 (Some 7) (Some 59144)); SendTransaction 0 (mkTx "0xaa" 1000 60000 1200 (Some 7) (Some 59144)); WaitConfirmation 777]
          ++ [TelegramNotify (N_Transferred "USDC" 1000 6 777)])%list) /\
      nonce (txQueue s') = Some 8) /\
  (exists s',
      run (transferWithRetry 2 false false "0xAA" (exampleState (Some 7)))
          (sendsFailBefore 0) 0
      = (s', inr (Some true),
         ([BalanceOf ViaWallet "0xaa"; GetGasPrice 0;
           EstimateGas ViaWallet "0xaa" 1000 1200 (Some 7);
           PopulateTransaction "0xaa" 1000;
           SignTransaction (mkTx "0xaa" 1000 60000 1200 (Some 7) (Some 59144)); SendTransaction 0 (mkTx "0xaa" 1000 60000 1200 (Some 7) (Some 59144)); WaitConfirmation 777]
          ++ [])%list) /\
      nonce (txQueue s') = Some 8).
Proof.
  split.
  - destruct (confirmed_attempt 2 false true "0xAA" (exampleState (Some 7))
                (sendsFailBefore 0) 0 usdc 0%nat 1000 7 1000 50000 0 0 777 0)
      as (s' & Hrun & Hnonce & _).
    + vm_compute. reflexivity.
    + vm_compute. reflexivity.
    + vm_compute. reflexivity.
    + reflexivity.
    + lia.
    + lia.
    + reflexivity.
    + reflexivity.
    + reflexivity.
    + reflexivity.
    + reflexivity.
    + reflexivity.
    + reflexivity.
    + exists s'. split; [exact Hrun|exact Hnonce].
  - destruct (confirmed_attempt 2 false false "0xAA" (exampleState (Some 7))
                (sendsFailBefore 0) 0 usdc 0%nat 1000 7 1000 50000 0 0 777 0)
      as (s' & Hrun & Hnonce & _).
    + vm_compute. reflexivity.
    + vm_compute. reflexivity.
    + vm_compute. reflexivity.
    + reflexivity.
    + lia.
    + lia.
    + reflexivity.
    + reflexivity.
    + reflexivity.
    + reflexivity.
    + reflexivity.
    + reflexivity.
    + reflexivity.
    + exists s'. split; [exact Hrun|exact Hnonce].
Defined.

(** Two endpoints, one measured at 5 ms and selected while a job runs. *)
Lemma selected_provider_witness :
  (0 < 2)%nat /\
  exists i,
    currentProvider 2
      (glob (exec 2 false true (busyWithOther ++ [E_Measured 1 (Millis 5); E_SelectBest]) 1000))
    = Some i /\ (i < 2)%nat.
Proof.
  assert (Hpos : (0 < 2)%nat) by lia.
  split; [exact Hpos|].
  destruct (selected_provider_exists 2 false true
              (busyWithOther ++ [E_Measured 1 (Millis 5); E_SelectBest])%list 1000 Hpos)
    as (_ & i & Hi & Hlt & _).
  exists i. split; [exact Hi|exact Hlt].
Defined.
